(** * SonicScript-AI: the windowing-and-merge core of the transcription worker

    A shallow embedding of the pure helpers of the worker (worker.ts, the
    file src/unnamed/part_001 of the sources: [normalizeWhitespace], [collapseConsecutiveRepeatedNgrams],
    [normalizeForCompare], [dedupeSegments], [estimateChunkCount], the
    window construction loop and the per-window loop of the transcribe
    handler) and of the main-thread message handler of app/page.tsx
    ([handleWorkerMessage], [cancelTranscription], [startTranscription]).

    Conventions.
    - A JS string is the list of its UTF-16 code units ([jsstring]).
    - A JS [number] holding a length, an index or a request id is a natural
      number or an integer; one holding a timestamp in seconds, a progress
      value or an elapsed time is a rational (every finite double is one).
      Comparison, [Math.max], [Math.min], [Math.floor], [Math.ceil] and the
      sign of a difference are exact on finite doubles.  A sum, product or
      quotient is rounded to the nearest double, ties to even, as IEEE 754
      prescribes ([Double.add], [Double.mul], [Double.div]), and a decimal
      literal stands for the double nearest to it ([Double.round]).  The
      offsets in seconds of the windows and of the cloud chunks are quotients
      of a multiple of the sample rate by the sample rate, hence integers,
      and are written exactly.
    - A loop whose trip count is not syntactically bounded carries a fuel
      argument; each such loop comes with a lemma showing that the fuel the
      caller passes is never used up. *)

From Stdlib Require Import String Ascii.
From Stdlib Require Import List Arith ZArith NArith QArith Qround Qpower Bool Lia Lqa.
From Stdlib Require Import Sorted.
Import ListNotations.

Close Scope Q_scope.
Open Scope nat_scope.

(** ** JS strings *)

Module JsString.

Definition codeunit := N.
Definition jsstring := list codeunit.

(** String literals of the Basic Latin range. *)
Definition lit (s : string) : jsstring :=
  List.map N_of_ascii (list_ascii_of_string s).
Arguments lit s%_string.

Definition SPACE : codeunit := 32%N.

(** The class [\s] of a JS regular expression, which is also the set that
    [String.prototype.trim] strips (WhiteSpace and LineTerminator). *)
Definition isWhitespace (c : codeunit) : bool :=
  ((9 <=? c) && (c <=? 13) || (c =? 32) || (c =? 160) || (c =? 5760)
   || (8192 <=? c) && (c <=? 8202) || (c =? 8232) || (c =? 8233)
   || (c =? 8239) || (c =? 8287) || (c =? 12288) || (c =? 65279))%N.

Fixpoint eqb (a b : jsstring) : bool :=
  match a, b with
  | [], [] => true
  | x :: a', y :: b' => (x =? y)%N && eqb a' b'
  | _, _ => false
  end.

(** [words[i] !== words[j]] compares two array reads; a read out of range is
    [undefined], and [undefined === undefined]. *)
Definition strictEq (a b : option jsstring) : bool :=
  match a, b with
  | Some x, Some y => eqb x y
  | None, None => true
  | _, _ => false
  end.

(** [text.replace(/\s+/g, " ")]: every maximal run of whitespace becomes one
    space.  [inRun] tells that the previous code unit was whitespace. *)
Fixpoint replaceRuns (inRun : bool) (s : jsstring) : jsstring :=
  match s with
  | [] => []
  | c :: r =>
      if isWhitespace c
      then (if inRun then replaceRuns true r else SPACE :: replaceRuns true r)
      else c :: replaceRuns false r
  end.

Fixpoint trimStart (s : jsstring) : jsstring :=
  match s with
  | [] => []
  | c :: r => if isWhitespace c then trimStart r else s
  end.

Fixpoint trimEnd (s : jsstring) : jsstring :=
  match s with
  | [] => []
  | c :: r =>
      match trimEnd r with
      | [] => if isWhitespace c then [] else [c]
      | kept => c :: kept
      end
  end.

Definition trim (s : jsstring) : jsstring := trimEnd (trimStart s).

(** [s.split(sep)] for a one-unit separator. *)
Fixpoint split (sep : codeunit) (s : jsstring) : list jsstring :=
  match s with
  | [] => [[]]
  | c :: r =>
      if (c =? sep)%N then [] :: split sep r
      else match split sep r with
           | w :: ws => (c :: w) :: ws
           | [] => [[c]]
           end
  end.

(** [ws.join(sep)]. *)
Fixpoint join (sep : codeunit) (ws : list jsstring) : jsstring :=
  match ws with
  | [] => []
  | [w] => w
  | w :: rest => w ++ sep :: join sep rest
  end.

(** [a.includes(b)]: [b] occurs in [a] as a contiguous substring. *)
Fixpoint startsWith (a b : jsstring) : bool :=
  match b, a with
  | [], _ => true
  | y :: b', x :: a' => (x =? y)%N && startsWith a' b'
  | _ :: _, [] => false
  end.

Fixpoint includes (a b : jsstring) : bool :=
  startsWith a b ||
  match a with
  | [] => false
  | _ :: a' => includes a' b
  end.

End JsString.

Import JsString.

(** ** TextNormalizer (worker.ts, lines 123-153) *)

Definition normalizeWhitespace (text : jsstring) : jsstring :=
  trim (replaceRuns false text).

(** The inner [for (offset ...)] of the scan: are the two adjacent
    [gramSize]-grams that end at [index] equal? *)
Definition repeatedAt (words : list jsstring) (gramSize index : nat) : bool :=
  forallb
    (fun offset =>
       strictEq (nth_error words (index - gramSize * 2 + offset))
                (nth_error words (index - gramSize + offset)))
    (seq 0 gramSize).

(** [words.splice(start, count)]. *)
Definition splice (words : list jsstring) (start count : nat) : list jsstring :=
  firstn start words ++ skipn (start + count) words.

(** The [while (index <= words.length)] loop for one gram size. *)
Fixpoint scanFrom (fuel : nat) (gramSize index : nat) (words : list jsstring)
  : list jsstring :=
  match fuel with
  | O => words
  | S fuel' =>
      if index <=? length words then
        if repeatedAt words gramSize index
        then scanFrom fuel' gramSize index (splice words (index - gramSize) gramSize)
        else scanFrom fuel' gramSize (index + 1) words
      else words
  end.

Definition scanGram (gramSize : nat) (words : list jsstring) : list jsstring :=
  scanFrom (S (length words)) gramSize (gramSize * 2) words.

(** [for (gramSize = ...; gramSize >= 3; gramSize -= 1)]. *)
Fixpoint gramLoop (gramSize : nat) (words : list jsstring) : list jsstring :=
  match gramSize with
  | O => words
  | S smaller =>
      if 3 <=? gramSize then gramLoop smaller (scanGram gramSize words)
      else words
  end.

Definition collapseConsecutiveRepeatedNgrams (text : jsstring) : jsstring :=
  let normalized := normalizeWhitespace text in
  match normalized with
  | [] => []
  | _ =>
      let words := split SPACE normalized in
      if length words <? 6 then normalized
      else trim (join SPACE (gramLoop (Nat.min 20 (length words / 2)) words))
  end.

(** Is there, for a gram size that [collapseConsecutiveRepeatedNgrams] would
    scan on [words], a place where the loop would find a repeat? *)
Definition hasRepeat (words : list jsstring) : bool :=
  existsb
    (fun gramSize =>
       existsb (repeatedAt words gramSize)
               (seq (gramSize * 2) (S (length words) - gramSize * 2)))
    (seq 3 (Nat.min 20 (length words / 2) - 2)).

(** ** Whitespace-normal strings

    The shape of the strings that [normalizeWhitespace] returns, used to
    state what the normalizer guarantees. *)

(** [spaced prevWs s]: every whitespace unit of [s] is a single space that
    does not follow another whitespace unit ([prevWs] stands for the unit
    before [s]). *)
Fixpoint spaced (prevWs : bool) (s : jsstring) : bool :=
  match s with
  | [] => true
  | c :: r =>
      if isWhitespace c then (c =? SPACE)%N && negb prevWs && spaced true r
      else spaced false r
  end.

Fixpoint lastIsWhitespace (s : jsstring) : bool :=
  match s with
  | [] => false
  | c :: r => match r with [] => isWhitespace c | _ => lastIsWhitespace r end
  end.

Definition isNormal (s : jsstring) : bool :=
  spaced true s && negb (lastIsWhitespace s).

Definition noWhitespace (w : jsstring) : bool :=
  forallb (fun c => negb (isWhitespace c)) w.

Definition cleanWord (w : jsstring) : Prop :=
  w <> [] /\ noWhitespace w = true.

(** ** Doubles

    The finite doubles are the rationals [m * 2^q] with [|m| < 2^53] and
    [-1074 <= q <= 971].  [round] takes a rational to the nearest of them,
    ties to the one with even [m]: this is what an arithmetic operation of
    binary64 does to its exact result, and what reading a decimal literal
    does.  Results of magnitude 2^1024 or more (which the machine turns into
    an infinity) and divisions by zero do not occur in the code modelled
    here and are outside of the model. *)

Module Double.

Definition pow2 (k : Z) : Q := (2 ^ k)%Q.

(** [floor(log2 a)] for [a > 0]. *)
Definition floorLog2 (a : Q) : Z :=
  if Qle_bool 1 a then Z.log2 (Qfloor a)
  else (- Z.log2_up (Qceiling (/ a)))%Z.

(** The nearest integer, ties to even. *)
Definition nearestEven (y : Q) : Z :=
  let f := Qfloor y in
  match Qcompare (y - inject_Z f) (1 # 2) with
  | Lt => f
  | Gt => (f + 1)%Z
  | Eq => if Z.even f then f else (f + 1)%Z
  end.

(** The exponent of the unit in the last place of the doubles around
    [a > 0]: 53 significant bits, and no exponent below that of the
    subnormal numbers. *)
Definition quantum (a : Q) : Z := Z.max (floorLog2 a - 52) (-1074).

Definition roundPos (a : Q) : Q :=
  (inject_Z (nearestEven (a / pow2 (quantum a))) * pow2 (quantum a))%Q.

Definition round (x : Q) : Q :=
  Qred match Qcompare x 0 with
       | Eq => 0%Q
       | Gt => roundPos x
       | Lt => (- roundPos (- x))%Q
       end.

Definition add (a b : Q) : Q := round (a + b).
Definition mul (a b : Q) : Q := round (a * b).
Definition div (a b : Q) : Q := round (a / b).

End Double.

(** ** SegmentMerger (worker.ts, lines 20-24 and 155-195) *)

Record TranscriptSegment : Type := mkSegment {
  text : jsstring;
  start : Q;
  end_ : Q
}.

(** [Math.max(a, b)]. *)
Definition mathMax (a b : Q) : Q := if Qle_bool b a then a else b.

(** The comparator [(a, b) => a.start - b.start || a.end - b.end]: the
    difference of the starts unless it is zero (falsy). *)
Definition compareSegments (a b : TranscriptSegment) : Q :=
  let d := (start a - start b)%Q in
  if Qeq_bool d 0 then (end_ a - end_ b)%Q else d.

(** [Array.prototype.sort] is stable; with a comparator that is a total
    preorder its result is the one stable ordering, computed here by
    insertion: each element goes in front of the first element of the sorted
    tail that it does not come after. *)
Fixpoint insertBy {A : Type} (cmp : A -> A -> Q) (x : A) (l : list A) : list A :=
  match l with
  | [] => [x]
  | y :: r => if Qle_bool (cmp x y) 0 then x :: y :: r else y :: insertBy cmp x r
  end.

Definition sortBy {A : Type} (cmp : A -> A -> Q) (l : list A) : list A :=
  fold_right (insertBy cmp) [] l.

(** The literal [0.35] of [next.start <= prev.end + 0.35]. *)
Definition MERGE_EPSILON : Q := Double.round 0.35%Q.

Section SegmentMerger.

(** [String.prototype.toLowerCase] is a built-in over the whole of Unicode;
    it is left as a parameter, so that what is proved holds whatever it
    returns. *)
Variable toLowerCase : jsstring -> jsstring.

Definition normalizeForCompare (t : jsstring) : jsstring :=
  toLowerCase (collapseConsecutiveRepeatedNgrams t).

Definition overlaps (prev next : TranscriptSegment) : bool :=
  Qle_bool (start next) (Double.add (end_ prev) MERGE_EPSILON).

Definition sameOrContained (prevNorm nextNorm : jsstring) : bool :=
  eqb prevNorm nextNorm || includes prevNorm nextNorm || includes nextNorm prevNorm.

(** One turn of [for (const segment of sorted)].  The array [deduped] is
    kept newest first, so that [deduped[deduped.length - 1]] is the head of
    the list; [prev.text = ...] and [prev.end = ...] replace that head. *)
Definition dedupeStep (deduped : list TranscriptSegment) (segment : TranscriptSegment)
  : list TranscriptSegment :=
  match collapseConsecutiveRepeatedNgrams (text segment) with
  | [] => deduped
  | cleanedText =>
      let next := mkSegment cleanedText (start segment)
                            (mathMax (end_ segment) (start segment)) in
      match deduped with
      | [] => [next]
      | prev :: older =>
          let prevNorm := normalizeForCompare (text prev) in
          let nextNorm := normalizeForCompare (text next) in
          if sameOrContained prevNorm nextNorm && overlaps prev next
          then mkSegment (if length prevNorm <? length nextNorm
                          then text next else text prev)
                         (start prev)
                         (mathMax (end_ prev) (end_ next)) :: older
          else next :: prev :: older
      end
  end.

Definition dedupeSegments (segments : list TranscriptSegment)
  : list TranscriptSegment :=
  rev (fold_left dedupeStep (sortBy compareSegments segments) []).

(** [sameOrContained && overlaps] for the current segment and a candidate,
    and the segment that replaces the current one when it holds. *)
Definition mergeable (prev next : TranscriptSegment) : bool :=
  sameOrContained (normalizeForCompare (text prev))
                  (normalizeForCompare (text next))
  && overlaps prev next.

Definition merged (prev next : TranscriptSegment) : TranscriptSegment :=
  mkSegment
    (if length (normalizeForCompare (text prev))
        <? length (normalizeForCompare (text next))
     then text next else text prev)
    (start prev)
    (mathMax (end_ prev) (end_ next)).

Fixpoint noAdjacentMerge (l : list TranscriptSegment) : bool :=
  match l with
  | a :: (b :: _) as r => negb (mergeable a b) && noAdjacentMerge r
  | _ => true
  end.

End SegmentMerger.

(** [toLowerCase] on the Basic Latin range, for running the code on
    examples written in that range. *)
Definition asciiLower (s : jsstring) : jsstring :=
  List.map (fun c => if (65 <=? c) && (c <=? 90) then c + 32 else c)%N s.

(** ** Vocabulary for the properties of the merger *)

(** The candidate that [dedupeStep] builds from a segment. *)
Definition cleaned (segment : TranscriptSegment) : TranscriptSegment :=
  mkSegment (collapseConsecutiveRepeatedNgrams (text segment)) (start segment)
            (mathMax (end_ segment) (start segment)).

(** [if (!cleanedText) continue]. *)
Definition isBlank (segment : TranscriptSegment) : bool :=
  match collapseConsecutiveRepeatedNgrams (text segment) with
  | [] => true
  | _ => false
  end.

(** The order that the comparator of [dedupeSegments] induces: by [start],
    then by [end]. *)
Definition lexLe (a b : TranscriptSegment) : Prop :=
  (start a < start b \/ (start a == start b /\ end_ a <= end_ b))%Q.

(** What the head of the accumulator knows about a segment still to come. *)
Definition headBound (prev c : TranscriptSegment) : Prop :=
  (start prev <= start c
   /\ (start prev == start c -> end_ prev <= mathMax (end_ c) (start c)))%Q.

(** What every segment of the merged list satisfies. *)
Definition wellFormed (s : TranscriptSegment) : Prop :=
  (start s <= end_ s)%Q /\ text s <> [] /\ isNormal (text s) = true.

(** The loop invariant of [dedupeSegments]: [acc] is the array [deduped]
    (newest first) and [rest] the part of [sorted] still to visit. *)
Definition mergeInv (acc rest : list TranscriptSegment) : Prop :=
  StronglySorted (fun a b => lexLe b a) acc
  /\ Forall wellFormed acc
  /\ (forall prev older, acc = prev :: older -> Forall (headBound prev) rest)
  /\ StronglySorted lexLe rest.

Definition fixedText (s : TranscriptSegment) : Prop :=
  collapseConsecutiveRepeatedNgrams (text s) = text s.

(** ** WindowPlanner (worker.ts, lines 59-63, 110-114 and 356-392) *)

Module Windows.

Local Open Scope Z_scope.

Definition CHUNK_LENGTH_S : Z := 30.
Definition STRIDE_LENGTH_S : Z := 5.
Definition SAMPLE_RATE : Z := 16000.
Definition CHUNK_JUMP_SAMPLES : Z :=
  (CHUNK_LENGTH_S - 2 * STRIDE_LENGTH_S) * SAMPLE_RATE.

(** [Math.ceil(a / b)] for integers [a] and [b > 0] below 2^53, where the
    rounded quotient has the ceiling of the exact one. *)
Definition ceilDiv (a b : Z) : Z := - ((- a) / b).

Definition estimateChunkCount (audioLength : Z) : Z :=
  let windowSamples := CHUNK_LENGTH_S * SAMPLE_RATE in
  if (audioLength <=? windowSamples) || (CHUNK_JUMP_SAMPLES <=? 0) then 1
  else ceilDiv (audioLength - windowSamples) CHUNK_JUMP_SAMPLES + 1.

(** A [Float32Array]: the samples are opaque, only their number and the
    zero sample matter here. *)
Definition Float32Array := list Q.

Record Window : Type := mkWindow {
  data : Float32Array;
  offsetS : Q
}.

Definition WINDOW_SAMPLES : Z := CHUNK_LENGTH_S * SAMPLE_RATE.
Definition STRIDE_SAMPLES : Z := STRIDE_LENGTH_S * SAMPLE_RATE.
Definition JUMP_SAMPLES : Z := CHUNK_JUMP_SAMPLES.
Definition MIN_WINDOW_SAMPLES : Z := 1 * SAMPLE_RATE.

Definition arrayLength (buf : Float32Array) : Z := Z.of_nat (length buf).

(** [buf.slice(from, to)] for [0 <= from <= to]: a copy. *)
Definition slice (buf : Float32Array) (from to : Z) : Float32Array :=
  firstn (Z.to_nat (to - from)) (skipn (Z.to_nat from) buf).

Definition padToMinLength (buf : Float32Array) (minLen : Z) : Float32Array :=
  if arrayLength buf >=? minLen then buf
  else buf ++ repeat 0%Q (Z.to_nat (minLen - arrayLength buf)).

Definition windowAt (audio : Float32Array) (offset : Z) : Window :=
  let end_ := Z.min (offset + WINDOW_SAMPLES) (arrayLength audio) in
  let slice_ := slice audio offset end_ in
  let windowData := padToMinLength slice_ MIN_WINDOW_SAMPLES in
  mkWindow windowData (inject_Z offset / inject_Z SAMPLE_RATE)%Q.

(** [while (offset < audio.length) { ... }]. *)
Fixpoint windowLoop (fuel : nat) (audio : Float32Array) (offset : Z)
  (windows : list Window) : list Window :=
  match fuel with
  | O => windows
  | S fuel' =>
      if offset <? arrayLength audio then
        let end_ := Z.min (offset + WINDOW_SAMPLES) (arrayLength audio) in
        let windows' := windows ++ [windowAt audio offset] in
        if end_ >=? arrayLength audio then windows'
        else windowLoop fuel' audio (offset + JUMP_SAMPLES) windows'
      else windows
  end.

(** [if (windows.length === 0 && audio.length > 0) windows.push(...)]. *)
Definition safetyNet (audio : Float32Array) (windows : list Window) : list Window :=
  if (Z.of_nat (length windows) =? 0) && (arrayLength audio >? 0)
  then windows ++ [mkWindow (padToMinLength (slice audio 0 (arrayLength audio))
                                            MIN_WINDOW_SAMPLES) 0%Q]
  else windows.

Definition buildWindows (audio : Float32Array) : list Window :=
  safetyNet audio (windowLoop (S (length audio)) audio 0 []).

(** The number of windows that the loop pushes from [offset] on, and the
    offsets (in samples) at which a waveform of [len] samples is cut. *)
Definition countFrom (len offset : Z) : Z :=
  if len <=? offset + WINDOW_SAMPLES then 1
  else ceilDiv (len - offset - WINDOW_SAMPLES) JUMP_SAMPLES + 1.

Definition offsetsFrom (offset : Z) (count : nat) : list Z :=
  List.map (fun k => offset + Z.of_nat k * JUMP_SAMPLES) (seq 0 count).

End Windows.

Import Windows.

(** ** The transcribe handler of the worker (worker.ts, lines 26-55, 98-121,
    213-232 and 321-493) *)

Module Protocol.

Inductive WorkerStatus : Type := Loading | Ready | Transcribing | ErrorStatus.
Inductive ProgressPhase : Type := Download | TranscribingPhase.
Inductive Device : Type := Webgpu | Wasm.

Record ProgressInfo : Type := mkProgress {
  phase : ProgressPhase;
  progress : Q;
  progressRequestId : option Z;
  processedChunks : option Z;
  totalChunks : option Z;
  currentSlice : option Z;
  totalSlices : option Z;
  loaded : option Z;
  total : option Z;
  file : option jsstring
}.

Inductive WorkerResponse : Type :=
| MsgStatus (status : WorkerStatus) (requestId : option Z)
            (detail : option jsstring) (device : option Device)
| MsgProgress (info : ProgressInfo)
| MsgPartial (text : jsstring) (requestId : Z)
| MsgSegments (requestId : Z) (text : jsstring) (segments : list TranscriptSegment)
| MsgResult (text : jsstring) (requestId : Z)
| MsgError (error : jsstring) (requestId : option Z).

End Protocol.

Import Protocol.

Definition mathMin (a b : Q) : Q := if Qle_bool a b then a else b.

(** [normalizeProgress]; [None] is a value that is not a number, or NaN. *)
Definition normalizeProgress (rawProgress : option Q) : Q :=
  match rawProgress with
  | None => 0%Q
  | Some raw =>
      let normalized := if Qle_bool raw 1 then Double.mul raw 100 else raw in
      mathMax 0 (mathMin 100 normalized)
  end.

(** A timestamp as the backend returns it: a finite number, or anything
    else ([null], NaN, an infinity, a missing entry). *)
Inductive TimestampValue : Type := TsNumber (q : Q) | TsOther.

Definition toSafeTimestamp (value : TimestampValue) (fallback : Q) : Q :=
  match value with
  | TsNumber q => mathMax 0 q
  | TsOther => fallback
  end.

(** One entry of [chunks]: [chunkText] is [None] when [chunk.text] is not a
    string, [chunkTimestamp] is [None] when [chunk.timestamp] is not an
    array. *)
Record RawChunk : Type := mkChunk {
  chunkText : option jsstring;
  chunkTimestamp : option (list TimestampValue)
}.

(** The value [normalized] of one backend call; [None] fields are absent. *)
Record RawResult : Type := mkResult {
  resultText : option jsstring;
  resultChunks : option (list RawChunk)
}.

(** What [await transcriber(win.data, ...)] does: it throws, or it returns a
    result ([None] when [normalized] is undefined). *)
Inductive Outcome : Type :=
| Threw (message : jsstring)
| Returned (normalized : option RawResult).

Record LoopState : Type := mkLoopState {
  accumulatedTexts : list jsstring;
  allSegments : list TranscriptSegment;
  posted : list WorkerResponse
}.

Definition postToMain (message : WorkerResponse) (st : LoopState) : LoopState :=
  mkLoopState (accumulatedTexts st) (allSegments st) (posted st ++ [message]).

(** The body of [for (const chunk of rawChunks)]. *)
Definition chunkSegment (win : Window) (chunk : RawChunk) : option TranscriptSegment :=
  let text := match chunkText chunk with Some t => trim t | None => [] end in
  match text with
  | [] => None
  | _ =>
      let ts := match chunkTimestamp chunk with
                | Some l => l
                | None => [TsNumber 0; TsNumber 0]
                end in
      let start := Double.add (toSafeTimestamp (nth 0 ts TsOther) 0) (offsetS win) in
      let end_ := Double.add (toSafeTimestamp (nth 1 ts TsOther)
                                              (toSafeTimestamp (nth 0 ts TsOther) 0))
                             (offsetS win) in
      Some (mkSegment text start end_)
  end.

Fixpoint collectSegments (win : Window) (rawChunks : list RawChunk)
  : list TranscriptSegment :=
  match rawChunks with
  | [] => []
  | chunk :: rest =>
      match chunkSegment win chunk with
      | Some segment => segment :: collectSegments win rest
      | None => collectSegments win rest
      end
  end.

(** The progress message posted after window [i]. *)
Definition windowProgress (requestId : Z) (processed totalWindows : Z)
  : WorkerResponse :=
  MsgProgress
    (mkProgress TranscribingPhase
       (normalizeProgress
          (Some (Double.mul (Double.div (inject_Z processed) (inject_Z totalWindows))
                            100)))
       (Some requestId) (Some processed) (Some totalWindows)
       (Some 1%Z) (Some 1%Z) None None None).

(** The argument of [onDownloadProgress]; absent fields are [None]. *)
Record DownloadProgressInfo : Type := mkDownloadInfo {
  downloadStatus : option jsstring;
  downloadProgress : option Q;
  downloadLoaded : option Z;
  downloadTotal : option Z;
  downloadFile : option jsstring
}.

(** [onDownloadProgress], as the list of the messages it posts. *)
Definition onDownloadProgress (info : DownloadProgressInfo) : list WorkerResponse :=
  if strictEq (downloadStatus info) (Some (lit "ready"))
  then [MsgStatus Loading None (Some (lit "compiling")) None]
  else
    [MsgStatus Loading None
       (Some match downloadStatus info with
             | Some status => status
             | None => lit "Loading model" ++ [8230%N]
             end)
       None;
     MsgProgress (mkProgress Download (normalizeProgress (downloadProgress info))
                    None None None None None
                    (downloadLoaded info) (downloadTotal info) (downloadFile info))].

(** The request id that a message bears, if any. *)
Definition requestIdOf (message : WorkerResponse) : option Z :=
  match message with
  | MsgStatus _ requestId _ _ => requestId
  | MsgProgress info => progressRequestId info
  | MsgPartial _ requestId => Some requestId
  | MsgSegments requestId _ _ => Some requestId
  | MsgResult _ requestId => Some requestId
  | MsgError _ requestId => requestId
  end.

(** What a posted message tells about the progress of the loop, and whether
    it reports a failure of the job. *)
Definition progressCount (message : WorkerResponse) : list (Z * Z) :=
  match message with
  | MsgProgress info =>
      match phase info, processedChunks info, totalChunks info with
      | TranscribingPhase, Some processed, Some total' => [(processed, total')]
      | _, _, _ => []
      end
  | _ => []
  end.

Definition progressCounts (messages : list WorkerResponse) : list (Z * Z) :=
  flat_map progressCount messages.

Definition isFailure (message : WorkerResponse) : bool :=
  match message with
  | MsgError _ _ => true
  | MsgStatus ErrorStatus _ _ _ => true
  | _ => false
  end.

Section TranscribeHandler.

Variable toLowerCase : jsstring -> jsstring.

(** The loaded pipeline: what the call for window [i] does.  The pipeline is
    a stateful object, so the outcome may depend on the call as well as on
    the samples. *)
Variable transcriber : nat -> Float32Array -> Outcome.

Variable requestId : Z.

(** The [try { ... } catch (windowError) { ... }] of one window. *)
Definition tryWindow (i : nat) (win : Window) (st : LoopState) : LoopState :=
  match transcriber i (data win) with
  | Threw _ => st
  | Returned normalized =>
      let rawChunks :=
        match normalized with
        | Some r => match resultChunks r with Some cs => cs | None => [] end
        | None => []
        end in
      let segments := allSegments st ++ collectSegments win rawChunks in
      let windowText :=
        normalizeWhitespace
          match normalized with
          | Some r => match resultText r with Some t => t | None => [] end
          | None => []
          end in
      match windowText with
      | [] => mkLoopState (accumulatedTexts st) segments (posted st)
      | _ =>
          let texts := accumulatedTexts st ++ [windowText] in
          mkLoopState texts segments
                      (posted st ++ [MsgPartial (join SPACE texts) requestId])
      end
  end.

(** One turn of [for (let i = 0; i < totalWindows; i++)]. *)
Definition processWindow (totalWindows : nat) (i : nat) (win : Window)
  (st : LoopState) : LoopState :=
  postToMain (windowProgress requestId (Z.of_nat i + 1) (Z.of_nat totalWindows))
             (tryWindow i win st).

(** The loop from index [i] on, [windows] being [windows[i..]]. *)
Fixpoint processWindows (totalWindows : nat) (i : nat) (windows : list Window)
  (st : LoopState) : LoopState :=
  match windows with
  | [] => st
  | win :: rest =>
      processWindows totalWindows (S i) rest (processWindow totalWindows i win st)
  end.

(** The handler from [postToMain({ type: "status", status: "transcribing" })]
    on, once [getTranscriber()] has resolved on [device]. *)
Definition transcribe (device : option Device) (audio : Float32Array)
  : list WorkerResponse :=
  let windows := buildWindows audio in
  let totalWindows := length windows in
  let st0 :=
    mkLoopState [] []
      [MsgStatus Transcribing (Some requestId) None device;
       MsgProgress (mkProgress TranscribingPhase 0%Q
                      (Some requestId) (Some 0%Z) (Some (Z.of_nat totalWindows))
                      (Some 1%Z) (Some 1%Z) None None None)] in
  let st := processWindows totalWindows 0 windows st0 in
  let segments := dedupeSegments toLowerCase (allSegments st) in
  let rawFullText :=
    collapseConsecutiveRepeatedNgrams (join SPACE (accumulatedTexts st)) in
  let segments :=
    match segments, rawFullText with
    | [], _ :: _ => [mkSegment rawFullText 0 0]
    | _, _ => segments
    end in
  let canonicalText :=
    match collapseConsecutiveRepeatedNgrams (join SPACE (List.map text segments)) with
    | [] => rawFullText
    | t => t
    end in
  posted st ++ [MsgSegments requestId canonicalText segments;
                MsgResult canonicalText requestId;
                MsgStatus Ready (Some requestId) None None].

End TranscribeHandler.

(** ** The page (app/page.tsx, lines 39-94, 103-105 and 225-800) *)

Module Page.

Inductive TranscriptionStatus : Type :=
  Idle | StatusLoading | Decoding | StatusTranscribing | StatusReady | StatusError.

(** The state that the progress display reads, and the ref
    [transcribeStartedAtRef]. *)
Record Gauges : Type := mkGauges {
  progress : Q;
  progressPhase : option ProgressPhase;
  processedChunks : option Z;
  totalChunks : option Z;
  etaSeconds : option Z;
  downloadedBytes : option Z;
  totalBytes : option Z;
  loadingDetail : option jsstring;
  currentSlice : option Z;
  totalSlices : option Z;
  transcribeStartedAt : option Z
}.

(** The state of [Home]: the ref [activeRequestIdRef], the React state that
    [handleWorkerMessage], [cancelTranscription] and [startTranscription]
    write, the flag [whisper_model_cached] of [localStorage]
    ([modelCachedFlag]) and whether [abortControllerRef] holds a controller.
    State that only the view reads (copy feedback, menus, view mode, the
    cancelling flag) is left out. *)
Record PageState : Type := mkPage {
  activeRequestId : Z;
  status : TranscriptionStatus;
  output : jsstring;
  segments : list TranscriptSegment;
  error : option jsstring;
  activeFileName : option jsstring;
  activeDevice : option Device;
  wasModelEverLoaded : bool;
  modelCachedFlag : bool;
  isViaCloud : bool;
  abortController : bool;
  gauges : Gauges
}.

(** [setX(v)] for each piece of state. *)
Definition setProgress (v : Q) (g : Gauges) : Gauges :=
  mkGauges v (progressPhase g) (processedChunks g) (totalChunks g) (etaSeconds g) (downloadedBytes g) (totalBytes g) (loadingDetail g) (currentSlice g) (totalSlices g) (transcribeStartedAt g).

Definition setProgressPhase (v : option ProgressPhase) (g : Gauges) : Gauges :=
  mkGauges (progress g) v (processedChunks g) (totalChunks g) (etaSeconds g) (downloadedBytes g) (totalBytes g) (loadingDetail g) (currentSlice g) (totalSlices g) (transcribeStartedAt g).

Definition setProcessedChunks (v : option Z) (g : Gauges) : Gauges :=
  mkGauges (progress g) (progressPhase g) v (totalChunks g) (etaSeconds g) (downloadedBytes g) (totalBytes g) (loadingDetail g) (currentSlice g) (totalSlices g) (transcribeStartedAt g).

Definition setTotalChunks (v : option Z) (g : Gauges) : Gauges :=
  mkGauges (progress g) (progressPhase g) (processedChunks g) v (etaSeconds g) (downloadedBytes g) (totalBytes g) (loadingDetail g) (currentSlice g) (totalSlices g) (transcribeStartedAt g).

Definition setEtaSeconds (v : option Z) (g : Gauges) : Gauges :=
  mkGauges (progress g) (progressPhase g) (processedChunks g) (totalChunks g) v (downloadedBytes g) (totalBytes g) (loadingDetail g) (currentSlice g) (totalSlices g) (transcribeStartedAt g).

Definition setDownloadedBytes (v : option Z) (g : Gauges) : Gauges :=
  mkGauges (progress g) (progressPhase g) (processedChunks g) (totalChunks g) (etaSeconds g) v (totalBytes g) (loadingDetail g) (currentSlice g) (totalSlices g) (transcribeStartedAt g).

Definition setTotalBytes (v : option Z) (g : Gauges) : Gauges :=
  mkGauges (progress g) (progressPhase g) (processedChunks g) (totalChunks g) (etaSeconds g) (downloadedBytes g) v (loadingDetail g) (currentSlice g) (totalSlices g) (transcribeStartedAt g).

Definition setLoadingDetail (v : option jsstring) (g : Gauges) : Gauges :=
  mkGauges (progress g) (progressPhase g) (processedChunks g) (totalChunks g) (etaSeconds g) (downloadedBytes g) (totalBytes g) v (currentSlice g) (totalSlices g) (transcribeStartedAt g).

Definition setCurrentSlice (v : option Z) (g : Gauges) : Gauges :=
  mkGauges (progress g) (progressPhase g) (processedChunks g) (totalChunks g) (etaSeconds g) (downloadedBytes g) (totalBytes g) (loadingDetail g) v (totalSlices g) (transcribeStartedAt g).

Definition setTotalSlices (v : option Z) (g : Gauges) : Gauges :=
  mkGauges (progress g) (progressPhase g) (processedChunks g) (totalChunks g) (etaSeconds g) (downloadedBytes g) (totalBytes g) (loadingDetail g) (currentSlice g) v (transcribeStartedAt g).

Definition setTranscribeStartedAt (v : option Z) (g : Gauges) : Gauges :=
  mkGauges (progress g) (progressPhase g) (processedChunks g) (totalChunks g) (etaSeconds g) (downloadedBytes g) (totalBytes g) (loadingDetail g) (currentSlice g) (totalSlices g) v.

Definition setActiveRequestId (v : Z) (st : PageState) : PageState :=
  mkPage v (status st) (output st) (segments st) (error st) (activeFileName st) (activeDevice st) (wasModelEverLoaded st) (modelCachedFlag st) (isViaCloud st) (abortController st) (gauges st).

Definition setStatus (v : TranscriptionStatus) (st : PageState) : PageState :=
  mkPage (activeRequestId st) v (output st) (segments st) (error st) (activeFileName st) (activeDevice st) (wasModelEverLoaded st) (modelCachedFlag st) (isViaCloud st) (abortController st) (gauges st).

Definition setOutput (v : jsstring) (st : PageState) : PageState :=
  mkPage (activeRequestId st) (status st) v (segments st) (error st) (activeFileName st) (activeDevice st) (wasModelEverLoaded st) (modelCachedFlag st) (isViaCloud st) (abortController st) (gauges st).

Definition setSegments (v : list TranscriptSegment) (st : PageState) : PageState :=
  mkPage (activeRequestId st) (status st) (output st) v (error st) (activeFileName st) (activeDevice st) (wasModelEverLoaded st) (modelCachedFlag st) (isViaCloud st) (abortController st) (gauges st).

Definition setError (v : option jsstring) (st : PageState) : PageState :=
  mkPage (activeRequestId st) (status st) (output st) (segments st) v (activeFileName st) (activeDevice st) (wasModelEverLoaded st) (modelCachedFlag st) (isViaCloud st) (abortController st) (gauges st).

Definition setActiveFileName (v : option jsstring) (st : PageState) : PageState :=
  mkPage (activeRequestId st) (status st) (output st) (segments st) (error st) v (activeDevice st) (wasModelEverLoaded st) (modelCachedFlag st) (isViaCloud st) (abortController st) (gauges st).

Definition setActiveDevice (v : option Device) (st : PageState) : PageState :=
  mkPage (activeRequestId st) (status st) (output st) (segments st) (error st) (activeFileName st) v (wasModelEverLoaded st) (modelCachedFlag st) (isViaCloud st) (abortController st) (gauges st).

Definition setWasModelEverLoaded (v : bool) (st : PageState) : PageState :=
  mkPage (activeRequestId st) (status st) (output st) (segments st) (error st) (activeFileName st) (activeDevice st) v (modelCachedFlag st) (isViaCloud st) (abortController st) (gauges st).

Definition setModelCachedFlag (v : bool) (st : PageState) : PageState :=
  mkPage (activeRequestId st) (status st) (output st) (segments st) (error st) (activeFileName st) (activeDevice st) (wasModelEverLoaded st) v (isViaCloud st) (abortController st) (gauges st).

Definition setIsViaCloud (v : bool) (st : PageState) : PageState :=
  mkPage (activeRequestId st) (status st) (output st) (segments st) (error st) (activeFileName st) (activeDevice st) (wasModelEverLoaded st) (modelCachedFlag st) v (abortController st) (gauges st).

Definition setAbortController (v : bool) (st : PageState) : PageState :=
  mkPage (activeRequestId st) (status st) (output st) (segments st) (error st) (activeFileName st) (activeDevice st) (wasModelEverLoaded st) (modelCachedFlag st) (isViaCloud st) v (gauges st).

Definition setGauges (v : Gauges) (st : PageState) : PageState :=
  mkPage (activeRequestId st) (status st) (output st) (segments st) (error st) (activeFileName st) (activeDevice st) (wasModelEverLoaded st) (modelCachedFlag st) (isViaCloud st) (abortController st) v.

Definition onGauges (f : Gauges -> Gauges) (st : PageState) : PageState :=
  setGauges (f (gauges st)) st.

Definition clampProgress (value : Q) : Q := mathMax 0 (mathMin 100 value).

Definition clearProgressState (st : PageState) : PageState :=
  onGauges (fun g =>
    setTranscribeStartedAt None
      (setTotalSlices None (setCurrentSlice None (setLoadingDetail None
        (setTotalBytes None (setDownloadedBytes None (setEtaSeconds None
          (setTotalChunks None (setProcessedChunks None (setProgressPhase None
            (setProgress 0%Q g))))))))))) st.

(** [if (message.detail) ...]: a string is truthy when it is not empty. *)
Definition truthy (detail : option jsstring) : bool :=
  match detail with
  | Some (_ :: _) => true
  | _ => false
  end.

Definition setDeviceIfAny (device : option Device) (st : PageState) : PageState :=
  match device with
  | Some d => setActiveDevice (Some d) st
  | None => st
  end.

(** The common tail of the branches that end a transcription. *)
Definition clearChunkGauges (g : Gauges) : Gauges :=
  setTranscribeStartedAt None
    (setEtaSeconds None (setTotalChunks None (setProcessedChunks None
      (setProgressPhase None g)))).

(** [typeof x === "number" && x !== activeRequestIdRef.current]. *)
Definition isStale (requestId : option Z) (st : PageState) : bool :=
  match requestId with
  | Some r => negb (r =? activeRequestId st)%Z
  | None => false
  end.

Definition handleStatus (status' : WorkerStatus) (detail : option jsstring)
  (device : option Device) (st : PageState) : PageState :=
  let st1 :=
    match status' with
    | Loading =>
        let st := setStatus StatusLoading st in
        let st := if truthy detail then onGauges (setLoadingDetail detail) st else st in
        setDeviceIfAny device st
    | Transcribing =>
        let st := setStatus StatusTranscribing st in
        let st := onGauges (fun g => setProgressPhase (Some TranscribingPhase)
                                       (setProgress 0%Q (setLoadingDetail None g))) st in
        setDeviceIfAny device st
    | Ready =>
        let st := setStatus StatusReady st in
        let st := onGauges (setLoadingDetail None) st in
        let st := setDeviceIfAny device st in
        let st := onGauges clearChunkGauges st in
        setModelCachedFlag true (setWasModelEverLoaded true st)
    | ErrorStatus =>
        clearProgressState (onGauges (setLoadingDetail None) (setStatus StatusError st))
    end in
  match status' with
  | ErrorStatus => if truthy detail then setError detail st1 else st1
  | _ => st1
  end.

(** The values that the two calls of [Date.now()] in the handler of a
    transcribing progress return: the first one is made when
    [transcribeStartedAtRef] holds no time yet, the second one when the
    estimate is computed.  No other branch of the handler reads the clock. *)
Record Clock : Type := mkClock {
  firstNow : Z;
  secondNow : Z
}.

(** The estimate of the remaining seconds; [now] is the value of
    [Date.now()] in [elapsedSeconds].  The difference of the two times is an
    integer and exact; the two quotients and the product are rounded. *)
Definition estimateRemaining (now startedAt processed total : Z) : Z :=
  let elapsedSeconds := Double.div (inject_Z (now - startedAt)) 1000 in
  let averageChunkSeconds := Double.div elapsedSeconds (inject_Z processed) in
  let remainingChunks := Z.max (total - processed) 0 in
  Qceiling (Double.mul averageChunkSeconds (inject_Z remainingChunks)).

Definition handleProgress (now : Clock) (info : ProgressInfo) (st : PageState)
  : PageState :=
  let st := onGauges (fun g => setProgress (clampProgress (Protocol.progress info))
                                 (setProgressPhase (Some (phase info)) g)) st in
  match phase info with
  | Download =>
      let st := setStatus StatusLoading st in
      let st := onGauges (fun g => setTranscribeStartedAt None
                  (setEtaSeconds None (setTotalChunks None
                    (setProcessedChunks None g)))) st in
      let st := match loaded info with
                | Some n => onGauges (setDownloadedBytes (Some n)) st
                | None => st
                end in
      match total info with
      | Some n => if (n >? 0)%Z then onGauges (setTotalBytes (Some n)) st else st
      | None => st
      end
  | TranscribingPhase =>
      let st := setStatus StatusTranscribing st in
      let st := onGauges (fun g => setTotalChunks (Protocol.totalChunks info)
                  (setProcessedChunks (Protocol.processedChunks info) g)) st in
      let st := match Protocol.currentSlice info with
                | Some n => onGauges (setCurrentSlice (Some n)) st
                | None => st
                end in
      let st := match Protocol.totalSlices info with
                | Some n => onGauges (setTotalSlices (Some n)) st
                | None => st
                end in
      let startedAt := match transcribeStartedAt (gauges st) with
                       | Some t => t
                       | None => firstNow now
                       end in
      let st := onGauges (setTranscribeStartedAt (Some startedAt)) st in
      match Protocol.processedChunks info, Protocol.totalChunks info with
      | Some processed, Some total =>
          if ((processed >? 0) && (total >=? processed))%Z
          then onGauges (setEtaSeconds
                           (Some (estimateRemaining (secondNow now) startedAt
                                                    processed total))) st
          else onGauges (setEtaSeconds None) st
      | _, _ => onGauges (setEtaSeconds None) st
      end
  end.

Definition handleWorkerMessage (now : Clock) (st : PageState) (message : WorkerResponse)
  : PageState :=
  match message with
  | MsgStatus status' requestId detail device =>
      if isStale requestId st then st else handleStatus status' detail device st
  | MsgProgress info =>
      match phase info with
      | TranscribingPhase =>
          if isStale (progressRequestId info) st then st
          else handleProgress now info st
      | Download => handleProgress now info st
      end
  | MsgPartial text requestId =>
      if negb (requestId =? activeRequestId st)%Z then st
      else setOutput text (setStatus StatusTranscribing st)
  | MsgSegments requestId text segments' =>
      if negb (requestId =? activeRequestId st)%Z then st
      else onGauges clearChunkGauges
             (setStatus StatusReady (setOutput text (setSegments segments' st)))
  | MsgResult text requestId =>
      if negb (requestId =? activeRequestId st)%Z then st
      else onGauges clearChunkGauges (setStatus StatusReady (setOutput text st))
  | MsgError error' requestId =>
      if isStale requestId st then st
      else clearProgressState (setError (Some error') (setStatus StatusError st))
  end.

(** [cancelTranscription], as far as it writes the state above.  The
    callback reads [status] and [isViaCloud] from the render that created it;
    the request id is in a ref and is always the current one. *)
Definition cancelTranscription (st : PageState) : PageState :=
  let isModelLoaded :=
    match status st with
    | StatusReady | StatusTranscribing | Decoding => true
    | _ => false
    end in
  let viaCloud := isViaCloud st in
  let st := setActiveRequestId (activeRequestId st + 1)%Z st in
  let st := clearProgressState (setError None st) in
  let st := if abortController st
            then setActiveFileName None (setStatus StatusReady
                   (setIsViaCloud false (setAbortController false st)))
            else st in
  if isModelLoaded && negb viaCloud
  then setActiveFileName None (setStatus StatusReady st)
  else setStatus Idle st.

(** What [startTranscription] reads of its argument: [file.name] and
    [file.size]. *)
Record File : Type := mkFile {
  fileName : jsstring;
  fileSize : Z
}.

Definition MAX_FILE_SIZE : Z := 25 * 1024 * 1024.

(** The synchronous part of [startTranscription(file)]: up to the first
    [await].  [isMobile] and whether [workerRef] holds a worker are inputs.
    On the cloud path ([isMobile]) the first [await] is that of [fetch] in
    the first turn of the loop over the one chunk of a file of at most
    25 MB, and that of [decodeAudioFile] for a larger file; what the
    function does after it (the answers of the cloud, the end of the
    decoding) is not part of this state machine.  The controller just
    created is not aborted, so the check at the head of the loop passes;
    [(0 / 1) * 100] is [0]. *)
Definition startTranscription (isMobile workerAvailable : bool) (file : File)
  (st : PageState) : PageState :=
  let st := match status st with
            | StatusTranscribing | Decoding => cancelTranscription st
            | _ => st
            end in
  if negb isMobile && negb workerAvailable
  then setError (Some (lit "Transcription worker is not available."))
         (setStatus StatusError st)
  else
    let requestId := (activeRequestId st + 1)%Z in
    let st := setActiveRequestId requestId st in
    let st := clearProgressState
                (setError None (setSegments [] (setOutput []
                   (setActiveFileName (Some (fileName file)) st)))) in
    if isMobile
    then
      let st := setAbortController true
                  (onGauges (fun g => setProgress 0%Q
                               (setLoadingDetail (Some (lit "Uploading to Cloud..."))
                                  (setProgressPhase (Some TranscribingPhase) g)))
                     (setStatus StatusTranscribing (setIsViaCloud true st))) in
      if (fileSize file <=? MAX_FILE_SIZE)%Z
      then onGauges (fun g => setProgress 0%Q
                      (setProcessedChunks (Some 0%Z)
                         (setLoadingDetail (Some (lit "Uploading chunk 1 of 1..."))
                            (setTotalChunks (Some 1%Z) g)))) st
      else setStatus Decoding
             (onGauges (setLoadingDetail
                          (Some (lit "File too large, chunking audio locally...")))
                       st)
    else setStatus Decoding st.

(** What can happen to the page, one after the other. *)
Inductive PageEvent : Type :=
| Deliver (now : Clock) (message : WorkerResponse)
| Cancel
| Start (isMobile workerAvailable : bool) (file : File).

Definition react (st : PageState) (e : PageEvent) : PageState :=
  match e with
  | Deliver now message => handleWorkerMessage now st message
  | Cancel => cancelTranscription st
  | Start isMobile workerAvailable file =>
      startTranscription isMobile workerAvailable file st
  end.

Definition run (events : list PageEvent) (st : PageState) : PageState :=
  fold_left react events st.

(** The events that the handler checks against the active request:
    [carries m r] when [m] is one of them and bears the request id [r]. *)
Definition carries (message : WorkerResponse) (r : Z) : Prop :=
  match message with
  | MsgStatus _ requestId _ _ => requestId = Some r
  | MsgProgress info => phase info = TranscribingPhase /\ progressRequestId info = Some r
  | MsgPartial _ requestId => requestId = r
  | MsgSegments requestId _ _ => requestId = r
  | MsgResult _ requestId => requestId = r
  | MsgError _ requestId => requestId = Some r
  end.

End Page.

(** ** Vocabulary for the properties of the windows *)

(** The waveform that a list of windows stands for: of every window but the
    last only the samples before the next window starts are kept. *)
Fixpoint stitch (windows : list Window) : Float32Array :=
  match windows with
  | [] => []
  | win :: rest =>
      match rest with
      | [] => data win
      | _ => firstn (Z.to_nat JUMP_SAMPLES) (data win) ++ stitch rest
      end
  end.

(** ** Vocabulary for the properties of the job *)

(** A message that the loop over the windows posts: a partial text or a
    progress. *)
Definition isInterim (message : WorkerResponse) : bool :=
  match message with
  | MsgPartial _ _ | MsgProgress _ => true
  | _ => false
  end.

(** The field [progress] of a progress message. *)
Definition progressValue (message : WorkerResponse) : option Q :=
  match message with
  | MsgProgress info => Some (Protocol.progress info)
  | _ => None
  end.

(** ** Vocabulary for the properties of the page *)

(** Is the message one of the three that write the transcript, bearing the
    request id [active]? *)
Definition writesTranscript (active : Z) (message : WorkerResponse) : bool :=
  match message with
  | MsgPartial _ requestId => (requestId =? active)%Z
  | MsgSegments requestId _ _ => (requestId =? active)%Z
  | MsgResult _ requestId => (requestId =? active)%Z
  | _ => false
  end.

(** The deliveries of a list of messages, each at its time. *)
Definition deliveries (messages : list (Page.Clock * WorkerResponse))
  : list Page.PageEvent :=
  List.map (fun tm => Page.Deliver (fst tm) (snd tm)) messages.

(** ** Loading the pipeline (worker.ts, lines 86-90 and 234-317)

    [getTranscriber] is asynchronous: a call that finds no promise starts
    the build and, like every other call, then waits for the promise.  The
    calls of [getTranscriber] and the settling of the [pipeline(...)] promise
    are the events; the continuations of the waiting calls run one after the
    other as soon as the promise settles, before any other event. *)

Module Loader.

(** [transcriberPromise], when it is not [null]: still building on a device,
    or fulfilled. *)
Inductive PromiseState : Type :=
| Pending (device : Device)
| Fulfilled.

(** The module state of the worker ([transcriberPromise], [activeDevice]),
    the number of calls waiting for the promise, the messages posted, and
    two counters of the model: the calls of [pipeline(...)] made, and how
    many of them have settled. *)
Record LoaderState : Type := mkLoader {
  transcriberPromise : option PromiseState;
  activeDevice : option Device;
  waiting : nat;
  posted : list WorkerResponse;
  pipelineCalls : list Device;
  pipelineSettled : nat
}.

Definition initial : LoaderState := mkLoader None None 0 [] [] 0.

Definition ELLIPSIS : codeunit := 8230%N.
Definition EM_DASH : codeunit := 8212%N.

(** [device.toUpperCase()]. *)
Definition deviceName (device : Device) : jsstring :=
  match device with
  | Webgpu => lit "WEBGPU"
  | Wasm => lit "WASM"
  end.

Definition post (messages : list WorkerResponse) (st : LoaderState) : LoaderState :=
  mkLoader (transcriberPromise st) (activeDevice st) (waiting st)
           (posted st ++ messages) (pipelineCalls st) (pipelineSettled st).

(** [buildPipeline(device)] up to its call of [pipeline(...)]. *)
Definition buildPipeline (device : Device) (st : LoaderState) : LoaderState :=
  mkLoader (Some (Pending device)) (activeDevice st) (waiting st)
           (posted st
            ++ [MsgStatus Loading None
                  (Some (lit "Initialising model on " ++ deviceName device ++ [ELLIPSIS]))
                  None])
           (pipelineCalls st ++ [device]) (pipelineSettled st).

(** The message of a call whose [await transcriberPromise] succeeds. *)
Definition readyMessage (device : option Device) : WorkerResponse :=
  MsgStatus Ready None
    (Some (lit "Model ready ("
           ++ match device with Some d => deviceName d | None => lit "unknown" end
           ++ lit ")."))
    device.

(** The two messages of a call whose [await transcriberPromise] throws. *)
Definition failureMessages (msg : jsstring) : list WorkerResponse :=
  [MsgStatus ErrorStatus None (Some msg) None; MsgError msg None].

Fixpoint copies {A : Type} (n : nat) (l : list A) : list A :=
  match n with
  | O => []
  | S n' => l ++ copies n' l
  end.

(** A call of [getTranscriber()], up to its [await]. *)
Definition request (st : LoaderState) : LoaderState :=
  match transcriberPromise st with
  | None =>
      let st := post [MsgStatus Loading None
                        (Some (lit "Initialising model" ++ [ELLIPSIS])) None] st in
      let st := buildPipeline Webgpu st in
      mkLoader (transcriberPromise st) (activeDevice st) (S (waiting st))
               (posted st) (pipelineCalls st) (pipelineSettled st)
  | Some (Pending _) =>
      mkLoader (transcriberPromise st) (activeDevice st) (S (waiting st))
               (posted st) (pipelineCalls st) (pipelineSettled st)
  | Some Fulfilled => post [readyMessage (activeDevice st)] st
  end.

(** The promise of [pipeline(...)] settles: [failure] is [None] when it is
    fulfilled, and the message of the error when it is rejected. *)
Definition settle (failure : option jsstring) (st : LoaderState) : LoaderState :=
  match transcriberPromise st with
  | Some (Pending device) =>
      match failure, device with
      | None, _ =>
          mkLoader (Some Fulfilled) (Some device) 0
                   (posted st ++ copies (waiting st) [readyMessage (Some device)])
                   (pipelineCalls st) (S (pipelineSettled st))
      | Some _, Webgpu =>
          let st := post [MsgStatus Loading None
                            (Some (lit "WebGPU not available " ++ [EM_DASH]
                                   ++ lit " falling back to WASM" ++ [ELLIPSIS]))
                            None] st in
          let st := buildPipeline Wasm st in
          mkLoader (transcriberPromise st) (activeDevice st) (waiting st)
                   (posted st) (pipelineCalls st) (S (pipelineSettled st))
      | Some msg, Wasm =>
          mkLoader None None 0
                   (posted st ++ copies (waiting st) (failureMessages msg))
                   (pipelineCalls st) (S (pipelineSettled st))
      end
  | _ => st
  end.

Inductive LoaderEvent : Type :=
| Requested
| Settled (failure : option jsstring).

Definition step (st : LoaderState) (e : LoaderEvent) : LoaderState :=
  match e with
  | Requested => request st
  | Settled failure => settle failure st
  end.

Definition run (events : list LoaderEvent) (st : LoaderState) : LoaderState :=
  fold_left step events st.

(** The builds in flight, and the answers given to calls so far: a ready
    status, or the error message that ends a failure. *)
Definition inFlight (st : LoaderState) : nat :=
  match transcriberPromise st with
  | Some (Pending _) => 1
  | _ => 0
  end.

Definition isAnswer (message : WorkerResponse) : bool :=
  match message with
  | MsgStatus Ready _ _ _ => true
  | MsgError _ _ => true
  | _ => false
  end.

Definition answers (st : LoaderState) : nat :=
  length (filter isAnswer (posted st)).

Definition requests (events : list LoaderEvent) : nat :=
  length (filter (fun e => match e with Requested => true | _ => false end) events).

(** The invariant of the loader. *)
Definition consistent (st : LoaderState) : Prop :=
  length (pipelineCalls st) = pipelineSettled st + inFlight st
  /\ (inFlight st = 0 -> waiting st = 0)
  /\ (transcriberPromise st = Some Fulfilled <-> activeDevice st <> None)
  /\ (transcriberPromise st = None -> activeDevice st = None).

End Loader.

(** ** WAV encoding on the page (page.tsx, lines 171-202)

    An [ArrayBuffer] is the list of its bytes.  A [DataView] setter throws a
    [RangeError] when the bytes it writes do not lie inside the buffer: the
    setters return [None] then.  Samples are finite numbers, and the sample
    rate is an integer, as at the one call of [encodeWAV]. *)

Module Wav.

Local Open Scope Z_scope.

Definition ArrayBuffer := list Z.

Definition newArrayBuffer (byteLength : Z) : ArrayBuffer :=
  repeat 0 (Z.to_nat byteLength).

Definition writeAt (offset : Z) (bytes : list Z) (view : ArrayBuffer)
  : option ArrayBuffer :=
  if (0 <=? offset) && (offset + Z.of_nat (length bytes) <=? Z.of_nat (length view))
  then Some (firstn (Z.to_nat offset) view ++ bytes
             ++ skipn (Z.to_nat offset + length bytes) view)
  else None.

(** The bytes of an integer, least significant first ([littleEndian] is
    [true] at every call); the integer is taken modulo 2^16 or 2^32, so that
    a negative one is written in two's complement. *)
Definition bytes16 (value : Z) : list Z :=
  [value mod 256; (value / 256) mod 256].

Definition bytes32 (value : Z) : list Z :=
  [value mod 256; (value / 256) mod 256;
   (value / 65536) mod 256; (value / 16777216) mod 256].

Definition setUint8 (offset value : Z) (view : ArrayBuffer) : option ArrayBuffer :=
  writeAt offset [value mod 256] view.

Definition setUint16 (offset value : Z) (view : ArrayBuffer) : option ArrayBuffer :=
  writeAt offset (bytes16 value) view.

Definition setUint32 (offset value : Z) (view : ArrayBuffer) : option ArrayBuffer :=
  writeAt offset (bytes32 value) view.

(** The conversion of a number to an integer drops its fraction. *)
Definition truncate (x : Q) : Z :=
  if Qle_bool 0 x then Qfloor x else Qceiling x.

Definition setInt16 (offset : Z) (value : Q) (view : ArrayBuffer) : option ArrayBuffer :=
  writeAt offset (bytes16 (truncate value)) view.

Definition bind {A B : Type} (x : option A) (f : A -> option B) : option B :=
  match x with
  | Some a => f a
  | None => None
  end.

Local Notation "x <- e ;; k" := (bind e (fun x => k))
  (at level 61, e at next level, right associativity).

(** [writeString(view, offset, string)]. *)
Fixpoint writeString (offset : Z) (s : jsstring) (view : ArrayBuffer)
  : option ArrayBuffer :=
  match s with
  | [] => Some view
  | c :: rest =>
      view <- setUint8 offset (Z.of_N c) view ;;
      writeString (offset + 1) rest view
  end.

(** [s < 0 ? s * 0x8000 : s * 0x7fff] for the clamped sample [s]. *)
Definition scaled (sample : Q) : Q :=
  let s := mathMax (-1) (mathMin 1 sample) in
  if Qle_bool 0 s then (s * 32767)%Q else (s * 32768)%Q.

(** The loop over the samples. *)
Fixpoint sampleLoop (samples : Float32Array) (offset : Z) (view : ArrayBuffer)
  : option ArrayBuffer :=
  match samples with
  | [] => Some view
  | sample :: rest =>
      view <- setInt16 offset (scaled sample) view ;;
      sampleLoop rest (offset + 2) view
  end.

Definition encodeWAV (samples : Float32Array) (sampleRate : Z) : option ArrayBuffer :=
  let view := newArrayBuffer (44 + arrayLength samples * 2) in
  view <- writeString 0 (lit "RIFF") view ;;
  view <- setUint32 4 (36 + arrayLength samples * 2) view ;;
  view <- writeString 8 (lit "WAVE") view ;;
  view <- writeString 12 (lit "fmt ") view ;;
  view <- setUint32 16 16 view ;;
  view <- setUint16 20 1 view ;;
  view <- setUint16 22 1 view ;;
  view <- setUint32 24 sampleRate view ;;
  view <- setUint32 28 (sampleRate * 2) view ;;
  view <- setUint16 32 2 view ;;
  view <- setUint16 34 16 view ;;
  view <- writeString 36 (lit "data") view ;;
  view <- setUint32 40 (arrayLength samples * 2) view ;;
  sampleLoop samples 44 view.

(** Reading the file back, as a decoder does: [getUint32] and [getInt16] of
    a [DataView], little endian. *)
Definition byteAt (view : ArrayBuffer) (offset : Z) : option Z :=
  if 0 <=? offset then nth_error view (Z.to_nat offset) else None.

Definition getUint32 (offset : Z) (view : ArrayBuffer) : option Z :=
  b0 <- byteAt view offset ;;
  b1 <- byteAt view (offset + 1) ;;
  b2 <- byteAt view (offset + 2) ;;
  b3 <- byteAt view (offset + 3) ;;
  Some (b0 + 256 * b1 + 65536 * b2 + 16777216 * b3).

Definition getInt16 (offset : Z) (view : ArrayBuffer) : option Z :=
  b0 <- byteAt view offset ;;
  b1 <- byteAt view (offset + 1) ;;
  let u := b0 + 256 * b1 in
  Some (if u <? 32768 then u else u - 65536).

(** The integer stored for a sample, and the layout of the file. *)
Definition pcm16 (sample : Q) : Z := truncate (scaled sample).

Definition ascii4 (s : string) : list Z := List.map Z.of_N (lit s).
Arguments ascii4 s%_string.

Definition header (sampleCount sampleRate : Z) : list Z :=
  ascii4 "RIFF" ++ bytes32 (36 + sampleCount * 2)
  ++ ascii4 "WAVE"
  ++ ascii4 "fmt " ++ bytes32 16
  ++ bytes16 1 ++ bytes16 1 ++ bytes32 sampleRate ++ bytes32 (sampleRate * 2)
  ++ bytes16 2 ++ bytes16 16
  ++ ascii4 "data" ++ bytes32 (sampleCount * 2).

Definition layout (samples : Float32Array) (sampleRate : Z) : list Z :=
  header (arrayLength samples) sampleRate
  ++ flat_map (fun sample => bytes16 (pcm16 sample)) samples.

End Wav.

(** ** The cloud path of the page (page.tsx, lines 689-763) *)

Module Cloud.

Local Open Scope Z_scope.

Definition CHUNK_DURATION_S : Z := 10 * 60.
Definition SAMPLES_PER_CHUNK : Z := CHUNK_DURATION_S * 16000.

(** An entry of [chunksToProcess]: the samples of the chunk, of which the
    blob is the WAV encoding, and its offset in seconds. *)
Record Chunk : Type := mkChunk {
  chunkData : Float32Array;
  chunkOffsetS : Q
}.

Definition blob (chunk : Chunk) : option Wav.ArrayBuffer :=
  Wav.encodeWAV (chunkData chunk) 16000.

Definition chunkAt (audioData : Float32Array) (i : Z) : Chunk :=
  mkChunk (slice audioData i (i + SAMPLES_PER_CHUNK))
          (inject_Z i / inject_Z 16000)%Q.

(** [for (let i = 0; i < audioData.length; i += SAMPLES_PER_CHUNK)]. *)
Fixpoint chunkLoop (fuel : nat) (audioData : Float32Array) (i : Z)
  (chunksToProcess : list Chunk) : list Chunk :=
  match fuel with
  | O => chunksToProcess
  | S fuel' =>
      if i <? arrayLength audioData
      then chunkLoop fuel' audioData (i + SAMPLES_PER_CHUNK)
                     (chunksToProcess ++ [chunkAt audioData i])
      else chunksToProcess
  end.

Definition localChunks (audioData : Float32Array) : list Chunk :=
  chunkLoop (S (length audioData)) audioData 0 [].

(** The answer of [/api/transcribe] for one chunk: [resultText] is [None]
    when [result.text] is missing, [resultSegments] when [result.segments]
    is. *)
Record CloudResult : Type := mkCloudResult {
  resultText : option jsstring;
  resultSegments : option (list TranscriptSegment)
}.

(** [(result.text || "").trim()]. *)
Definition textOf (result : CloudResult) : jsstring :=
  trim (match resultText result with Some t => t | None => [] end).

(** The body of the loop over the chunks, after a successful answer. *)
Definition accumulate (acc : jsstring * list TranscriptSegment)
  (answer : CloudResult * Q) : jsstring * list TranscriptSegment :=
  let '(combinedText, combinedSegments) := acc in
  let '(result, offsetS) := answer in
  (combinedText
   ++ (match combinedText with [] => [] | _ :: _ => [SPACE] end)
   ++ textOf result,
   combinedSegments
   ++ match resultSegments result with
      | Some segs =>
          List.map (fun seg => mkSegment (text seg)
                                         (Double.add (start seg) offsetS)
                                         (Double.add (end_ seg) offsetS)) segs
      | None => []
      end).

Definition combine (answers : list (CloudResult * Q))
  : jsstring * list TranscriptSegment :=
  fold_left accumulate answers ([], []).

Fixpoint dropEmpty (texts : list jsstring) : list jsstring :=
  match texts with
  | [] :: rest => dropEmpty rest
  | _ => texts
  end.

End Cloud.

(** ** The audio time of the progress label (page.tsx, lines 939-944)

    [processedChunks] and [totalChunks] are integers, which [Math.round]
    leaves as they are. *)

Module Label.

Local Open Scope Z_scope.

Definition processedAudioSec (processedChunks : Z) : Z := processedChunks * 20.

Definition totalAudioSec (totalChunks : Z) : Z := (totalChunks - 1) * 20 + 30.

End Label.

(** ** Accepted files (upload-dropzone.tsx, lines 12-22) *)

Module Dropzone.

Definition DOT : codeunit := 46%N.

Definition ACCEPTED_AUDIO_EXTENSIONS : list jsstring :=
  [lit "mp3"; lit "wav"; lit "m4a"; lit "mp4"; lit "ogg"; lit "flac";
   lit "aac"; lit "webm"; lit "opus"].

(** [parts.pop()]: the last element, [undefined] for an empty array. *)
Fixpoint pop (parts : list jsstring) : option jsstring :=
  match parts with
  | [] => None
  | [part] => Some part
  | _ :: rest => pop rest
  end.

(** [array.includes(x)] on strings. *)
Definition arrayIncludes (array : list jsstring) (x : jsstring) : bool :=
  existsb (eqb x) array.

Section Accepted.

Variable toLowerCase : jsstring -> jsstring.

Definition isAcceptedAudioFile (name : jsstring) : bool :=
  match option_map toLowerCase (pop (split DOT name)) with
  | Some extension => arrayIncludes ACCEPTED_AUDIO_EXTENSIONS extension
  | None => false
  end.

End Accepted.

End Dropzone.

(** ** Timestamps and exports of the page (page.tsx, lines 215-228 and
    814-831) *)

Module Exports.

Local Open Scope Z_scope.

Definition COLON : codeunit := 58%N.
Definition ZERO : codeunit := 48%N.
Definition NEWLINE : codeunit := 10%N.
Definition LBRACKET : codeunit := 91%N.
Definition RBRACKET : codeunit := 93%N.

(** [String(n)] for an integer [0 <= n < 10^21]: its decimal digits, without
    leading zeros.  The fuel bounds the number of digits. *)
Fixpoint digitsOf (fuel : nat) (n : Z) : jsstring :=
  match fuel with
  | O => []
  | S fuel' =>
      if n <? 10 then [Z.to_N (48 + n)]
      else digitsOf fuel' (n / 10) ++ [Z.to_N (48 + n mod 10)]
  end.

Definition numberToString (n : Z) : jsstring :=
  digitsOf (S (Z.to_nat (Z.log2 n))) n.

(** [s.padStart(targetLength, pad)] for a pad string of one unit. *)
Definition padStart (targetLength : nat) (pad : codeunit) (s : jsstring) : jsstring :=
  repeat pad (targetLength - length s) ++ s.

Definition formatSegmentTimestamp (seconds : Q) : jsstring :=
  let safeSeconds := Z.max 0 (Qfloor seconds) in
  let hours := safeSeconds / 3600 in
  let minutes := (safeSeconds mod 3600) / 60 in
  let secs := safeSeconds mod 60 in
  let paddedMinutes := padStart 2 ZERO (numberToString minutes) in
  let paddedSeconds := padStart 2 ZERO (numberToString secs) in
  if hours >? 0
  then padStart 2 ZERO (numberToString hours)
       ++ [COLON] ++ paddedMinutes ++ [COLON] ++ paddedSeconds
  else paddedMinutes ++ [COLON] ++ paddedSeconds.

(** [`[${formatSegmentTimestamp(segment.start)}] ${segment.text}`]. *)
Definition exportLine (segment : TranscriptSegment) : jsstring :=
  [LBRACKET] ++ formatSegmentTimestamp (start segment)
  ++ [RBRACKET; SPACE] ++ text segment.

(** [.filter(Boolean)] on strings. *)
Definition nonEmpty (s : jsstring) : bool :=
  match s with
  | [] => false
  | _ :: _ => true
  end.

Definition plainTextExport (output : jsstring) (segments : list TranscriptSegment)
  : jsstring :=
  match segments with
  | [] => trim output
  | _ :: _ =>
      join SPACE (filter nonEmpty (List.map (fun segment => trim (text segment)) segments))
  end.

Definition timestampedExport (output : jsstring) (segments : list TranscriptSegment)
  : jsstring :=
  match segments with
  | [] => trim output
  | _ :: _ => join NEWLINE (List.map exportLine segments)
  end.

(** Reading a label back: the value of a run of decimal digits, and the
    number of seconds that colon-separated fields stand for. *)
Definition decimalValue (s : jsstring) : Z :=
  fold_left (fun acc c => 10 * acc + (Z.of_N c - 48)) s 0.


Definition isDigit (c : codeunit) : Prop := (48 <= c <= 57)%N.

End Exports.

(** * Properties *)

(** ** Rounding to the nearest double *)

Section DoubleFacts.

Import Double.
Local Open Scope Q_scope.

Lemma pow2_pos (k : Z) : 0 < pow2 k.
Proof. apply Qpower_0_lt. reflexivity. Qed.

Lemma pow2_add (a b : Z) : pow2 (a + b) == pow2 a * pow2 b.
Proof. apply Qpower_plus. discriminate. Qed.

Lemma pow2_Z (k : Z) : (0 <= k)%Z -> pow2 k == inject_Z (2 ^ k).
Proof. intros H. symmetry. apply (Zpower_Qpower 2 k H). Qed.

Lemma pow2_le (a b : Z) : (a <= b)%Z -> pow2 a <= pow2 b.
Proof. intros H. apply Qpower_le_compat_l; [exact H|discriminate]. Qed.

Lemma pow2_lt_inv (a b : Z) : pow2 a < pow2 b -> (a < b)%Z.
Proof. intros H. apply (Qpower_lt_compat_l_inv 2); [exact H|reflexivity]. Qed.

Lemma pow2_cancel (a b : Z) : pow2 (a - b) * pow2 b == pow2 a.
Proof. rewrite <- pow2_add. now replace (a - b + b)%Z with a by lia. Qed.

Lemma floorLog2_spec (a : Q) :
  0 < a -> pow2 (floorLog2 a) <= a /\ a < pow2 (floorLog2 a + 1).
Proof.
  intros Ha. unfold floorLog2. destruct (Qle_bool 1 a) eqn:E.
  - apply Qle_bool_iff in E.
    assert (Hf : (1 <= Qfloor a)%Z) by (apply (Qfloor_resp_le 1 a E)).
    destruct (Z.log2_spec (Qfloor a)) as [L U]; [lia|].
    pose proof (Z.log2_nonneg (Qfloor a)) as Hn.
    split.
    + rewrite pow2_Z by lia.
      apply Qle_trans with (inject_Z (Qfloor a)); [|apply Qfloor_le].
      rewrite <- Zle_Qle. exact L.
    + rewrite pow2_Z by lia.
      apply Qlt_le_trans with (inject_Z (Qfloor a + 1)); [apply Qlt_floor|].
      rewrite <- Zle_Qle. lia.
  - assert (Hlt : a < 1).
    { apply Qnot_le_lt. intros H. apply Qle_bool_iff in H. congruence. }
    assert (Hone : a * / a == 1) by (apply Qmult_inv_r; lra).
    assert (Hinv : 1 < / a) by (apply Qlt_shift_inv_l; lra).
    set (c := Qceiling (/ a)).
    assert (Hc : (1 < c)%Z).
    { rewrite Zlt_Qlt. apply Qlt_le_trans with (/ a); [exact Hinv|apply Qle_ceiling]. }
    destruct (Z.log2_up_spec c Hc) as [L U].
    pose proof (Z.log2_up_pos c Hc) as Hu.
    set (u := Z.log2_up c) in *.
    split.
    + unfold pow2. rewrite Qpower_opp. fold (pow2 u).
      apply Qle_shift_inv_r; [apply pow2_pos|].
      assert (Hle : / a <= pow2 u).
      { rewrite pow2_Z by lia.
        apply Qle_trans with (inject_Z c); [apply Qle_ceiling|].
        rewrite <- Zle_Qle. exact U. }
      rewrite <- Hone. apply Qmult_le_l; assumption.
    + replace (- u + 1)%Z with (- (u - 1))%Z by lia.
      unfold pow2. rewrite Qpower_opp. fold (pow2 (u - 1)).
      apply Qlt_shift_inv_l; [apply pow2_pos|].
      assert (Hlt' : pow2 (u - 1) < / a).
      { rewrite pow2_Z by lia.
        apply Qle_lt_trans with (inject_Z (c - 1)); [|apply Qceiling_lt].
        rewrite <- Zle_Qle. unfold Z.pred in L.
        replace (u + -1)%Z with (u - 1)%Z in L by lia. lia. }
      rewrite <- Hone. apply Qmult_lt_l; assumption.
Qed.

Lemma floorLog2_le (a b : Q) :
  0 < a -> a <= b -> (floorLog2 a <= floorLog2 b)%Z.
Proof.
  intros Ha Hab.
  destruct (floorLog2_spec a Ha) as [La _].
  destruct (floorLog2_spec b) as [_ Ub]; [lra|].
  assert (H : pow2 (floorLog2 a) < pow2 (floorLog2 b + 1)) by lra.
  apply pow2_lt_inv in H. lia.
Qed.

Lemma nearestEven_bounds (y : Q) :
  (Qfloor y <= nearestEven y <= Qfloor y + 1)%Z.
Proof.
  unfold nearestEven.
  destruct (Qcompare _ _); [destruct (Z.even _)| |]; lia.
Qed.

Lemma nearestEven_ge (k : Z) (y : Q) : inject_Z k <= y -> (k <= nearestEven y)%Z.
Proof.
  intros H. apply Qfloor_resp_le in H. rewrite Qfloor_Z in H.
  pose proof (nearestEven_bounds y). lia.
Qed.

Lemma nearestEven_le (k : Z) (y : Q) : y <= inject_Z k -> (nearestEven y <= k)%Z.
Proof.
  intros H. pose proof (nearestEven_bounds y) as B.
  pose proof (Qfloor_resp_le _ _ H) as F. rewrite Qfloor_Z in F.
  destruct (Z.eq_dec (Qfloor y) k) as [E|E]; [|lia].
  unfold nearestEven. pose proof (Qfloor_le y) as Hl. rewrite E in *.
  destruct (Qcompare_spec (y - inject_Z k) (1 # 2)) as [H1|H1|H1];
    [exfalso; lra|lia|exfalso; lra].
Qed.

Lemma nearestEven_mono (y1 y2 : Q) :
  y1 <= y2 -> (nearestEven y1 <= nearestEven y2)%Z.
Proof.
  intros H. pose proof (Qfloor_resp_le _ _ H) as F.
  pose proof (nearestEven_bounds y1) as B1.
  pose proof (nearestEven_bounds y2) as B2.
  destruct (Z.eq_dec (Qfloor y1) (Qfloor y2)) as [E|E]; [|lia].
  unfold nearestEven. rewrite E.
  destruct (Qcompare_spec (y1 - inject_Z (Qfloor y2)) (1 # 2)) as [H1|H1|H1];
    destruct (Qcompare_spec (y2 - inject_Z (Qfloor y2)) (1 # 2)) as [H2|H2|H2];
    try (destruct (Z.even (Qfloor y2))); try lia; exfalso; lra.
Qed.

Lemma roundPos_nonneg (a : Q) : 0 < a -> 0 <= roundPos a.
Proof.
  intros Ha. unfold roundPos. pose proof (pow2_pos (quantum a)) as Hp.
  apply Qmult_le_0_compat; [|lra].
  change 0 with (inject_Z 0). rewrite <- Zle_Qle. apply nearestEven_ge.
  change (inject_Z 0) with 0. apply Qmult_le_0_compat; [lra|].
  apply Qinv_le_0_compat. lra.
Qed.

Lemma roundPos_mono (a b : Q) : 0 < a -> a <= b -> roundPos a <= roundPos b.
Proof.
  intros Ha Hab.
  assert (Hb : 0 < b) by lra.
  pose proof (floorLog2_le a b Ha Hab) as He.
  destruct (floorLog2_spec a Ha) as [_ Ua].
  destruct (floorLog2_spec b Hb) as [Lb _].
  unfold roundPos, quantum in *.
  set (ea := floorLog2 a) in *. set (eb := floorLog2 b) in *.
  set (qa := Z.max (ea - 52) (-1074)). set (qb := Z.max (eb - 52) (-1074)).
  pose proof (pow2_pos qa) as Pa. pose proof (pow2_pos qb) as Pb.
  destruct (Z.eq_dec qa qb) as [E|E].
  - rewrite E. apply Qmult_le_compat_r; [|lra].
    rewrite <- Zle_Qle. apply nearestEven_mono.
    apply Qmult_le_compat_r; [exact Hab|]. apply Qinv_le_0_compat. lra.
  - assert (Hq : (qa < qb)%Z) by (unfold qa, qb in *; lia).
    assert (Hqb : qb = (eb - 52)%Z) by (unfold qa, qb in *; lia).
    assert (Hea : (ea + 1 <= eb)%Z) by (unfold qa, qb in *; lia).
    apply Qle_trans with (pow2 eb).
    + assert (Hd : (0 <= eb - qa)%Z) by (unfold qa, qb in *; lia).
      assert (Hle : a / pow2 qa <= inject_Z (2 ^ (eb - qa))).
      { rewrite <- pow2_Z by exact Hd.
        apply Qle_shift_div_r; [exact Pa|].
        rewrite pow2_cancel.
        apply Qle_trans with (pow2 (ea + 1)); [lra|now apply pow2_le]. }
      apply nearestEven_le in Hle. rewrite Zle_Qle in Hle.
      rewrite <- (pow2_cancel eb qa). rewrite (pow2_Z (eb - qa)) by exact Hd.
      apply Qmult_le_compat_r; [exact Hle|lra].
    + assert (Hge : inject_Z (2 ^ 52) <= b / pow2 qb).
      { rewrite <- pow2_Z by lia.
        apply Qle_shift_div_l; [exact Pb|].
        replace 52%Z with (eb - qb)%Z by lia.
        rewrite pow2_cancel. exact Lb. }
      apply nearestEven_ge in Hge. rewrite Zle_Qle in Hge.
      rewrite <- (pow2_cancel eb qb).
      replace (eb - qb)%Z with 52%Z by lia.
      rewrite (pow2_Z 52) by lia.
      apply Qmult_le_compat_r; [exact Hge|lra].
Qed.

Lemma round_nonneg (x : Q) : 0 <= x -> 0 <= round x.
Proof.
  intros H. unfold round. rewrite Qred_correct.
  destruct (Qcompare_spec x 0) as [E|E|E]; [lra|lra|now apply roundPos_nonneg].
Qed.

Lemma round_nonpos (x : Q) : x <= 0 -> round x <= 0.
Proof.
  intros H. unfold round. rewrite Qred_correct.
  destruct (Qcompare_spec x 0) as [E|E|E]; [lra| |lra].
  assert (0 <= roundPos (- x)) by (apply roundPos_nonneg; lra). lra.
Qed.

Lemma round_mono (x y : Q) : x <= y -> round x <= round y.
Proof.
  intros H. unfold round. rewrite !Qred_correct.
  destruct (Qcompare_spec x 0) as [Ex|Ex|Ex];
    destruct (Qcompare_spec y 0) as [Ey|Ey|Ey]; try lra.
  - now apply roundPos_nonneg.
  - assert (0 <= roundPos (- x)) by (apply roundPos_nonneg; lra). lra.
  - assert (roundPos (- y) <= roundPos (- x)) by (apply roundPos_mono; lra). lra.
  - assert (0 <= roundPos (- x)) by (apply roundPos_nonneg; lra).
    assert (0 <= roundPos y) by (apply roundPos_nonneg; lra). lra.
  - now apply roundPos_mono.
Qed.

Lemma round_comp (x y : Q) : x == y -> round x == round y.
Proof.
  intros H. apply Qle_antisym; apply round_mono; lra.
Qed.

Lemma round_zero (x : Q) : x == 0 -> round x == 0.
Proof.
  intros H. apply Qle_antisym; [apply round_nonpos|apply round_nonneg]; lra.
Qed.

End DoubleFacts.

(** ** Whitespace-normal strings *)

Section NormalStrings.

Lemma replaceRuns_spaced (t : jsstring) :
  forall b, spaced b (replaceRuns b t) = true.
Proof.
  induction t as [|c r IH]; intros b; simpl; [reflexivity|].
  destruct (isWhitespace c) eqn:Hc.
  - destruct b; simpl.
    + apply IH.
    + change (isWhitespace SPACE) with true. simpl. apply IH.
  - simpl. rewrite Hc. apply IH.
Qed.

Lemma spaced_true_any (s : jsstring) (b : bool) :
  spaced true s = true -> spaced b s = true.
Proof.
  destruct s as [|c r]; simpl; [trivial|].
  destruct (isWhitespace c); [|trivial].
  rewrite andb_false_r. discriminate.
Qed.

Lemma trimStart_spaced (s : jsstring) :
  forall b, spaced b s = true -> spaced true (trimStart s) = true.
Proof.
  induction s as [|c r IH]; intros b H; simpl in *; [reflexivity|].
  destruct (isWhitespace c) eqn:Hc.
  - apply andb_prop in H. destruct H as [_ H]. now apply (IH true).
  - simpl. now rewrite Hc.
Qed.

Lemma trimEnd_spaced (s : jsstring) :
  forall b, spaced b s = true -> spaced b (trimEnd s) = true.
Proof.
  induction s as [|c r IH]; intros b H; simpl in *; [reflexivity|].
  destruct (isWhitespace c) eqn:Hc.
  - apply andb_prop in H. destruct H as [H1 H2].
    specialize (IH true H2).
    destruct (trimEnd r) as [|d k]; [reflexivity|].
    simpl. rewrite Hc, H1. exact IH.
  - specialize (IH false H).
    destruct (trimEnd r) as [|d k]; simpl; rewrite Hc; [reflexivity|exact IH].
Qed.

Lemma trimEnd_last (s : jsstring) : lastIsWhitespace (trimEnd s) = false.
Proof.
  induction s as [|c r IH]; simpl; [reflexivity|].
  destruct (trimEnd r) as [|d k].
  - destruct (isWhitespace c) eqn:Hc; simpl; [reflexivity|exact Hc].
  - exact IH.
Qed.

Lemma normalizeWhitespace_isNormal (t : jsstring) :
  isNormal (normalizeWhitespace t) = true.
Proof.
  unfold isNormal, normalizeWhitespace, trim.
  rewrite trimEnd_last, andb_true_r.
  apply trimEnd_spaced, (trimStart_spaced _ false), replaceRuns_spaced.
Qed.

Lemma spaced_replaceRuns (s : jsstring) :
  forall b, spaced b s = true -> replaceRuns b s = s.
Proof.
  induction s as [|c r IH]; intros b H; simpl in *; [reflexivity|].
  destruct (isWhitespace c).
  - apply andb_prop in H. destruct H as [H1 H2].
    apply andb_prop in H1. destruct H1 as [Hc Hb].
    apply N.eqb_eq in Hc. destruct b; [discriminate|].
    now rewrite (IH true H2), Hc.
  - now rewrite (IH false H).
Qed.

Lemma spaced_trimStart (s : jsstring) :
  spaced true s = true -> trimStart s = s.
Proof.
  destruct s as [|c r]; simpl; [reflexivity|].
  destruct (isWhitespace c); [|reflexivity].
  rewrite andb_false_r. discriminate.
Qed.

Lemma last_trimEnd (s : jsstring) :
  lastIsWhitespace s = false -> trimEnd s = s.
Proof.
  induction s as [|c r IH]; intros H; [reflexivity|].
  destruct r as [|d r'].
  - simpl in *. now rewrite H.
  - change (lastIsWhitespace (c :: d :: r')) with (lastIsWhitespace (d :: r')) in H.
    change (trimEnd (c :: d :: r'))
      with (match trimEnd (d :: r') with
            | [] => if isWhitespace c then [] else [c]
            | kept => c :: kept
            end).
    now rewrite (IH H).
Qed.

Lemma isNormal_trim (s : jsstring) : isNormal s = true -> trim s = s.
Proof.
  unfold isNormal, trim. intros H. apply andb_prop in H. destruct H as [H1 H2].
  rewrite (spaced_trimStart _ H1). apply last_trimEnd.
  now destruct (lastIsWhitespace s).
Qed.

Lemma isNormal_fixed (s : jsstring) :
  isNormal s = true -> normalizeWhitespace s = s.
Proof.
  intros H. unfold normalizeWhitespace.
  assert (Hs : spaced true s = true)
    by (unfold isNormal in H; now apply andb_prop in H).
  rewrite (spaced_replaceRuns _ _ (spaced_true_any _ false Hs)).
  now apply isNormal_trim.
Qed.

Lemma normalizeWhitespace_idempotent (t : jsstring) :
  normalizeWhitespace (normalizeWhitespace t) = normalizeWhitespace t.
Proof. apply isNormal_fixed, normalizeWhitespace_isNormal. Qed.

(** *** Words of a normal string *)

Lemma isWhitespace_SPACE (c : codeunit) :
  (c =? SPACE)%N = true -> isWhitespace c = true.
Proof. intros H. apply N.eqb_eq in H. now subst c. Qed.

Lemma split_nonempty (sep : codeunit) (s : jsstring) : split sep s <> [].
Proof.
  destruct s as [|c r]; simpl; [discriminate|].
  destruct (c =? sep)%N; [discriminate|].
  destruct (split sep r); discriminate.
Qed.

Lemma join_split (sep : codeunit) (s : jsstring) : join sep (split sep s) = s.
Proof.
  induction s as [|c r IH]; [reflexivity|]. simpl.
  destruct (c =? sep)%N eqn:Hc.
  - apply N.eqb_eq in Hc. subst c.
    pose proof (split_nonempty sep r) as Hne.
    simpl. destruct (split sep r) as [|w ws]; [contradiction|].
    now rewrite IH.
  - pose proof (split_nonempty sep r) as Hne.
    destruct (split sep r) as [|w ws]; [contradiction|].
    rewrite <- IH. now destruct ws.
Qed.

Lemma split_words (s : jsstring) :
  forall b, spaced b s = true -> lastIsWhitespace s = false -> s <> [] ->
  exists w ws, split SPACE s = w :: ws /\ noWhitespace w = true
               /\ Forall cleanWord ws /\ (b = true -> w <> []).
Proof.
  induction s as [|c r IH]; intros b Hs Hl Hne; [contradiction|].
  simpl in Hs. simpl split.
  destruct (isWhitespace c) eqn:Hc.
  - apply andb_prop in Hs. destruct Hs as [H1 H2].
    apply andb_prop in H1. destruct H1 as [Hsp Hb].
    rewrite Hsp.
    assert (Hr : r <> []) by (intros ->; simpl in Hl; congruence).
    assert (Hl' : lastIsWhitespace r = false)
      by (destruct r; [contradiction|exact Hl]).
    destruct (IH true H2 Hl' Hr) as (w & ws & E & Hw & Hws & Hwne).
    exists [], (w :: ws). rewrite E.
    split; [reflexivity|]. split; [reflexivity|]. split.
    + constructor; [split; auto|assumption].
    + apply negb_true_iff in Hb. congruence.
  - assert (Hsp : (c =? SPACE)%N = false).
    { destruct (c =? SPACE)%N eqn:E; [|reflexivity].
      apply isWhitespace_SPACE in E. congruence. }
    rewrite Hsp.
    destruct r as [|d r'].
    + exists [c], []. simpl. rewrite Hc.
      split; [reflexivity|]. split; [reflexivity|]. split; [constructor|discriminate].
    + assert (Hl' : lastIsWhitespace (d :: r') = false) by exact Hl.
      destruct (IH false Hs Hl' ltac:(discriminate)) as (w & ws & E & Hw & Hws & _).
      exists (c :: w), ws. rewrite E. simpl. rewrite Hc.
      split; [reflexivity|]. split; [exact Hw|]. split; [exact Hws|discriminate].
Qed.

Lemma isNormal_split (s : jsstring) :
  isNormal s = true -> s <> [] -> Forall cleanWord (split SPACE s).
Proof.
  unfold isNormal. intros H Hne. apply andb_prop in H. destruct H as [H1 H2].
  apply negb_true_iff in H2.
  destruct (split_words s true H1 H2 Hne) as (w & ws & E & Hw & Hws & Hwne).
  rewrite E. constructor; [split; auto|assumption].
Qed.

Lemma spaced_word_app (w x : jsstring) (b : bool) :
  noWhitespace w = true -> w <> [] -> spaced b (w ++ x) = spaced false x.
Proof.
  revert b. induction w as [|c r IH]; intros b Hw Hne; [contradiction|].
  simpl in *. apply andb_prop in Hw. destruct Hw as [Hc Hr].
  apply negb_true_iff in Hc. rewrite Hc.
  destruct r as [|d r']; [reflexivity|]. apply IH; [assumption|discriminate].
Qed.

Lemma lastIsWhitespace_app (a b : jsstring) :
  b <> [] -> lastIsWhitespace (a ++ b) = lastIsWhitespace b.
Proof.
  intros Hb. induction a as [|c r IH]; [reflexivity|].
  simpl app. simpl lastIsWhitespace.
  destruct (r ++ b) eqn:E; [|exact IH].
  apply app_eq_nil in E. destruct E; contradiction.
Qed.

Lemma word_last (w : jsstring) :
  noWhitespace w = true -> lastIsWhitespace w = false.
Proof.
  induction w as [|c r IH]; [reflexivity|]. simpl. intros H.
  apply andb_prop in H. destruct H as [Hc Hr]. apply negb_true_iff in Hc.
  destruct r; [exact Hc|now apply IH].
Qed.

Lemma join_nonempty (ws : list jsstring) :
  Forall cleanWord ws -> ws <> [] -> join SPACE ws <> [].
Proof.
  intros H Hne. destruct ws as [|w rest]; [contradiction|].
  inversion H as [|? ? [Hw _] _]; subst.
  destruct rest; simpl; [assumption|].
  destruct w; [contradiction|discriminate].
Qed.

Lemma join_isNormal (ws : list jsstring) :
  Forall cleanWord ws -> isNormal (join SPACE ws) = true.
Proof.
  induction ws as [|w rest IH]; intros H; [reflexivity|].
  inversion H as [|? ? [Hne Hw] Hrest]; subst.
  specialize (IH Hrest). unfold isNormal in *.
  destruct rest as [|w2 rest'].
  - simpl. rewrite <- (app_nil_r w) at 1.
    rewrite (spaced_word_app w [] true Hw Hne), (word_last _ Hw). reflexivity.
  - apply andb_prop in IH. destruct IH as [I1 I2].
    change (join SPACE (w :: w2 :: rest'))
      with (w ++ SPACE :: join SPACE (w2 :: rest')).
    rewrite (spaced_word_app w _ true Hw Hne).
    rewrite lastIsWhitespace_app by discriminate.
    assert (Hj : join SPACE (w2 :: rest') <> [])
      by (apply join_nonempty; [assumption|discriminate]).
    change (spaced false (SPACE :: join SPACE (w2 :: rest')))
      with (spaced true (join SPACE (w2 :: rest'))).
    rewrite I1.
    change (lastIsWhitespace (SPACE :: join SPACE (w2 :: rest')))
      with (match join SPACE (w2 :: rest') with
            | [] => true
            | _ => lastIsWhitespace (join SPACE (w2 :: rest'))
            end).
    destruct (join SPACE (w2 :: rest')); [contradiction|].
    exact I2.
Qed.

(** *** The collapse loops keep the words clean and non-empty *)

Lemma Forall_firstn_skipn {A : Type} (P : A -> Prop) (n : nat) :
  forall l, Forall P l -> Forall P (firstn n l) /\ Forall P (skipn n l).
Proof.
  induction n as [|n IH]; intros l H; simpl; [split; [constructor|assumption]|].
  destruct l as [|x l]; [split; constructor|].
  inversion H as [|? ? Hx Hl]; subst. destruct (IH l Hl) as [I1 I2].
  split; [now constructor|assumption].
Qed.

Lemma splice_Forall (P : jsstring -> Prop) (words : list jsstring) (i n : nat) :
  Forall P words -> Forall P (splice words i n).
Proof.
  intros H. unfold splice. apply Forall_app. split.
  - now apply Forall_firstn_skipn.
  - now apply Forall_firstn_skipn.
Qed.

Lemma scanFrom_Forall (P : jsstring -> Prop) (fuel g : nat) :
  forall index words, Forall P words -> Forall P (scanFrom fuel g index words).
Proof.
  induction fuel as [|f IH]; intros index words H; simpl; [assumption|].
  destruct (index <=? length words); [|assumption].
  destruct (repeatedAt words g index); apply IH; try assumption.
  now apply splice_Forall.
Qed.

Lemma gramLoop_Forall (P : jsstring -> Prop) (g : nat) :
  forall words, Forall P words -> Forall P (gramLoop g words).
Proof.
  induction g as [|g IH]; intros words H; [assumption|].
  cbn [gramLoop]. destruct (3 <=? S g); [|assumption].
  apply IH. unfold scanGram. now apply scanFrom_Forall.
Qed.

Lemma collapse_isNormal (t : jsstring) :
  isNormal (collapseConsecutiveRepeatedNgrams t) = true.
Proof.
  unfold collapseConsecutiveRepeatedNgrams.
  pose proof (normalizeWhitespace_isNormal t) as Hn.
  destruct (normalizeWhitespace t) as [|c r] eqn:E; [reflexivity|].
  destruct (length (split SPACE (c :: r)) <? 6); [assumption|].
  assert (Hj : isNormal (join SPACE (gramLoop (Nat.min 20 (length (split SPACE (c :: r)) / 2))
                                            (split SPACE (c :: r)))) = true).
  { apply join_isNormal, gramLoop_Forall, isNormal_split; [assumption|discriminate]. }
  now rewrite (isNormal_trim _ Hj).
Qed.

Lemma firstn_nonempty {A : Type} (n : nat) (l : list A) :
  0 < n -> l <> [] -> firstn n l <> [].
Proof.
  intros Hn Hl. destruct n; [lia|]. destruct l; [contradiction|discriminate].
Qed.

Lemma scanFrom_nonempty (fuel g : nat) :
  0 < g ->
  forall index words, g * 2 <= index -> words <> [] ->
  scanFrom fuel g index words <> [].
Proof.
  intros Hg. induction fuel as [|f IH]; intros index words Hi Hw; simpl; [assumption|].
  destruct (index <=? length words); [|assumption].
  destruct (repeatedAt words g index).
  - apply IH; [assumption|]. unfold splice. intros E.
    apply app_eq_nil in E. destruct E as [E _].
    revert E. apply firstn_nonempty; [lia|assumption].
  - apply IH; [lia|assumption].
Qed.

Lemma gramLoop_nonempty (g : nat) :
  forall words, words <> [] -> gramLoop g words <> [].
Proof.
  induction g as [|g IH]; intros words H; [assumption|].
  cbn [gramLoop]. destruct (3 <=? S g) eqn:E; [|assumption].
  apply IH. unfold scanGram. apply scanFrom_nonempty; [lia|lia|assumption].
Qed.

(** *** The fuel of the scan is never used up *)

Lemma splice_length (words : list jsstring) (index g : nat) :
  g <= index -> index <= length words ->
  length (splice words (index - g) g) = length words - g.
Proof.
  intros H1 H2. unfold splice.
  rewrite length_app, length_firstn, length_skipn. lia.
Qed.

Lemma scanFrom_fuel (g : nat) :
  0 < g ->
  forall fuel1 fuel2 index words,
    g <= index ->
    length words + 1 - index < fuel1 ->
    length words + 1 - index < fuel2 ->
    scanFrom fuel1 g index words = scanFrom fuel2 g index words.
Proof.
  intros Hg. induction fuel1 as [|f1 IH]; intros fuel2 index words Hi H1 H2; [lia|].
  destruct fuel2 as [|f2]; [lia|]. simpl.
  destruct (index <=? length words) eqn:E; [|reflexivity].
  apply Nat.leb_le in E.
  destruct (repeatedAt words g index).
  - apply IH; [assumption| |]; rewrite splice_length by assumption; lia.
  - apply IH; lia.
Qed.

Lemma scanGram_fuel (g extra : nat) (words : list jsstring) :
  0 < g ->
  scanFrom (S (length words) + extra) g (g * 2) words = scanGram g words.
Proof.
  intros Hg. unfold scanGram. apply scanFrom_fuel; lia.
Qed.

(** *** Words without a repeat are left alone *)

Lemma existsb_false {A : Type} (f : A -> bool) (l : list A) (x : A) :
  existsb f l = false -> In x l -> f x = false.
Proof.
  intros H Hin. destruct (f x) eqn:E; [|reflexivity].
  assert (Ht : existsb f l = true) by (apply existsb_exists; eauto).
  congruence.
Qed.

Lemma hasRepeat_false (words : list jsstring) (gramSize index : nat) :
  hasRepeat words = false ->
  3 <= gramSize <= Nat.min 20 (length words / 2) ->
  gramSize * 2 <= index <= length words ->
  repeatedAt words gramSize index = false.
Proof.
  intros H Hg Hi. unfold hasRepeat in H.
  apply (existsb_false _ _ index (existsb_false _ _ gramSize H ltac:(apply in_seq; lia))).
  apply in_seq. lia.
Qed.

Lemma scanFrom_no_repeat (gramSize : nat) (words : list jsstring) (fuel : nat) :
  forall index,
    gramSize * 2 <= index ->
    (forall i, gramSize * 2 <= i <= length words ->
               repeatedAt words gramSize i = false) ->
    scanFrom fuel gramSize index words = words.
Proof.
  induction fuel as [|f IH]; intros index Hi H; [reflexivity|]. simpl.
  destruct (index <=? length words) eqn:E; [|reflexivity].
  apply Nat.leb_le in E. rewrite H by lia. apply IH; [lia|assumption].
Qed.

Lemma gramLoop_no_repeat (words : list jsstring) (gramSize : nat) :
  hasRepeat words = false ->
  gramSize <= Nat.min 20 (length words / 2) ->
  gramLoop gramSize words = words.
Proof.
  intros H. induction gramSize as [|g IH]; intros Hg; [reflexivity|].
  cbn [gramLoop]. destruct (3 <=? S g) eqn:E; [|reflexivity].
  apply Nat.leb_le in E. unfold scanGram.
  rewrite scanFrom_no_repeat.
  - apply IH. lia.
  - lia.
  - intros i Hi. apply hasRepeat_false; [assumption|lia|lia].
Qed.

Lemma hasRepeat_short (words : list jsstring) :
  length words < 6 -> hasRepeat words = false.
Proof.
  intros H. unfold hasRepeat.
  assert (E : Nat.min 20 (length words / 2) - 2 = 0).
  { assert (length words / 2 < 3) by (apply Nat.Div0.div_lt_upper_bound; lia). lia. }
  now rewrite E.
Qed.

(** *** What the normalizer returns *)

Lemma collapse_short (t : jsstring) :
  length (split SPACE (normalizeWhitespace t)) < 6 ->
  collapseConsecutiveRepeatedNgrams t = normalizeWhitespace t.
Proof.
  intros H. unfold collapseConsecutiveRepeatedNgrams.
  destruct (normalizeWhitespace t) as [|c r]; [reflexivity|].
  apply Nat.ltb_lt in H. now rewrite H.
Qed.

Lemma collapse_normalized (t : jsstring) :
  normalizeWhitespace (collapseConsecutiveRepeatedNgrams t)
  = collapseConsecutiveRepeatedNgrams t.
Proof. apply isNormal_fixed, collapse_isNormal. Qed.

Lemma collapse_fixed (y : jsstring) :
  isNormal y = true -> hasRepeat (split SPACE y) = false ->
  collapseConsecutiveRepeatedNgrams y = y.
Proof.
  intros Hn Hr. unfold collapseConsecutiveRepeatedNgrams.
  rewrite (isNormal_fixed y Hn).
  destruct y as [|c r]; [reflexivity|].
  destruct (length (split SPACE (c :: r)) <? 6); [reflexivity|].
  rewrite gramLoop_no_repeat by (assumption || lia).
  rewrite join_split. now apply isNormal_trim.
Qed.

Lemma collapse_empty_iff (t : jsstring) :
  collapseConsecutiveRepeatedNgrams t = [] <-> normalizeWhitespace t = [].
Proof.
  unfold collapseConsecutiveRepeatedNgrams.
  pose proof (normalizeWhitespace_isNormal t) as Hn.
  destruct (normalizeWhitespace t) as [|c r] eqn:E; [tauto|].
  split; [|discriminate]. intros H. exfalso.
  destruct (length (split SPACE (c :: r)) <? 6); [discriminate|].
  set (ws := gramLoop _ _) in H.
  assert (Hc : Forall cleanWord ws)
    by (apply gramLoop_Forall, isNormal_split; [assumption|discriminate]).
  rewrite (isNormal_trim _ (join_isNormal ws Hc)) in H.
  revert H. apply join_nonempty; [assumption|].
  apply gramLoop_nonempty, split_nonempty.
Qed.

Lemma replaceRuns_whitespace (t : jsstring) :
  forallb isWhitespace t = true -> replaceRuns true t = [].
Proof.
  induction t as [|c r IH]; intros H; simpl in *; [reflexivity|].
  apply andb_prop in H. destruct H as [Hc Hr]. rewrite Hc. now apply IH.
Qed.

Lemma collapse_whitespace_only (t : jsstring) :
  forallb isWhitespace t = true -> collapseConsecutiveRepeatedNgrams t = [].
Proof.
  intros H. apply collapse_empty_iff. unfold normalizeWhitespace.
  destruct t as [|c r]; [reflexivity|]. simpl in *.
  apply andb_prop in H. destruct H as [Hc Hr].
  now rewrite Hc, (replaceRuns_whitespace r Hr).
Qed.

End NormalStrings.

(** ** Facts about the SegmentMerger *)

Section SegmentOrder.

Open Scope Q_scope.

Lemma Qle_bool_false (x y : Q) : Qle_bool x y = false -> y < x.
Proof.
  intros H. apply Qnot_le_lt. intros L. apply Qle_bool_iff in L. congruence.
Qed.

Lemma mathMax_left (a b : Q) : a <= mathMax a b.
Proof.
  unfold mathMax. destruct (Qle_bool b a) eqn:E; [lra|].
  apply Qle_bool_false in E. lra.
Qed.

Lemma mathMax_right (a b : Q) : b <= mathMax a b.
Proof.
  unfold mathMax. destruct (Qle_bool b a) eqn:E; [|lra].
  now apply Qle_bool_iff in E.
Qed.

Lemma mathMax_lub (a b c : Q) : a <= c -> b <= c -> mathMax a b <= c.
Proof. unfold mathMax. now destruct (Qle_bool b a). Qed.

Lemma mathMax_keep (a b : Q) : b <= a -> mathMax a b = a.
Proof. intros H. unfold mathMax. apply Qle_bool_iff in H. now rewrite H. Qed.

Lemma compareSegments_le (a b : TranscriptSegment) :
  Qle_bool (compareSegments a b) 0 = true <-> lexLe a b.
Proof.
  unfold compareSegments, lexLe. rewrite Qle_bool_iff.
  destruct (Qeq_bool (start a - start b) 0) eqn:E.
  - apply Qeq_bool_iff in E. split; intros H; [right; split; lra|].
    destruct H as [H|[_ H]]; lra.
  - apply Qeq_bool_neq in E. split; intros H; [left; lra|].
    destruct H as [H|[H _]]; lra.
Qed.

Lemma lexLe_trans (a b c : TranscriptSegment) : lexLe a b -> lexLe b c -> lexLe a c.
Proof.
  unfold lexLe. intros [H1|[H1 H1']] [H2|[H2 H2']].
  - left; lra.
  - left; lra.
  - left; lra.
  - right; split; lra.
Qed.

Lemma lexLe_total (a b : TranscriptSegment) : lexLe a b \/ lexLe b a.
Proof.
  unfold lexLe.
  destruct (Q_dec (start a) (start b)) as [[H|H]|H].
  - left; now left.
  - right; now left.
  - destruct (Qlt_le_dec (end_ b) (end_ a)) as [L|L].
    + right; right; split; lra.
    + left; right; split; lra.
Qed.

Lemma lexLe_start (a b : TranscriptSegment) : lexLe a b -> start a <= start b.
Proof. unfold lexLe. intros [H|[H _]]; lra. Qed.

Lemma insertBy_Forall (P : TranscriptSegment -> Prop) (x : TranscriptSegment) :
  forall l, P x -> Forall P l -> Forall P (insertBy compareSegments x l).
Proof.
  induction l as [|y r IH]; intros Hx Hl; simpl; [now constructor|].
  destruct (Qle_bool (compareSegments x y) 0); [now constructor|].
  inversion Hl; subst. constructor; [assumption|now apply IH].
Qed.

Lemma insertBy_sorted (x : TranscriptSegment) :
  forall l, StronglySorted lexLe l ->
            StronglySorted lexLe (insertBy compareSegments x l).
Proof.
  induction l as [|y r IH]; intros Hl; simpl; [repeat constructor|].
  inversion Hl as [|? ? Hr Hy]; subst.
  destruct (Qle_bool (compareSegments x y) 0) eqn:E.
  - apply compareSegments_le in E. constructor; [assumption|].
    constructor; [assumption|].
    eapply Forall_impl; [|exact Hy]. intros z Hz. now apply lexLe_trans with y.
  - assert (Hyx : lexLe y x).
    { destruct (lexLe_total x y) as [H|H]; [|assumption].
      apply compareSegments_le in H. congruence. }
    constructor; [now apply IH|]. now apply insertBy_Forall.
Qed.

Lemma sortBy_sorted (l : list TranscriptSegment) :
  StronglySorted lexLe (sortBy compareSegments l).
Proof.
  induction l as [|x l IH]; simpl; [constructor|]. now apply insertBy_sorted.
Qed.

Lemma insertBy_front (x : TranscriptSegment) (l : list TranscriptSegment) :
  Forall (lexLe x) l -> insertBy compareSegments x l = x :: l.
Proof.
  destruct l as [|y r]; intros H; [reflexivity|]. simpl.
  inversion H as [|? ? Hy _]; subst.
  apply compareSegments_le in Hy. now rewrite Hy.
Qed.

Lemma sortBy_fixed (l : list TranscriptSegment) :
  StronglySorted lexLe l -> sortBy compareSegments l = l.
Proof.
  induction l as [|x l IH]; intros H; [reflexivity|].
  inversion H as [|? ? Hl Hx]; subst. simpl.
  rewrite (IH Hl). now apply insertBy_front.
Qed.

Lemma Forall_filter {A : Type} (P : A -> Prop) (p : A -> bool) (l : list A) :
  Forall P l -> Forall P (filter p l).
Proof.
  induction 1 as [|x l Hx Hl IH]; simpl; [constructor|].
  destruct (p x); [now constructor|assumption].
Qed.

Lemma filter_insertBy (p : TranscriptSegment -> bool) (x : TranscriptSegment) :
  forall l, StronglySorted lexLe l ->
  filter p (insertBy compareSegments x l)
  = if p x then insertBy compareSegments x (filter p l) else filter p l.
Proof.
  induction l as [|y r IH]; intros Hl; simpl.
  - now destruct (p x).
  - inversion Hl as [|? ? Hr Hy]; subst.
    destruct (Qle_bool (compareSegments x y) 0) eqn:E.
    + simpl. destruct (p x) eqn:Px; [|reflexivity].
      symmetry. apply insertBy_front.
      apply compareSegments_le in E.
      apply (Forall_filter _ p (y :: r)).
      constructor; [assumption|].
      eapply Forall_impl; [|exact Hy]. intros z Hz. now apply lexLe_trans with y.
    + simpl. rewrite (IH Hr).
      destruct (p y) eqn:Py, (p x) eqn:Px; simpl; rewrite ?E; reflexivity.
Qed.

(** Sorting commutes with dropping elements: the sort is stable. *)
Lemma filter_sortBy (p : TranscriptSegment -> bool) (l : list TranscriptSegment) :
  filter p (sortBy compareSegments l) = sortBy compareSegments (filter p l).
Proof.
  induction l as [|x l IH]; [reflexivity|]. simpl.
  rewrite filter_insertBy by apply sortBy_sorted.
  rewrite IH. now destruct (p x).
Qed.

End SegmentOrder.

Section MergerFacts.

Variable toLowerCase : jsstring -> jsstring.

Open Scope Q_scope.

Lemma dedupeStep_blank (acc : list TranscriptSegment) (c : TranscriptSegment) :
  isBlank c = true -> dedupeStep toLowerCase acc c = acc.
Proof.
  unfold isBlank, dedupeStep. now destruct (collapseConsecutiveRepeatedNgrams (text c)).
Qed.

Lemma dedupeStep_first (c : TranscriptSegment) :
  isBlank c = false -> dedupeStep toLowerCase [] c = [cleaned c].
Proof.
  unfold isBlank, dedupeStep, cleaned.
  now destruct (collapseConsecutiveRepeatedNgrams (text c)).
Qed.

Lemma dedupeStep_next (prev c : TranscriptSegment) (older : list TranscriptSegment) :
  isBlank c = false ->
  dedupeStep toLowerCase (prev :: older) c
  = if mergeable toLowerCase prev (cleaned c) then merged toLowerCase prev (cleaned c) :: older
    else cleaned c :: prev :: older.
Proof.
  unfold isBlank, dedupeStep, cleaned, mergeable, merged.
  destruct (collapseConsecutiveRepeatedNgrams (text c)) eqn:E; [discriminate|].
  reflexivity.
Qed.

Lemma cleaned_wellFormed (c : TranscriptSegment) :
  isBlank c = false -> wellFormed (cleaned c).
Proof.
  intros H. split; [|split]; simpl.
  - apply mathMax_right.
  - unfold isBlank in H. now destruct (collapseConsecutiveRepeatedNgrams (text c)).
  - apply collapse_isNormal.
Qed.

Lemma cleaned_headBound (c : TranscriptSegment) (rest : list TranscriptSegment) :
  Forall (lexLe c) rest -> Forall (headBound (cleaned c)) rest.
Proof.
  intros H. eapply Forall_impl; [|exact H]. intros d Hd. unfold headBound. simpl.
  split; [now apply lexLe_start|]. intros E.
  destruct Hd as [Hd|[_ Hd]]; [lra|].
  apply mathMax_lub.
  - pose proof (mathMax_left (end_ d) (start d)). lra.
  - pose proof (mathMax_right (end_ d) (start d)). lra.
Qed.

Lemma mergeInv_step (acc rest : list TranscriptSegment) (c : TranscriptSegment) :
  mergeInv acc (c :: rest) -> mergeInv (dedupeStep toLowerCase acc c) rest.
Proof.
  intros (Hs & Hw & Hb & Hr).
  inversion Hr as [|? ? Hr' Hc]; subst.
  destruct (isBlank c) eqn:Bl.
  { rewrite dedupeStep_blank by assumption.
    repeat split; try assumption.
    intros prev older E. specialize (Hb prev older E). now inversion Hb. }
  destruct acc as [|prev older].
  { rewrite dedupeStep_first by assumption.
    split; [repeat constructor|].
    split; [constructor; [now apply cleaned_wellFormed|constructor]|].
    split; [|assumption].
    intros p o E. injection E as <- <-. now apply cleaned_headBound. }
  rewrite dedupeStep_next by assumption.
  specialize (Hb prev older eq_refl).
  inversion Hb as [|? ? [Hb1 Hb2] Hbr]; subst.
  inversion Hs as [|? ? Hso Hpo]; subst.
  inversion Hw as [|? ? (Hw1 & Hw2 & Hw3) Hwo]; subst.
  destruct (mergeable toLowerCase prev (cleaned c)).
  - split; [|split; [|split; [|assumption]]].
    + constructor; [assumption|].
      eapply Forall_impl; [|exact Hpo]. intros o Ho. unfold merged, lexLe in *. simpl.
      pose proof (mathMax_left (end_ prev) (mathMax (end_ c) (start c))).
      destruct Ho as [Ho|[Ho1 Ho2]]; [now left|right; split; lra].
    + constructor; [|assumption].
      destruct (cleaned_wellFormed c Bl) as (_ & Hc2 & Hc3).
      split; [|split]; simpl.
      * pose proof (mathMax_left (end_ prev) (mathMax (end_ c) (start c))). lra.
      * now destruct (_ <? _)%nat.
      * now destruct (_ <? _)%nat.
    + intros p o E. injection E as <- <-.
      pose proof (cleaned_headBound c rest Hc) as Hcr.
      rewrite Forall_forall in *. intros d Hd.
      destruct (Hbr d Hd) as [B1 B2]. destruct (Hcr d Hd) as [C1 C2].
      simpl in C1, C2. unfold headBound, merged. simpl. split; [assumption|].
      intros E. apply mathMax_lub.
      * apply B2, E.
      * apply C2. lra.
  - split; [|split; [|split; [|assumption]]].
    + constructor; [assumption|]. constructor.
      * unfold lexLe, cleaned. simpl.
        destruct (Qlt_le_dec (start prev) (start c)) as [L|L]; [now left|].
        right. split; [lra|]. apply Hb2. lra.
      * eapply Forall_impl; [|exact Hpo]. intros o Ho.
        apply lexLe_trans with prev; [assumption|].
        unfold lexLe, cleaned. simpl.
        destruct (Qlt_le_dec (start prev) (start c)) as [L|L]; [now left|].
        right. split; [lra|]. apply Hb2. lra.
    + constructor; [now apply cleaned_wellFormed|assumption].
    + intros p o E. injection E as <- <-. now apply cleaned_headBound.
Qed.

Lemma mergeInv_fold (rest : list TranscriptSegment) :
  forall acc, mergeInv acc rest -> mergeInv (fold_left (dedupeStep toLowerCase) rest acc) [].
Proof.
  induction rest as [|c rest IH]; intros acc H; [assumption|].
  simpl. now apply IH, mergeInv_step.
Qed.

Lemma mergeInv_init (l : list TranscriptSegment) :
  mergeInv [] (sortBy compareSegments l).
Proof.
  split; [constructor|]. split; [constructor|].
  split; [discriminate|apply sortBy_sorted].
Qed.

Lemma StronglySorted_snoc {A : Type} (R : A -> A -> Prop) (l : list A) (x : A) :
  StronglySorted R l -> Forall (fun y => R y x) l -> StronglySorted R (l ++ [x]).
Proof.
  induction l as [|y l IH]; intros Hs Hx; simpl; [repeat constructor|].
  inversion Hs; subst. inversion Hx; subst.
  constructor; [now apply IH|].
  apply Forall_app. split; [assumption|now constructor].
Qed.

Lemma StronglySorted_rev {A : Type} (R : A -> A -> Prop) (l : list A) :
  StronglySorted (fun a b => R b a) l -> StronglySorted R (rev l).
Proof.
  induction 1 as [|x l Hl IH Hx]; simpl; [constructor|].
  apply StronglySorted_snoc; [assumption|].
  apply Forall_rev, Hx.
Qed.

(** The merged list is ordered by [(start, end)], and its segments have a
    text and do not end before they start. *)
Lemma dedupeSegments_shape (l : list TranscriptSegment) :
  StronglySorted lexLe (dedupeSegments toLowerCase l)
  /\ Forall wellFormed (dedupeSegments toLowerCase l).
Proof.
  unfold dedupeSegments.
  destruct (mergeInv_fold _ _ (mergeInv_init l)) as (Hs & Hw & _).
  split; [now apply StronglySorted_rev|now apply Forall_rev].
Qed.

(** *** Segments without text *)

Lemma fold_skips_blank (l : list TranscriptSegment) :
  forall acc,
    fold_left (dedupeStep toLowerCase) l acc
    = fold_left (dedupeStep toLowerCase) (filter (fun s => negb (isBlank s)) l) acc.
Proof.
  induction l as [|c l IH]; intros acc; [reflexivity|]. simpl.
  destruct (isBlank c) eqn:E; simpl.
  - rewrite dedupeStep_blank by assumption. apply IH.
  - apply IH.
Qed.

Lemma dedupeSegments_filter (l : list TranscriptSegment) :
  dedupeSegments toLowerCase l
  = dedupeSegments toLowerCase (filter (fun s => negb (isBlank s)) l).
Proof.
  unfold dedupeSegments. rewrite fold_skips_blank, filter_sortBy. reflexivity.
Qed.

(** *** Lists that the merger leaves alone *)

Lemma cleaned_fixed (s : TranscriptSegment) :
  fixedText s -> start s <= end_ s -> cleaned s = s.
Proof.
  intros Hf He. unfold cleaned. rewrite Hf, (mathMax_keep _ _ He). now destruct s.
Qed.

Lemma fold_fixed (l : list TranscriptSegment) :
  forall acc,
    Forall fixedText l -> Forall wellFormed l ->
    noAdjacentMerge toLowerCase (rev (firstn 1 acc) ++ l) = true ->
    fold_left (dedupeStep toLowerCase) l acc = rev l ++ acc.
Proof.
  induction l as [|c l IH]; intros acc Hf Hw Hn; [reflexivity|].
  inversion Hf as [|? ? Hfc Hfl]; subst.
  inversion Hw as [|? ? (Hc1 & Hc2 & Hc3) Hwl]; subst.
  assert (Bl : isBlank c = false).
  { unfold isBlank. rewrite Hfc. now destruct (text c). }
  simpl fold_left. simpl rev. rewrite <- app_assoc. simpl app.
  destruct acc as [|prev older].
  - rewrite dedupeStep_first, cleaned_fixed by assumption.
    apply IH; assumption.
  - rewrite dedupeStep_next, cleaned_fixed by assumption.
    simpl in Hn. apply andb_prop in Hn. destruct Hn as [Hm Hn].
    apply negb_true_iff in Hm. rewrite Hm.
    apply IH; assumption.
Qed.

Lemma dedupeSegments_fixed (l : list TranscriptSegment) :
  StronglySorted lexLe l -> Forall wellFormed l -> Forall fixedText l ->
  noAdjacentMerge toLowerCase l = true ->
  dedupeSegments toLowerCase l = l.
Proof.
  intros Hs Hw Hf Hn. unfold dedupeSegments.
  rewrite (sortBy_fixed _ Hs), fold_fixed by assumption.
  rewrite app_nil_r. apply rev_involutive.
Qed.

End MergerFacts.

(** ** TextNormalizer: the claims *)

(** C7, as stated, fails: the five-word input is below the six-word minimum
    and comes back as it is, so it is not ["the cat sat"]. *)
Lemma the_cat_is_not_collapsed :
  collapseConsecutiveRepeatedNgrams (lit "the cat the cat sat") <> lit "the cat sat".
Proof. vm_compute. discriminate. Qed.

(** C7 (amended): [collapseConsecutiveRepeatedNgrams] returns
    ["the cat the cat sat"] unchanged (fewer than six words); a repeat of two
    words stays also in a longer input, since gram sizes stop at three; a
    repeat of three words in an input of at least six words is collapsed. *)
Theorem the_cat_is_returned_unchanged :
  collapseConsecutiveRepeatedNgrams (lit "the cat the cat sat")
  = lit "the cat the cat sat"
  /\ collapseConsecutiveRepeatedNgrams (lit "the cat the cat sat on the mat")
     = lit "the cat the cat sat on the mat"
  /\ collapseConsecutiveRepeatedNgrams (lit "the cat sat the cat sat down")
     = lit "the cat sat down".
Proof. split; [|split]; vm_compute; reflexivity. Qed.

(** C5, as stated, fails: collapsing the repeat of ["d e f"] leaves two
    copies of ["a b c d e f g"] side by side, which only a second
    application removes. *)
Lemma collapse_is_not_idempotent :
  let x := lit "a b c d e f d e f g a b c d e f g" in
  collapseConsecutiveRepeatedNgrams x = lit "a b c d e f g a b c d e f g"
  /\ collapseConsecutiveRepeatedNgrams (collapseConsecutiveRepeatedNgrams x)
     = lit "a b c d e f g"
  /\ collapseConsecutiveRepeatedNgrams (collapseConsecutiveRepeatedNgrams x)
     <> collapseConsecutiveRepeatedNgrams x.
Proof.
  intros x. split; [|split].
  - vm_compute. reflexivity.
  - vm_compute. reflexivity.
  - vm_compute. discriminate.
Qed.

(** C5 (amended): [collapseConsecutiveRepeatedNgrams] is idempotent on every
    input whose result holds no repeat that a scan would find: no two equal
    adjacent runs of [g] words, for [g] from 3 to [min(20, floor(n / 2))],
    [n] being the number of words of the result.  A result of fewer than six
    words is such a result. *)
Theorem collapse_idempotent_on_settled_results (x : jsstring) :
  hasRepeat (split SPACE (collapseConsecutiveRepeatedNgrams x)) = false
  \/ length (split SPACE (collapseConsecutiveRepeatedNgrams x)) < 6 ->
  collapseConsecutiveRepeatedNgrams (collapseConsecutiveRepeatedNgrams x)
  = collapseConsecutiveRepeatedNgrams x.
Proof.
  intros H. apply collapse_fixed; [apply collapse_isNormal|].
  destruct H as [H|H]; [exact H|now apply hasRepeat_short].
Qed.

Lemma collapse_idempotent_on_settled_results_witness :
  let x := lit "so it goes so it  goes so it goes on and on and on we go" in
  collapseConsecutiveRepeatedNgrams x = lit "so it goes on and on and on we go"
  /\ collapseConsecutiveRepeatedNgrams (collapseConsecutiveRepeatedNgrams x)
     = collapseConsecutiveRepeatedNgrams x.
Proof.
  intros x. split; [vm_compute; reflexivity|].
  apply (collapse_idempotent_on_settled_results x).
  left. vm_compute. reflexivity.
Defined.

(** X6: whatever the input, the result of the normalizer is a fixed point of
    whitespace normalization, which is idempotent. *)
Theorem normalizer_result_is_normalized (x : jsstring) :
  normalizeWhitespace (collapseConsecutiveRepeatedNgrams x)
  = collapseConsecutiveRepeatedNgrams x
  /\ normalizeWhitespace (normalizeWhitespace x) = normalizeWhitespace x.
Proof. split; [apply collapse_normalized|apply normalizeWhitespace_idempotent]. Qed.

(** ** SegmentMerger: the claims *)

Lemma StronglySorted_weaken {A : Type} (R S : A -> A -> Prop) (l : list A) :
  (forall a b, R a b -> S a b) -> StronglySorted R l -> StronglySorted S l.
Proof.
  intros HRS. induction 1 as [|x l Hl IH Hx]; constructor; [assumption|].
  eapply Forall_impl; [|exact Hx]. intros b. apply HRS.
Qed.

(** C9: whatever the input, the list that [dedupeSegments] returns is
    ordered by [start], and none of its segments ends before it starts. *)
Theorem dedupeSegments_sorted_by_start
  (toLowerCase : jsstring -> jsstring) (segments : list TranscriptSegment) :
  StronglySorted (fun a b => (start a <= start b)%Q)
                 (dedupeSegments toLowerCase segments)
  /\ Forall (fun s => (start s <= end_ s)%Q) (dedupeSegments toLowerCase segments).
Proof.
  destruct (dedupeSegments_shape toLowerCase segments) as [Hs Hw]. split.
  - eapply StronglySorted_weaken; [|exact Hs]. intros a b. apply lexLe_start.
  - eapply Forall_impl; [|exact Hw]. intros s H. apply H.
Qed.

Lemma wellFormed_not_blank (s : TranscriptSegment) :
  wellFormed s -> collapseConsecutiveRepeatedNgrams (text s) <> [].
Proof.
  intros (_ & Hne & Hn) E. apply collapse_empty_iff in E.
  rewrite (isNormal_fixed _ Hn) in E. contradiction.
Qed.

(** C10: a segment whose text is empty once normalized and collapsed is
    dropped whatever its timestamps: the result is the one obtained without
    it, it is not in the result, and no segment of the result has such a
    text. *)
Theorem blank_segments_are_dropped
  (toLowerCase : jsstring -> jsstring)
  (before after : list TranscriptSegment) (segment : TranscriptSegment) :
  collapseConsecutiveRepeatedNgrams (text segment) = [] ->
  dedupeSegments toLowerCase (before ++ segment :: after)
  = dedupeSegments toLowerCase (before ++ after)
  /\ ~ In segment (dedupeSegments toLowerCase (before ++ segment :: after))
  /\ Forall (fun s => collapseConsecutiveRepeatedNgrams (text s) <> [])
            (dedupeSegments toLowerCase (before ++ segment :: after)).
Proof.
  intros Hb.
  assert (Hout : Forall (fun s => collapseConsecutiveRepeatedNgrams (text s) <> [])
                        (dedupeSegments toLowerCase (before ++ segment :: after))).
  { destruct (dedupeSegments_shape toLowerCase (before ++ segment :: after)) as [_ Hw].
    eapply Forall_impl; [|exact Hw]. apply wellFormed_not_blank. }
  split; [|split; [|exact Hout]].
  - rewrite (dedupeSegments_filter toLowerCase (before ++ segment :: after)).
    rewrite (dedupeSegments_filter toLowerCase (before ++ after)).
    rewrite !filter_app. simpl. unfold isBlank at 2. rewrite Hb. reflexivity.
  - intros Hin. rewrite Forall_forall in Hout. exact (Hout segment Hin Hb).
Qed.

Lemma blank_segments_are_dropped_witness :
  let hello := mkSegment (lit "hello") 10 10.5 in
  let blank := mkSegment (lit "   ") 30 2 in
  let goodbye := mkSegment (lit "goodbye") 20 20.5 in
  collapseConsecutiveRepeatedNgrams (text blank) = []
  /\ dedupeSegments asciiLower ([hello] ++ blank :: [goodbye]) = [hello; goodbye].
Proof.
  intros hello blank goodbye.
  split; [reflexivity|].
  destruct (blank_segments_are_dropped asciiLower [hello] [goodbye] blank eq_refl)
    as [E _].
  rewrite E. vm_compute. reflexivity.
Defined.

(** C2, as stated, fails on the text that is kept: the candidate starts
    0.2 s after the end of the current segment and its normalized text
    contains that of the current one, yet the merged segment holds the
    shorter of the two texts, because the lengths compared are those of the
    texts as normalized for comparison. *)
Lemma merge_can_keep_the_shorter_text :
  let current := mkSegment (lit "a b c d e f g a b c d e f g") 0 1 in
  let candidate := mkSegment (lit "a b c d e f g h") (Double.round 1.2) 2 in
  dedupeSegments asciiLower
    [mkSegment (lit "a b c d e f d e f g a b c d e f g") 0 1] = [current]
  /\ (start candidate - end_ current <= 0.35 /\ end_ current - start candidate <= 0.35)%Q
  /\ sameOrContained (normalizeForCompare asciiLower (text current))
                     (normalizeForCompare asciiLower (text candidate)) = true
  /\ length (text candidate) < length (text current)
  /\ dedupeStep asciiLower [current] candidate = [mkSegment (text candidate) 0 2]
  /\ dedupeSegments asciiLower
       [mkSegment (lit "a b c d e f d e f g a b c d e f g") 0 1; candidate]
     = [mkSegment (lit "a b c d e f g h") 0 2].
Proof.
  intros current candidate. unfold current, candidate.
  split; [vm_compute; reflexivity|].
  split; [split; vm_compute; discriminate|].
  split; [vm_compute; reflexivity|].
  split; [vm_compute; lia|].
  split; vm_compute; reflexivity.
Qed.

(** The overlap is tested on the sum that the machine computes.  The double
    1.35 lies above [1 + 0.35], and yet a segment that starts there overlaps
    one that ends at 1, because the sum of 1 and the double 0.35 rounds to
    the double 1.35; and 0.45 is 0.1 + 0.35, and yet a segment that starts
    at the double 0.45 does not overlap one that ends at the double 0.1,
    because the sum of the doubles 0.1 and 0.35 rounds to the double just
    below the double 0.45. *)
Lemma overlap_uses_the_rounded_sum :
  (1 + 0.35 < Double.round 1.35)%Q
  /\ overlaps (mkSegment (lit "a") 0 1) (mkSegment (lit "a") (Double.round 1.35) 2)
     = true
  /\ (0.45 <= 0.1 + 0.35)%Q
  /\ overlaps (mkSegment (lit "a") 0 (Double.round 0.1))
              (mkSegment (lit "a") (Double.round 0.45) 1)
     = false.
Proof.
  split; [vm_compute; reflexivity|]. split; [vm_compute; reflexivity|].
  split; [vm_compute; discriminate|vm_compute; reflexivity].
Qed.

(** C2 (amended): when the candidate has a text, starts no later than the
    sum [prev.end + 0.35] as the machine computes it (the double nearest to
    the end of the current merged segment plus the double 0.35), and the two
    texts as normalized for comparison are equal or one contains the other,
    the two become one segment: its start is that of the current segment,
    its end the larger of the two ends, and its text the candidate's cleaned
    text if the candidate's normalized text is strictly longer than the
    current one's, the current text otherwise.  The two ["hello world"]
    segments of the example merge into [{"hello world", 10.0, 11.3}]. *)
Theorem merge_of_overlapping_segments
  (toLowerCase : jsstring -> jsstring)
  (prev : TranscriptSegment) (older : list TranscriptSegment)
  (segment : TranscriptSegment) :
  let next := cleaned segment in
  let prevNorm := normalizeForCompare toLowerCase (text prev) in
  let nextNorm := normalizeForCompare toLowerCase (text next) in
  text next <> [] ->
  (start next <= Double.add (end_ prev) (Double.round 0.35))%Q ->
  eqb prevNorm nextNorm = true \/ includes prevNorm nextNorm = true
  \/ includes nextNorm prevNorm = true ->
  dedupeStep toLowerCase (prev :: older) segment
  = mkSegment (if length prevNorm <? length nextNorm then text next else text prev)
              (start prev)
              (mathMax (end_ prev) (end_ next)) :: older
  /\ dedupeSegments toLowerCase
       [mkSegment (lit "hello world") 10.0 11.0;
        mkSegment (lit "hello world") (Double.round 10.2) (Double.round 11.3)]
     = [mkSegment (lit "hello world") 10.0 (Double.round 11.3)].
Proof.
  intros next prevNorm nextNorm Hne Hov Hsame. split.
  - rewrite dedupeStep_next.
    + assert (Hm : mergeable toLowerCase prev (cleaned segment) = true).
      { unfold mergeable, sameOrContained, overlaps.
        fold next. fold prevNorm. fold nextNorm.
        apply andb_true_intro. split.
        - destruct Hsame as [H|[H|H]]; rewrite H;
            rewrite ?orb_true_r; reflexivity.
        - now apply Qle_bool_iff. }
      rewrite Hm. reflexivity.
    + unfold isBlank. unfold next, cleaned in Hne. simpl in Hne.
      now destruct (collapseConsecutiveRepeatedNgrams (text segment)).
  - unfold dedupeSegments.
    assert (Hs : sortBy compareSegments
                   [mkSegment (lit "hello world") 10.0 11.0;
                    mkSegment (lit "hello world") (Double.round 10.2)
                              (Double.round 11.3)]
                 = [mkSegment (lit "hello world") 10.0 11.0;
                    mkSegment (lit "hello world") (Double.round 10.2)
                              (Double.round 11.3)])
      by (vm_compute; reflexivity).
    rewrite Hs. cbn [fold_left].
    rewrite dedupeStep_first by (vm_compute; reflexivity).
    rewrite dedupeStep_next by (vm_compute; reflexivity).
    assert (Hc : forall t a b, t = lit "hello world" ->
                 cleaned (mkSegment t a b) = mkSegment t a (mathMax b a)).
    { intros t a b ->. unfold cleaned. simpl text.
      replace (collapseConsecutiveRepeatedNgrams (lit "hello world"))
        with (lit "hello world") by (vm_compute; reflexivity).
      reflexivity. }
    rewrite !Hc by reflexivity.
    unfold mergeable, merged, sameOrContained, overlaps. cbn [text start end_].
    assert (Heq : forall t, eqb t t = true).
    { induction t as [|c r IH]; simpl; [reflexivity|]. now rewrite N.eqb_refl. }
    rewrite Heq. cbn [orb andb].
    rewrite Nat.ltb_irrefl.
    vm_compute. reflexivity.
Qed.

Lemma merge_of_overlapping_segments_witness :
  let prev := mkSegment (lit "Hello world") 10 11 in
  let candidate := mkSegment (lit "so hello   world it is") (Double.round 11.2) 12 in
  dedupeStep asciiLower [prev] candidate
  = [mkSegment (lit "so hello world it is") 10 12].
Proof.
  intros prev candidate.
  destruct (merge_of_overlapping_segments asciiLower prev [] candidate) as [E _].
  - vm_compute. discriminate.
  - vm_compute. discriminate.
  - right. right. vm_compute. reflexivity.
  - rewrite E. vm_compute. reflexivity.
Defined.

(** X4: two segments that neither overlap nor share their text stay two. *)
Theorem distinct_segments_are_kept (toLowerCase : jsstring -> jsstring) :
  dedupeSegments toLowerCase
    [mkSegment (lit "hello") 10.0 10.5; mkSegment (lit "goodbye") 20.0 20.5]
  = [mkSegment (lit "hello") 10.0 10.5; mkSegment (lit "goodbye") 20.0 20.5].
Proof.
  apply dedupeSegments_fixed.
  - constructor; [repeat constructor|]. constructor; [|constructor].
    left. simpl. lra.
  - constructor; [|constructor; [|constructor]]; (split; [simpl; lra|]);
      (split; [discriminate|reflexivity]).
  - constructor; [|constructor; [|constructor]]; reflexivity.
  - cbn [noAdjacentMerge]. unfold mergeable, overlaps. cbn [start end_].
    replace (Qle_bool 20.0 (Double.add 10.5 MERGE_EPSILON)) with false
      by (vm_compute; reflexivity).
    now rewrite andb_false_r.
Qed.

(** C6, as stated, fails: a second pass can merge again.  ["bar"] does not
    merge into ["foo"] but grows into ["foo bar"], which then contains
    ["foo"]; a text that the first pass collapsed can collapse again; and
    the same happens at the very edge of the overlap, where the start 1.35
    of the grown segment equals the rounded sum of the end 1 and 0.35. *)
Lemma dedupe_is_not_idempotent :
  let s := [mkSegment (lit "foo") 0 1; mkSegment (lit "bar") 0.5 1.5;
            mkSegment (lit "foo bar") (Double.round 0.6) 2] in
  let t := [mkSegment (lit "a b c d e f d e f g a b c d e f g") 0 1] in
  let u := [mkSegment (lit "a") 0 1; mkSegment (lit "b") (Double.round 1.35) 2;
            mkSegment (lit "a b") (Double.round 1.4) 3] in
  dedupeSegments asciiLower s
  = [mkSegment (lit "foo") 0 1; mkSegment (lit "foo bar") 0.5 2]
  /\ dedupeSegments asciiLower (dedupeSegments asciiLower s)
     = [mkSegment (lit "foo bar") 0 2]
  /\ dedupeSegments asciiLower (dedupeSegments asciiLower s)
     <> dedupeSegments asciiLower s
  /\ dedupeSegments asciiLower (dedupeSegments asciiLower t)
     <> dedupeSegments asciiLower t
  /\ dedupeSegments asciiLower u
     = [mkSegment (lit "a") 0 1; mkSegment (lit "a b") (Double.round 1.35) 3]
  /\ dedupeSegments asciiLower (dedupeSegments asciiLower u)
     = [mkSegment (lit "a b") 0 3].
Proof.
  intros s t u. split; [|split; [|split; [|split; [|split]]]].
  - vm_compute. reflexivity.
  - vm_compute. reflexivity.
  - vm_compute. discriminate.
  - vm_compute. discriminate.
  - vm_compute. reflexivity.
  - vm_compute. reflexivity.
Qed.

(** C6 (amended): a second pass of [dedupeSegments] changes nothing when no
    two neighbours of the first result satisfy the merge condition (the one
    of the code: same or contained normalized texts, and a start no later
    than the rounded sum of the neighbour's end and 0.35) and no text of the
    first result holds a repeat that the normalizer would collapse. *)
Theorem dedupe_idempotent_on_settled_results
  (toLowerCase : jsstring -> jsstring) (segments : list TranscriptSegment) :
  let result := dedupeSegments toLowerCase segments in
  Forall (fun s => hasRepeat (split SPACE (text s)) = false) result ->
  noAdjacentMerge toLowerCase result = true ->
  dedupeSegments toLowerCase result = result.
Proof.
  intros result Hr Hn.
  destruct (dedupeSegments_shape toLowerCase segments) as [Hs Hw].
  apply dedupeSegments_fixed; try assumption.
  fold result in Hw. rewrite Forall_forall in *. intros s Hin.
  apply collapse_fixed; [apply (Hw s Hin)|apply (Hr s Hin)].
Qed.

Lemma dedupe_idempotent_on_settled_results_witness :
  let s := [mkSegment (lit "goodbye") 20 20.5;
            mkSegment (lit "hello world") (Double.round 10.2) (Double.round 11.3);
            mkSegment (lit "hello world") 10 11] in
  dedupeSegments asciiLower s
  = [mkSegment (lit "hello world") 10 (Double.round 11.3);
     mkSegment (lit "goodbye") 20 20.5]
  /\ dedupeSegments asciiLower (dedupeSegments asciiLower s)
     = dedupeSegments asciiLower s.
Proof.
  intros s. split; [vm_compute; reflexivity|].
  apply (dedupe_idempotent_on_settled_results asciiLower s).
  - vm_compute. repeat constructor.
  - vm_compute. reflexivity.
Defined.

(** ** WindowPlanner: the claims *)

Section WindowFacts.

Local Open Scope Z_scope.

Lemma window_constants :
  WINDOW_SAMPLES = 480000 /\ JUMP_SAMPLES = 320000
  /\ MIN_WINDOW_SAMPLES = 16000 /\ SAMPLE_RATE = 16000.
Proof. repeat split. Qed.

Lemma countFrom_last (len offset : Z) :
  len <= offset + WINDOW_SAMPLES -> countFrom len offset = 1.
Proof. intros H. unfold countFrom. apply Z.leb_le in H. now rewrite H. Qed.

Lemma countFrom_step (len offset : Z) :
  offset + WINDOW_SAMPLES < len ->
  countFrom len offset = countFrom len (offset + JUMP_SAMPLES) + 1
  /\ 1 <= countFrom len (offset + JUMP_SAMPLES).
Proof.
  intros H. unfold countFrom, ceilDiv.
  destruct window_constants as (HW & HJ & _). rewrite HW, HJ in *.
  destruct (len <=? offset + 480000) eqn:E1; [apply Z.leb_le in E1; lia|].
  destruct (len <=? offset + 320000 + 480000) eqn:E2.
  - apply Z.leb_le in E2.
    assert (Hq : (- (len - offset - 480000)) / 320000 = -1)
      by (symmetry; apply (Z.div_unique _ _ _ (320000 - (len - offset - 480000))); lia).
    rewrite Hq. lia.
  - apply Z.leb_gt in E2.
    replace (- (len - offset - 480000))
      with (- (len - (offset + 320000) - 480000) + (-1) * 320000) by lia.
    rewrite Z.div_add by lia.
    assert (Hneg : (- (len - (offset + 320000) - 480000)) / 320000 < 0)
      by (apply Z.div_lt_upper_bound; lia).
    lia.
Qed.

Lemma countFrom_estimate (len : Z) : countFrom len 0 = estimateChunkCount len.
Proof.
  unfold countFrom, estimateChunkCount. simpl Z.add.
  change (CHUNK_LENGTH_S * SAMPLE_RATE) with WINDOW_SAMPLES.
  change (CHUNK_JUMP_SAMPLES <=? 0) with false. rewrite orb_false_r.
  destruct (len <=? WINDOW_SAMPLES); [reflexivity|].
  now replace (len - 0 - WINDOW_SAMPLES) with (len - WINDOW_SAMPLES) by lia.
Qed.

Lemma estimateChunkCount_positive (len : Z) : 1 <= estimateChunkCount len.
Proof.
  rewrite <- countFrom_estimate.
  destruct (Z_le_gt_dec len (0 + WINDOW_SAMPLES)) as [H|H].
  - rewrite countFrom_last by assumption. lia.
  - destruct (countFrom_step len 0) as [Hc Hpos]; lia.
Qed.

Lemma offsetsFrom_step (offset : Z) (n : nat) :
  offsetsFrom offset (S n) = offset :: offsetsFrom (offset + JUMP_SAMPLES) n.
Proof.
  unfold offsetsFrom. simpl seq. simpl List.map. f_equal; [lia|].
  rewrite <- seq_shift, map_map. apply map_ext. intros k. lia.
Qed.

(** The loop pushes one window per planned offset; its fuel is not used up. *)
Lemma windowLoop_spec (audio : Float32Array) (fuel : nat) :
  forall offset windows,
    0 <= offset < arrayLength audio ->
    arrayLength audio - offset < Z.of_nat fuel ->
    windowLoop fuel audio offset windows
    = windows ++ List.map (windowAt audio)
                   (offsetsFrom offset (Z.to_nat (countFrom (arrayLength audio) offset))).
Proof.
  induction fuel as [|f IH]; intros offset windows Ho Hf; [lia|].
  cbn [windowLoop].
  assert (E : (offset <? arrayLength audio) = true) by (apply Z.ltb_lt; lia).
  rewrite E.
  destruct (Z.min (offset + WINDOW_SAMPLES) (arrayLength audio) >=? arrayLength audio) eqn:E2.
  - rewrite Z.geb_leb in E2. apply Z.leb_le in E2.
    rewrite countFrom_last by lia.
    change (Z.to_nat 1) with 1%nat. now rewrite offsetsFrom_step.
  - rewrite Z.geb_leb in E2. apply Z.leb_gt in E2.
    destruct (countFrom_step (arrayLength audio) offset) as [Hc Hpos]; [lia|].
    destruct window_constants as (HW & HJ & _).
    rewrite IH by lia.
    rewrite Hc, Z2Nat.inj_add, Nat.add_1_r by lia.
    rewrite offsetsFrom_step. rewrite <- app_assoc. reflexivity.
Qed.

Lemma safetyNet_noop (audio : Float32Array) (windows : list Window) :
  windows <> [] \/ audio = [] -> safetyNet audio windows = windows.
Proof.
  unfold safetyNet. intros [H| ->].
  - destruct windows; [contradiction|]. reflexivity.
  - now rewrite andb_false_r.
Qed.

(** The windows of a waveform that has at least one sample. *)
Lemma buildWindows_spec (audio : Float32Array) :
  audio <> [] ->
  buildWindows audio
  = List.map (windowAt audio)
      (offsetsFrom 0 (Z.to_nat (estimateChunkCount (arrayLength audio)))).
Proof.
  intros Hne. unfold buildWindows.
  assert (Hlen : 0 < arrayLength audio)
    by (unfold arrayLength; destruct audio; [contradiction|simpl; lia]).
  rewrite windowLoop_spec by (unfold arrayLength in *; lia).
  rewrite countFrom_estimate. simpl app.
  apply safetyNet_noop. left.
  pose proof (estimateChunkCount_positive (arrayLength audio)) as Hc.
  destruct (Z.to_nat (estimateChunkCount (arrayLength audio))) eqn:E; [lia|].
  rewrite offsetsFrom_step. discriminate.
Qed.

Lemma windowLoop_fuel (audio : Float32Array) (extra : nat) :
  windowLoop (S (length audio) + extra) audio 0 []
  = windowLoop (S (length audio)) audio 0 [].
Proof.
  destruct audio as [|x audio]; [reflexivity|].
  rewrite !windowLoop_spec; unfold arrayLength; simpl length; try lia.
  reflexivity.
Qed.

(** X1: the windows of a waveform that is not empty: their number is 1 up to
    30 s of samples and [ceil((len - 480000) / 320000) + 1] beyond, and they
    start every 320000 samples from 0. *)
Theorem nonempty_waveform_windows (audio : Float32Array) :
  audio <> [] ->
  let len := arrayLength audio in
  let N := if len <=? 480000 then 1 else ceilDiv (len - 480000) 320000 + 1 in
  Z.of_nat (length (buildWindows audio)) = N
  /\ buildWindows audio
     = List.map (fun k => windowAt audio (Z.of_nat k * 320000)) (seq 0 (Z.to_nat N))
  /\ List.map offsetS (buildWindows audio)
     = List.map (fun k => (inject_Z (Z.of_nat k * 320000) / inject_Z 16000)%Q)
                (seq 0 (Z.to_nat N)).
Proof.
  intros Hne len N.
  assert (HN : N = estimateChunkCount len).
  { unfold N, estimateChunkCount.
    change (CHUNK_LENGTH_S * SAMPLE_RATE) with 480000.
    change CHUNK_JUMP_SAMPLES with 320000.
    change (320000 <=? 0) with false. now rewrite orb_false_r. }
  pose proof (estimateChunkCount_positive len) as Hpos.
  assert (E : buildWindows audio
              = List.map (fun k => windowAt audio (Z.of_nat k * 320000))
                         (seq 0 (Z.to_nat N))).
  { rewrite (buildWindows_spec audio Hne), HN. unfold offsetsFrom.
    rewrite map_map. apply map_ext. intros k. reflexivity. }
  split; [|split].
  - rewrite E, length_map, length_seq. lia.
  - exact E.
  - rewrite E, map_map. apply map_ext. intros k. reflexivity.
Qed.

Lemma nonempty_waveform_windows_witness :
  buildWindows [1%Q; 1%Q; 1%Q] = [windowAt [1%Q; 1%Q; 1%Q] 0].
Proof.
  destruct (nonempty_waveform_windows [1%Q; 1%Q; 1%Q]) as (_ & E & _);
    [discriminate|exact E].
Defined.

(** X2: a clip of 65 s: three windows, at 0 s, 20 s and 40 s, the last one
    holding the 25 s from 40 s to 65 s. *)
Lemma clip_of_65_seconds (audio : Float32Array) :
  arrayLength audio = 65 * SAMPLE_RATE ->
  buildWindows audio
  = [windowAt audio 0; windowAt audio (20 * SAMPLE_RATE); windowAt audio (40 * SAMPLE_RATE)]
  /\ Forall2 Qeq (List.map offsetS (buildWindows audio)) [0%Q; 20%Q; 40%Q]
  /\ arrayLength (data (windowAt audio (40 * SAMPLE_RATE))) = 25 * SAMPLE_RATE.
Proof.
  intros Hlen.
  assert (Hne : audio <> []) by (intros ->; discriminate).
  assert (E : buildWindows audio
              = [windowAt audio 0; windowAt audio (20 * SAMPLE_RATE);
                 windowAt audio (40 * SAMPLE_RATE)]).
  { rewrite (buildWindows_spec audio Hne), Hlen. reflexivity. }
  split; [exact E|]. split.
  - rewrite E. repeat constructor.
  - clear E. unfold windowAt. rewrite Hlen. unfold arrayLength in Hlen.
    unfold padToMinLength, slice, arrayLength. cbn [data].
    change (Z.min (40 * SAMPLE_RATE + WINDOW_SAMPLES) (65 * SAMPLE_RATE))
      with (65 * SAMPLE_RATE).
    assert (Hl : Z.of_nat (length (firstn (Z.to_nat (65 * SAMPLE_RATE - 40 * SAMPLE_RATE))
                                          (skipn (Z.to_nat (40 * SAMPLE_RATE)) audio)))
                 = 25 * SAMPLE_RATE).
    { rewrite length_firstn, length_skipn.
      change (65 * SAMPLE_RATE - 40 * SAMPLE_RATE) with 400000.
      change (40 * SAMPLE_RATE) with 640000.
      change (65 * SAMPLE_RATE) with 1040000 in Hlen.
      change (25 * SAMPLE_RATE) with 400000. lia. }
    rewrite Hl.
    change (25 * SAMPLE_RATE >=? MIN_WINDOW_SAMPLES) with true.
    cbv iota. exact Hl.
Qed.

Lemma clip_of_65_seconds_witness :
  let audio := repeat 0%Q (Z.to_nat (65 * SAMPLE_RATE)) in
  Forall2 Qeq (List.map offsetS (buildWindows audio)) [0%Q; 20%Q; 40%Q].
Proof.
  intros audio.
  assert (Hlen : arrayLength audio = 65 * SAMPLE_RATE).
  { unfold audio, arrayLength. rewrite repeat_length. apply Z2Nat.id. discriminate. }
  destruct (clip_of_65_seconds audio Hlen) as (_ & H & _). exact H.
Defined.

(** X3: a waveform shorter than one second, but not empty: one window, the
    samples followed by silence up to one second. *)
Lemma short_clip_is_padded (audio : Float32Array) :
  audio <> [] -> arrayLength audio < MIN_WINDOW_SAMPLES ->
  buildWindows audio
  = [mkWindow (audio ++ repeat 0%Q (Z.to_nat (MIN_WINDOW_SAMPLES - arrayLength audio)))
              (inject_Z 0 / inject_Z SAMPLE_RATE)%Q].
Proof.
  intros Hne Hlen. rewrite (buildWindows_spec audio Hne).
  destruct window_constants as (HW & HJ & HM & _). rewrite HM in Hlen.
  assert (Hc : estimateChunkCount (arrayLength audio) = 1).
  { rewrite <- countFrom_estimate. apply countFrom_last. lia. }
  rewrite Hc. change (Z.to_nat 1) with 1%nat. rewrite offsetsFrom_step.
  cbn [offsetsFrom seq List.map]. unfold windowAt.
  rewrite Z.min_r by lia.
  assert (Hs : slice audio 0 (arrayLength audio) = audio).
  { unfold slice, arrayLength. rewrite Z.sub_0_r, Nat2Z.id. simpl skipn.
    apply firstn_all. }
  rewrite Hs. unfold padToMinLength.
  assert (Hge : (arrayLength audio >=? MIN_WINDOW_SAMPLES) = false)
    by (rewrite Z.geb_leb; apply Z.leb_gt; lia).
  now rewrite Hge.
Qed.

Lemma short_clip_is_padded_witness :
  buildWindows [1%Q; 1%Q]
  = [mkWindow ([1%Q; 1%Q] ++ repeat 0%Q (Z.to_nat (MIN_WINDOW_SAMPLES - 2)))
              (inject_Z 0 / inject_Z SAMPLE_RATE)%Q].
Proof.
  apply (short_clip_is_padded [1%Q; 1%Q]); [discriminate|reflexivity].
Defined.

(** C1: at the empty waveform the loop builds no window, while the claim,
    like [estimateChunkCount], counts one; for every other waveform the
    windows are those of [buildWindows_spec]. *)
Theorem empty_waveform_window_count :
  length (buildWindows []) = 0%nat
  /\ estimateChunkCount (arrayLength []) = 1
  /\ Z.of_nat (length (buildWindows [])) <> estimateChunkCount (arrayLength []).
Proof. split; [reflexivity|]. split; [reflexivity|discriminate]. Qed.

(** C8: the safety net after the loop never adds a window, and the list of
    windows is empty exactly when the waveform is. *)
Theorem safety_net_never_fires (audio : Float32Array) :
  buildWindows audio = windowLoop (S (length audio)) audio 0 []
  /\ (buildWindows audio = [] <-> audio = []).
Proof.
  destruct audio as [|x audio].
  - split; [reflexivity|]. split; reflexivity.
  - assert (Hne : x :: audio <> []) by discriminate.
    pose proof (buildWindows_spec (x :: audio) Hne) as E.
    pose proof (estimateChunkCount_positive (arrayLength (x :: audio))) as Hc.
    split.
    + unfold buildWindows. apply safetyNet_noop. left.
      fold (buildWindows (x :: audio)) in E.
      unfold buildWindows in E.
      intros Hw. rewrite Hw in E. unfold safetyNet in E.
      cbn [length Z.of_nat Z.eqb andb] in E.
      assert (Hpos : (arrayLength (x :: audio) >? 0) = true)
        by (unfold arrayLength; simpl; reflexivity).
      rewrite Hpos in E.
      destruct (Z.to_nat (estimateChunkCount (arrayLength (x :: audio)))) eqn:En; [lia|].
      rewrite offsetsFrom_step in E. simpl in E.
      destruct (offsetsFrom (0 + JUMP_SAMPLES) n); discriminate.
    + split; [|discriminate]. intros Hw. rewrite Hw in E.
      destruct (Z.to_nat (estimateChunkCount (arrayLength (x :: audio)))) eqn:En; [lia|].
      rewrite offsetsFrom_step in E. discriminate.
Qed.

End WindowFacts.

(** ** The per-window loop: the claims *)

Section LoopFacts.

Variable transcriber : nat -> Float32Array -> Outcome.
Variable requestId : Z.

Lemma processWindow_threw (totalWindows i : nat) (win : Window) (st : LoopState)
  (message : jsstring) :
  transcriber i (data win) = Threw message ->
  processWindow transcriber requestId totalWindows i win st
  = postToMain (windowProgress requestId (Z.of_nat i + 1) (Z.of_nat totalWindows)) st.
Proof. intros H. unfold processWindow, tryWindow. now rewrite H. Qed.

Lemma processWindows_app (totalWindows : nat) (before after : list Window) :
  forall i st,
    processWindows transcriber requestId totalWindows i (before ++ after) st
    = processWindows transcriber requestId totalWindows (i + length before) after
        (processWindows transcriber requestId totalWindows i before st).
Proof.
  induction before as [|w before IH]; intros i st; simpl.
  - now rewrite Nat.add_0_r.
  - rewrite IH. f_equal. lia.
Qed.

(** What one try posts: nothing, or one partial text of this request. *)
Lemma tryWindow_posted (i : nat) (win : Window) (st : LoopState) :
  posted (tryWindow transcriber requestId i win st) = posted st
  \/ exists t, posted (tryWindow transcriber requestId i win st)
               = posted st ++ [MsgPartial t requestId].
Proof.
  unfold tryWindow. destruct (transcriber i (data win)); [now left|].
  destruct (normalizeWhitespace _); [now left|]. right. eexists. reflexivity.
Qed.

(** The messages of the loop: partial texts and one progress message per
    window, counting from [i + 1] to the number of windows. *)
Lemma processWindows_posted (totalWindows : nat) (windows : list Window) :
  forall i st,
  exists extra,
    posted (processWindows transcriber requestId totalWindows i windows st)
    = posted st ++ extra
    /\ Forall (fun m => isFailure m = false /\ Page.carries m requestId) extra
    /\ progressCounts extra
       = List.map (fun k => (Z.of_nat k + 1, Z.of_nat totalWindows)%Z)
                  (seq i (length windows)).
Proof.
  induction windows as [|w windows IH]; intros i st; simpl.
  - exists []. rewrite app_nil_r. repeat split. constructor.
  - destruct (IH (S i) (processWindow transcriber requestId totalWindows i w st))
      as (extra & E & Hf & Hc).
    rewrite E. unfold processWindow at 1. unfold postToMain at 1. cbn [posted].
    destruct (tryWindow_posted i w st) as [T|[t T]]; rewrite T.
    + exists (windowProgress requestId (Z.of_nat i + 1) (Z.of_nat totalWindows) :: extra).
      split; [now rewrite <- app_assoc|]. split.
      * constructor; [|assumption]. repeat split.
      * unfold progressCounts in *. simpl. now rewrite Hc.
    + exists (MsgPartial t requestId
              :: windowProgress requestId (Z.of_nat i + 1) (Z.of_nat totalWindows)
              :: extra).
      split; [now rewrite <- !app_assoc|]. split.
      * constructor; [repeat split|]. constructor; [|assumption]. repeat split.
      * unfold progressCounts in *. simpl. now rewrite Hc.
Qed.

(** The job ends with the segments, the result and the ready status, and
    reports no failure, whatever the backend did on each window. *)
Lemma transcribe_completes (toLowerCase : jsstring -> jsstring)
  (device : option Device) (audio : Float32Array) :
  exists earlier canonicalText segments,
    transcribe toLowerCase transcriber requestId device audio
    = earlier ++ [MsgSegments requestId canonicalText segments;
                  MsgResult canonicalText requestId;
                  MsgStatus Ready (Some requestId) None None]
    /\ Forall (fun m => isFailure m = false /\ Page.carries m requestId) earlier
    /\ progressCounts earlier
       = List.map (fun k => (Z.of_nat k, Z.of_nat (length (buildWindows audio))))
                  (seq 0 (S (length (buildWindows audio)))).
Proof.
  unfold transcribe.
  set (st0 := mkLoopState [] [] _).
  destruct (processWindows_posted (length (buildWindows audio)) (buildWindows audio) 0 st0)
    as (extra & E & Hf & Hc).
  eexists. eexists. eexists. split; [reflexivity|]. rewrite E. split.
  - apply Forall_app. split; [|assumption].
    unfold st0. cbn [posted]. repeat constructor.
  - unfold progressCounts in *. rewrite flat_map_app, Hc.
    unfold st0. cbn [posted flat_map progressCount phase processedChunks totalChunks app].
    cbn [seq List.map]. f_equal.
    rewrite <- seq_shift, map_map. apply map_ext. intros k. f_equal. lia.
Qed.

(** Every message of the job bears its request id in a place that the page
    checks. *)
Lemma transcribe_messages_carry_id (toLowerCase : jsstring -> jsstring)
  (device : option Device) (audio : Float32Array) :
  Forall (fun m => Page.carries m requestId)
         (transcribe toLowerCase transcriber requestId device audio).
Proof.
  destruct (transcribe_completes toLowerCase device audio)
    as (earlier & text' & segs & E & Hf & _).
  rewrite E. apply Forall_app. split.
  - eapply Forall_impl; [|exact Hf]. intros m H. apply H.
  - repeat constructor.
Qed.

End LoopFacts.

(** X5: the job of a loaded pipeline always ends with the segments, the result
    and the ready status, posts one progress message per window after the
    initial one, and never reports a failure. *)
Theorem job_always_completes
  (toLowerCase : jsstring -> jsstring)
  (transcriber : nat -> Float32Array -> Outcome) (requestId : Z)
  (device : option Device) (audio : Float32Array) :
  exists earlier canonicalText segments,
    transcribe toLowerCase transcriber requestId device audio
    = earlier ++ [MsgSegments requestId canonicalText segments;
                  MsgResult canonicalText requestId;
                  MsgStatus Ready (Some requestId) None None]
    /\ Forall (fun m => isFailure m = false) earlier
    /\ progressCounts earlier
       = List.map (fun k => (Z.of_nat k, Z.of_nat (length (buildWindows audio))))
                  (seq 0 (S (length (buildWindows audio)))).
Proof.
  destruct (transcribe_completes transcriber requestId toLowerCase device audio)
    as (earlier & text' & segs & E & Hf & Hc).
  exists earlier, text', segs. split; [exact E|]. split; [|exact Hc].
  eapply Forall_impl; [|exact Hf]. intros m H. apply H.
Qed.

(** C3: when the backend call for window [i] throws, the turn for that
    window leaves the accumulated texts and segments as they were and posts
    the progress message with [processed = i + 1] and [total = N]; the loop
    goes on with the windows after it; over the whole loop one progress
    message is posted per window, from 1 to [N]; and the job ends with its
    result and reports no failure. *)
Theorem failing_window_is_skipped
  (transcriber : nat -> Float32Array -> Outcome) (requestId : Z)
  (before after : list Window) (win : Window) (st : LoopState) (message : jsstring) :
  transcriber (length before) (data win) = Threw message ->
  let windows := before ++ win :: after in
  let N := length windows in
  let i := length before in
  let progressOfWindow := windowProgress requestId (Z.of_nat i + 1) (Z.of_nat N) in
  let reached := processWindows transcriber requestId N 0 before st in
  let skipped := processWindow transcriber requestId N i win reached in
  let final := processWindows transcriber requestId N 0 windows st in
  accumulatedTexts skipped = accumulatedTexts reached
  /\ allSegments skipped = allSegments reached
  /\ posted skipped = posted reached ++ [progressOfWindow]
  /\ final = processWindows transcriber requestId N (S i) after skipped
  /\ In progressOfWindow (posted final)
  /\ progressCounts (posted final)
     = progressCounts (posted st)
       ++ List.map (fun k => (Z.of_nat k + 1, Z.of_nat N)%Z) (seq 0 N)
  /\ forall toLowerCase device audio,
       exists earlier canonicalText segments,
         transcribe toLowerCase transcriber requestId device audio
         = earlier ++ [MsgSegments requestId canonicalText segments;
                       MsgResult canonicalText requestId;
                       MsgStatus Ready (Some requestId) None None]
         /\ Forall (fun m => isFailure m = false) earlier.
Proof.
  intros Hthrew windows N i progressOfWindow reached skipped final.
  assert (Hskip : skipped = postToMain progressOfWindow reached)
    by (apply processWindow_threw with message; exact Hthrew).
  assert (Hfinal : final = processWindows transcriber requestId N (S i) after skipped).
  { unfold final, windows. rewrite processWindows_app. simpl.
    unfold skipped, reached, i. reflexivity. }
  split; [now rewrite Hskip|]. split; [now rewrite Hskip|].
  split; [now rewrite Hskip|]. split; [exact Hfinal|]. split; [|split].
  - rewrite Hfinal.
    destruct (processWindows_posted transcriber requestId N after (S i) skipped)
      as (extra & E & _).
    rewrite E, Hskip. cbn [postToMain posted].
    apply in_or_app. left. apply in_or_app. right. now left.
  - destruct (processWindows_posted transcriber requestId N windows 0 st)
      as (extra & E & _ & Hc).
    fold final in E. rewrite E. unfold progressCounts in *.
    rewrite flat_map_app, Hc. reflexivity.
  - intros toLowerCase device audio.
    destruct (transcribe_completes transcriber requestId toLowerCase device audio)
      as (earlier & text' & segs & E & Hf & _).
    exists earlier, text', segs. split; [exact E|].
    eapply Forall_impl; [|exact Hf]. intros m H. apply H.
Qed.

Lemma failing_window_is_skipped_witness :
  let transcriber := fun (i : nat) (_ : Float32Array) =>
    match i with
    | 1%nat => Threw (lit "token_ids must be a non-empty array of integers")
    | _ => Returned (Some (mkResult (Some (lit " spoken words "))
                             (Some [mkChunk (Some (lit "spoken words"))
                                            (Some [TsNumber 1; TsNumber 2])])))
    end in
  let w := fun (offset : Q) => mkWindow [0%Q; 0%Q] offset in
  let final := processWindows transcriber 7 3 0 [w 0%Q; w 20%Q; w 40%Q]
                 (mkLoopState [] [] []) in
  accumulatedTexts final = [lit "spoken words"; lit "spoken words"]
  /\ List.map start (allSegments final) = [(1 + 0)%Q; (1 + 40)%Q]
  /\ progressCounts (posted final) = [(1, 3); (2, 3); (3, 3)]%Z.
Proof.
  intros transcriber w final.
  pose proof (failing_window_is_skipped transcriber 7 [w 0%Q] [w 40%Q] (w 20%Q)
                (mkLoopState [] [] [])
                (lit "token_ids must be a non-empty array of integers") eq_refl)
    as (_ & _ & _ & _ & _ & Hcounts & _).
  split; [reflexivity|]. split; [reflexivity|]. exact Hcounts.
Defined.

(** ** The page: the claims *)

Section PageFacts.

Import Page.

Local Open Scope Z_scope.

Ltac break_matches :=
  repeat match goal with
         | |- context [match ?x with _ => _ end] => destruct x
         | |- context [if ?b then _ else _] => destruct b
         end.

(** An event bearing a request id other than the active one is dropped. *)
Lemma stale_message_ignored (now : Clock) (st : PageState) (message : WorkerResponse)
  (r : Z) :
  carries message r -> r <> activeRequestId st ->
  handleWorkerMessage now st message = st.
Proof.
  intros Hc Hr. apply Z.eqb_neq in Hr.
  destruct message as [s rid d dev|info|t rid|rid t segs|t rid|e rid];
    simpl in Hc; unfold handleWorkerMessage.
  - subst rid. unfold isStale. now rewrite Hr.
  - destruct Hc as [Hp Hi]. rewrite Hp, Hi. unfold isStale. now rewrite Hr.
  - subst rid. now rewrite Hr.
  - subst rid. now rewrite Hr.
  - subst rid. now rewrite Hr.
  - subst rid. unfold isStale. now rewrite Hr.
Qed.

(** Only [cancelTranscription] and [startTranscription] write the ref. *)
Lemma handleWorkerMessage_keeps_id (now : Clock) (st : PageState) (message : WorkerResponse) :
  activeRequestId (handleWorkerMessage now st message) = activeRequestId st.
Proof.
  destruct message as [s rid d dev|info|t rid|rid t segs|t rid|e rid];
    unfold handleWorkerMessage, handleStatus, handleProgress, setDeviceIfAny.
  - break_matches; reflexivity.
  - break_matches; reflexivity.
  - break_matches; reflexivity.
  - break_matches; reflexivity.
  - break_matches; reflexivity.
  - break_matches; reflexivity.
Qed.

Lemma cancelTranscription_id (st : PageState) :
  activeRequestId (cancelTranscription st) = activeRequestId st + 1.
Proof. unfold cancelTranscription. break_matches; reflexivity. Qed.

Lemma startTranscription_id (isMobile workerAvailable : bool) (file : File)
  (st : PageState) :
  activeRequestId st
  <= activeRequestId (startTranscription isMobile workerAvailable file st).
Proof.
  unfold startTranscription.
  destruct (fileSize file <=? MAX_FILE_SIZE)%Z;
    destruct (status st); destruct isMobile, workerAvailable; cbn [negb andb];
    cbn [activeRequestId setError setStatus setAbortController onGauges setGauges
         setIsViaCloud clearProgressState setSegments setOutput setActiveFileName
         setActiveRequestId];
    rewrite ?cancelTranscription_id; lia.
Qed.

(** The active request id never goes down. *)
Lemma run_id_monotone (events : list PageEvent) :
  forall st, activeRequestId st <= activeRequestId (run events st).
Proof.
  induction events as [|e events IH]; intros st; [reflexivity|].
  unfold run in *. simpl fold_left.
  etransitivity; [|apply IH].
  destruct e as [now message| |isMobile workerAvailable fileName]; simpl react.
  - rewrite handleWorkerMessage_keeps_id. reflexivity.
  - rewrite cancelTranscription_id. lia.
  - apply startTranscription_id.
Qed.

(** The one kind of event that the handler applies without looking at its
    request id is a download progress; the worker posts those without one. *)
Lemma download_progress_bears_no_id (info : DownloadProgressInfo)
  (message : WorkerResponse) :
  In message (onDownloadProgress info) -> requestIdOf message = None.
Proof.
  unfold onDownloadProgress.
  destruct (strictEq (downloadStatus info) (Some (lit "ready"))); simpl;
    intros H; repeat (destruct H as [<-|H]; [reflexivity|]); contradiction.
Qed.

Lemma carries_requestIdOf (message : WorkerResponse) (r : Z) :
  carries message r -> requestIdOf message = Some r.
Proof.
  destruct message; simpl; intros H; now subst.
Qed.

End PageFacts.

(** C4: an event that bears a request id other than the active one (a
    partial text, the segments, the result, and also a status, an error or a
    transcribing progress of that request) leaves the whole state of the
    page as it is; and once the request with the active id has been
    cancelled, no such event of that request changes the state any more,
    whatever was started, cancelled or delivered in between. *)
Theorem stale_events_are_dropped
  (now : Page.Clock) (message : WorkerResponse) (r : Z) :
  Page.carries message r ->
  (forall st, r <> Page.activeRequestId st ->
              Page.handleWorkerMessage now st message = st)
  /\ (forall st events,
        Page.activeRequestId st = r ->
        let st' := Page.run events (Page.cancelTranscription st) in
        Page.handleWorkerMessage now st' message = st').
Proof.
  intros Hc. split.
  - intros st Hr. now apply stale_message_ignored with r.
  - intros st events Hr st'. apply stale_message_ignored with r; [assumption|].
    pose proof (run_id_monotone events (Page.cancelTranscription st)) as Hm.
    rewrite cancelTranscription_id in Hm. fold st' in Hm. lia.
Qed.

Lemma stale_events_are_dropped_witness :
  let gauges0 := Page.mkGauges 50 (Some TranscribingPhase) (Some 1%Z) (Some 2%Z)
                   None None None None (Some 1%Z) (Some 1%Z) (Some 1000%Z) in
  let st := Page.mkPage 1 Page.StatusTranscribing (lit "words of the first request")
              [] None (Some (lit "first.wav")) (Some Webgpu) true true false false
              gauges0 in
  let late := MsgResult (lit "late result of the first request") 1 in
  let st' := Page.run [Page.Start false true (Page.mkFile (lit "second.wav") 1000000);
                       Page.Deliver (Page.mkClock 2000 2000) (MsgPartial (lit "words of the second request") 3)]
                      (Page.cancelTranscription st) in
  Page.activeRequestId st' = 3%Z
  /\ Page.output st' = lit "words of the second request"
  /\ Page.handleWorkerMessage (Page.mkClock 3000 3000) st' late = st'
  /\ Page.handleWorkerMessage (Page.mkClock 3000 3000) (Page.cancelTranscription st) late
     = Page.cancelTranscription st.
Proof.
  intros gauges0 st late st'.
  destruct (stale_events_are_dropped (Page.mkClock 3000 3000) late 1 eq_refl) as [Hdiffers Hcancelled].
  split; [reflexivity|]. split; [reflexivity|]. split.
  - exact (Hcancelled st [Page.Start false true (Page.mkFile (lit "second.wav") 1000000);
                          Page.Deliver (Page.mkClock 2000 2000)
                            (MsgPartial (lit "words of the second request") 3)]
                      eq_refl).
  - apply Hdiffers. vm_compute. discriminate.
Defined.

(** ** WindowPlanner: what the windows hold *)

Section WindowContents.

Local Open Scope Z_scope.

Variable audio : Float32Array.

Lemma slice_length (from to : Z) :
  0 <= from <= to -> to <= arrayLength audio ->
  arrayLength (slice audio from to) = to - from.
Proof.
  intros H1 H2. unfold slice, arrayLength in *.
  rewrite length_firstn, length_skipn. lia.
Qed.

Lemma slice_to_end (from : Z) :
  0 <= from -> slice audio from (arrayLength audio) = skipn (Z.to_nat from) audio.
Proof.
  intros H. unfold slice, arrayLength. apply firstn_all2.
  rewrite length_skipn. lia.
Qed.

Lemma padToMinLength_length (buf : Float32Array) (minLen : Z) :
  arrayLength (padToMinLength buf minLen) = Z.max (arrayLength buf) minLen.
Proof.
  unfold padToMinLength.
  destruct (arrayLength buf >=? minLen) eqn:E; rewrite Z.geb_leb in E.
  - apply Z.leb_le in E. lia.
  - apply Z.leb_gt in E. unfold arrayLength in *.
    rewrite length_app, repeat_length. lia.
Qed.

Lemma padToMinLength_long (buf : Float32Array) (minLen : Z) :
  minLen <= arrayLength buf -> padToMinLength buf minLen = buf.
Proof.
  intros H. unfold padToMinLength.
  assert (E : (arrayLength buf >=? minLen) = true)
    by (rewrite Z.geb_leb; now apply Z.leb_le).
  now rewrite E.
Qed.

Lemma padToMinLength_prefix (buf : Float32Array) (minLen : Z) :
  firstn (length buf) (padToMinLength buf minLen) = buf.
Proof.
  unfold padToMinLength. destruct (arrayLength buf >=? minLen).
  - apply firstn_all.
  - rewrite firstn_app, firstn_all, Nat.sub_diag. simpl. apply app_nil_r.
Qed.

(** The induction that follows the window loop: from [offset], either the
    window reaches the end of the waveform and is the last one, or the next
    one starts [JUMP_SAMPLES] later. *)
Lemma planned_windows_ind (P : Z -> list Z -> Prop) :
  (forall offset, 0 <= offset < arrayLength audio ->
                  arrayLength audio <= offset + WINDOW_SAMPLES ->
                  P offset [offset]) ->
  (forall offset rest, 0 <= offset < arrayLength audio ->
                       offset + WINDOW_SAMPLES < arrayLength audio ->
                       rest <> [] ->
                       P (offset + JUMP_SAMPLES) rest ->
                       P offset (offset :: rest)) ->
  forall n offset,
    0 <= offset < arrayLength audio ->
    Z.to_nat (countFrom (arrayLength audio) offset) = n ->
    P offset (offsetsFrom offset n).
Proof.
  intros Hlast Hstep. induction n as [|n IH]; intros offset Ho Hn.
  - destruct (Z_le_gt_dec (arrayLength audio) (offset + WINDOW_SAMPLES)) as [H|H].
    + rewrite countFrom_last in Hn by assumption. discriminate.
    + destruct (countFrom_step (arrayLength audio) offset) as [Hc Hpos]; lia.
  - rewrite offsetsFrom_step.
    destruct (Z_le_gt_dec (arrayLength audio) (offset + WINDOW_SAMPLES)) as [H|H].
    + rewrite countFrom_last in Hn by assumption.
      assert (n = 0%nat) by lia. subst n. now apply Hlast.
    + destruct (countFrom_step (arrayLength audio) offset) as [Hc Hpos]; [lia|].
      destruct window_constants as (HW & HJ & _).
      assert (Hn' : Z.to_nat (countFrom (arrayLength audio) (offset + JUMP_SAMPLES)) = n)
        by lia.
      apply Hstep; [lia|lia| |apply IH; [lia|exact Hn']].
      destruct n; [lia|]. rewrite offsetsFrom_step. discriminate.
Qed.

Lemma windowAt_length (offset : Z) :
  0 <= offset < arrayLength audio ->
  MIN_WINDOW_SAMPLES <= arrayLength (data (windowAt audio offset)) <= WINDOW_SAMPLES.
Proof.
  intros Ho. unfold windowAt. cbn [data].
  destruct window_constants as (HW & HJ & HM & _).
  rewrite padToMinLength_length, slice_length by lia. lia.
Qed.

Lemma buildWindows_planned :
  audio <> [] ->
  exists n, Z.to_nat (countFrom (arrayLength audio) 0) = n
            /\ buildWindows audio = List.map (windowAt audio) (offsetsFrom 0 n).
Proof.
  intros Hne. eexists. split; [reflexivity|].
  rewrite countFrom_estimate. now apply buildWindows_spec.
Qed.

Lemma arrayLength_positive : audio <> [] -> 0 < arrayLength audio.
Proof. unfold arrayLength. destruct audio; [contradiction|simpl; lia]. Qed.

End WindowContents.

(** X7: every window handed to the backend holds at least one second and at
    most thirty seconds of samples, whatever the waveform. *)
Theorem windows_hold_1_to_30_seconds (audio : Float32Array) :
  Forall (fun win => (MIN_WINDOW_SAMPLES <= arrayLength (data win) <= WINDOW_SAMPLES)%Z)
         (buildWindows audio).
Proof.
  destruct audio as [|x audio]; [constructor|].
  set (a := x :: audio).
  assert (Hne : a <> []) by discriminate.
  destruct (buildWindows_planned a Hne) as (n & Hn & E). rewrite E.
  pose proof (arrayLength_positive a Hne) as Hpos.
  apply (planned_windows_ind a
           (fun _ offsets =>
              Forall (fun win => (MIN_WINDOW_SAMPLES <= arrayLength (data win)
                                  <= WINDOW_SAMPLES)%Z)
                     (List.map (windowAt a) offsets))); try assumption; try lia.
  - intros offset Ho _. constructor; [now apply windowAt_length|constructor].
  - intros offset rest Ho _ _ IH. constructor; [now apply windowAt_length|exact IH].
Qed.

(** X8: the windows of a waveform of at least one second are exact slices of
    it (nothing is padded) and lose no sample: keeping of every window but
    the last the 20 s before the next one starts gives the waveform back.
    For a shorter waveform, the samples are the head of the one window. *)
Theorem windows_cover_the_waveform (audio : Float32Array) :
  audio <> [] ->
  firstn (length audio) (stitch (buildWindows audio)) = audio
  /\ ((MIN_WINDOW_SAMPLES <= arrayLength audio)%Z ->
      stitch (buildWindows audio) = audio).
Proof.
  intros Hne.
  destruct (buildWindows_planned audio Hne) as (n & Hn & E). rewrite E.
  pose proof (arrayLength_positive audio Hne) as Hpos.
  destruct window_constants as (HW & HJ & HM & _).
  assert (G : forall offsets offset,
             offsets = offsetsFrom offset n ->
             (0 <= offset < arrayLength audio)%Z ->
             Z.to_nat (countFrom (arrayLength audio) offset) = n ->
             firstn (length audio - Z.to_nat offset)
                    (stitch (List.map (windowAt audio) offsets))
             = skipn (Z.to_nat offset) audio
             /\ ((MIN_WINDOW_SAMPLES <= arrayLength audio - offset)%Z ->
                 stitch (List.map (windowAt audio) offsets)
                 = skipn (Z.to_nat offset) audio)).
  { intros offsets offset -> Ho Hc.
    apply (planned_windows_ind audio
             (fun offset offsets =>
                firstn (length audio - Z.to_nat offset)
                       (stitch (List.map (windowAt audio) offsets))
                = skipn (Z.to_nat offset) audio
                /\ ((MIN_WINDOW_SAMPLES <= arrayLength audio - offset)%Z ->
                    stitch (List.map (windowAt audio) offsets)
                    = skipn (Z.to_nat offset) audio))); try assumption.
    - intros o Hr Hend. cbn [List.map stitch]. unfold windowAt. cbn [data].
      rewrite Z.min_r by lia. rewrite slice_to_end by lia.
      assert (Hl : length (skipn (Z.to_nat o) audio)
                   = (length audio - Z.to_nat o)%nat) by apply length_skipn.
      split.
      + rewrite <- Hl. apply padToMinLength_prefix.
      + intros Hlong. apply padToMinLength_long.
        unfold arrayLength in *. rewrite Hl. lia.
    - intros o rest Hr Hmore Hrest [IH1 IH2].
      assert (Hs : stitch (List.map (windowAt audio) (o :: rest))
                   = firstn (Z.to_nat JUMP_SAMPLES) (data (windowAt audio o))
                     ++ stitch (List.map (windowAt audio) rest)).
      { cbn [List.map stitch]. destruct rest; [contradiction|reflexivity]. }
      assert (Hd : firstn (Z.to_nat JUMP_SAMPLES) (data (windowAt audio o))
                   = firstn (Z.to_nat JUMP_SAMPLES) (skipn (Z.to_nat o) audio)).
      { unfold windowAt. cbn [data]. rewrite Z.min_l by lia.
        rewrite padToMinLength_long
          by (rewrite slice_length; lia).
        unfold slice. rewrite firstn_firstn. f_equal. lia. }
      assert (Hsk : skipn (Z.to_nat (o + JUMP_SAMPLES)) audio
                    = skipn (Z.to_nat JUMP_SAMPLES) (skipn (Z.to_nat o) audio)).
      { rewrite skipn_skipn. f_equal. lia. }
      assert (Hfull : stitch (List.map (windowAt audio) (o :: rest))
                      = skipn (Z.to_nat o) audio).
      { rewrite Hs, Hd, IH2 by lia. rewrite Hsk. apply firstn_skipn. }
      split; [|intros _; exact Hfull].
      rewrite Hfull. apply firstn_all2. rewrite length_skipn. lia. }
  destruct (G (offsetsFrom 0 n) 0%Z eq_refl ltac:(lia) Hn) as [G1 G2].
  change (Z.to_nat 0) with 0%nat in *. rewrite Nat.sub_0_r in G1.
  split; [exact G1|]. intros Hlong. apply G2. lia.
Qed.

Lemma windows_cover_the_waveform_witness :
  firstn 3 (stitch (buildWindows [1%Q; 2%Q; 3%Q])) = [1%Q; 2%Q; 3%Q].
Proof.
  destruct (windows_cover_the_waveform [1%Q; 2%Q; 3%Q]) as [H _];
    [discriminate|exact H].
Defined.

(** ** The job: what it posts *)

Section JobFacts.

Local Open Scope Q_scope.

Lemma mathMin_le_left (a b : Q) : mathMin a b <= a.
Proof.
  unfold mathMin. destruct (Qle_bool a b) eqn:E; [lra|].
  apply Qle_bool_false in E. lra.
Qed.

Lemma mathMin_le_right (a b : Q) : mathMin a b <= b.
Proof.
  unfold mathMin. destruct (Qle_bool a b) eqn:E; [|lra].
  now apply Qle_bool_iff in E.
Qed.

Lemma mathMin_glb (a b c : Q) : c <= a -> c <= b -> c <= mathMin a b.
Proof. unfold mathMin. now destruct (Qle_bool a b). Qed.

Lemma clamp_range (value : Q) : 0 <= mathMax 0 (mathMin 100 value) <= 100.
Proof.
  split; [apply mathMax_left|].
  apply mathMax_lub; [lra|apply mathMin_le_left].
Qed.

Lemma clamp_inside (value : Q) :
  0 <= value <= 100 -> mathMax 0 (mathMin 100 value) == value.
Proof.
  intros [H0 H1]. unfold mathMax, mathMin.
  destruct (Qle_bool 100 value) eqn:E1.
  - apply Qle_bool_iff in E1.
    destruct (Qle_bool 100 0) eqn:E2; [apply Qle_bool_iff in E2; lra|lra].
  - destruct (Qle_bool value 0) eqn:E2; [apply Qle_bool_iff in E2; lra|lra].
Qed.

Lemma normalizeProgress_range (raw : option Q) :
  0 <= normalizeProgress raw <= 100.
Proof. destruct raw as [raw|]; simpl; [apply clamp_range|lra]. Qed.

Lemma toSafeTimestamp_nonneg (value : TimestampValue) (fallback : Q) :
  0 <= fallback -> 0 <= toSafeTimestamp value fallback.
Proof. intros H. destruct value; simpl; [apply mathMax_left|exact H]. Qed.

Lemma chunkSegment_start (win : Window) (chunk : RawChunk) (segment : TranscriptSegment) :
  0 <= offsetS win ->
  chunkSegment win chunk = Some segment ->
  0 <= start segment /\ 0 <= end_ segment /\ text segment <> [].
Proof.
  intros Ho. unfold chunkSegment. destruct (match chunkText chunk with
                                            | Some t => trim t
                                            | None => []
                                            end) eqn:E; [discriminate|].
  intros H. injection H as <-. cbn [start end_ text].
  set (ts := match chunkTimestamp chunk with Some l => l | None => _ end).
  pose proof (toSafeTimestamp_nonneg (nth 0 ts TsOther) 0 ltac:(lra)) as H0.
  pose proof (toSafeTimestamp_nonneg (nth 1 ts TsOther) _ H0) as H1.
  split; [|split; [|discriminate]]; apply round_nonneg; lra.
Qed.

Lemma collectSegments_start (win : Window) (rawChunks : list RawChunk) :
  0 <= offsetS win ->
  Forall (fun s => 0 <= start s) (collectSegments win rawChunks).
Proof.
  intros Ho. induction rawChunks as [|chunk rest IH]; simpl; [constructor|].
  destruct (chunkSegment win chunk) eqn:E; [|exact IH].
  constructor; [|exact IH]. now destruct (chunkSegment_start _ _ _ Ho E).
Qed.

Variable toLowerCase : jsstring -> jsstring.
Variable transcriber : nat -> Float32Array -> Outcome.
Variable requestId : Z.

Lemma tryWindow_segments (i : nat) (win : Window) (st : LoopState) :
  0 <= offsetS win ->
  Forall (fun s => 0 <= start s) (allSegments st) ->
  Forall (fun s => 0 <= start s)
         (allSegments (tryWindow transcriber requestId i win st)).
Proof.
  intros Ho H. unfold tryWindow. destruct (transcriber i (data win)); [exact H|].
  assert (Hs : Forall (fun s => 0 <= start s)
                      (allSegments st ++ collectSegments win
                         match normalized with
                         | Some r => match resultChunks r with Some cs => cs | None => [] end
                         | None => []
                         end)).
  { apply Forall_app. split; [exact H|]. now apply collectSegments_start. }
  destruct (normalizeWhitespace _); exact Hs.
Qed.

Lemma processWindows_segments (totalWindows : nat) (windows : list Window) :
  forall i st,
    Forall (fun win => 0 <= offsetS win) windows ->
    Forall (fun s => 0 <= start s) (allSegments st) ->
    Forall (fun s => 0 <= start s)
           (allSegments (processWindows transcriber requestId totalWindows i windows st)).
Proof.
  induction windows as [|w windows IH]; intros i st Hw H; [exact H|].
  inversion Hw; subst. simpl. apply IH; [assumption|].
  unfold processWindow, postToMain. cbn [allSegments]. now apply tryWindow_segments.
Qed.

Lemma processWindows_interim (totalWindows : nat) (windows : list Window) :
  forall i st,
  exists extra,
    posted (processWindows transcriber requestId totalWindows i windows st)
    = posted st ++ extra
    /\ Forall (fun m => isInterim m = true) extra
    /\ Forall (fun m => match progressValue m with
                        | Some v => 0 <= v <= 100
                        | None => True
                        end) extra.
Proof.
  induction windows as [|w windows IH]; intros i st; simpl.
  - exists []. rewrite app_nil_r. repeat split; constructor.
  - destruct (IH (S i) (processWindow transcriber requestId totalWindows i w st))
      as (extra & E & Hk & Hv).
    rewrite E. unfold processWindow at 1. unfold postToMain at 1. cbn [posted].
    assert (Hp : match progressValue
                         (windowProgress requestId (Z.of_nat i + 1) (Z.of_nat totalWindows))
                 with Some v => 0 <= v <= 100 | None => True end)
      by (simpl; apply clamp_range).
    destruct (tryWindow_posted transcriber requestId i w st) as [T|[t T]]; rewrite T.
    + exists (windowProgress requestId (Z.of_nat i + 1) (Z.of_nat totalWindows) :: extra).
      split; [now rewrite <- app_assoc|]. split; constructor; auto.
    + exists (MsgPartial t requestId
              :: windowProgress requestId (Z.of_nat i + 1) (Z.of_nat totalWindows)
              :: extra).
      split; [now rewrite <- !app_assoc|].
      split; constructor; simpl; auto.
Qed.

End JobFacts.

Lemma sortBy_Forall (P : TranscriptSegment -> Prop) (l : list TranscriptSegment) :
  Forall P l -> Forall P (sortBy compareSegments l).
Proof.
  induction 1 as [|x l Hx Hl IH]; simpl; [constructor|]. now apply insertBy_Forall.
Qed.

Lemma dedupeStep_Forall (toLowerCase : jsstring -> jsstring)
  (P : TranscriptSegment -> Prop) (acc : list TranscriptSegment) (c : TranscriptSegment) :
  (forall prev next, P prev -> P (merged toLowerCase prev next)) ->
  P (cleaned c) -> Forall P acc -> Forall P (dedupeStep toLowerCase acc c).
Proof.
  intros Hm Hc Hacc. destruct (isBlank c) eqn:Bl.
  - now rewrite dedupeStep_blank.
  - destruct acc as [|prev older].
    + rewrite dedupeStep_first by assumption. now constructor.
    + rewrite dedupeStep_next by assumption. inversion Hacc; subst.
      destruct (mergeable toLowerCase prev (cleaned c)).
      * constructor; [now apply Hm|assumption].
      * constructor; [assumption|]. now constructor.
Qed.

(** What holds of the start of every input segment holds of the start of
    every merged segment: merging never moves a start. *)
Lemma dedupeSegments_starts (toLowerCase : jsstring -> jsstring)
  (P : Q -> Prop) (segments : list TranscriptSegment) :
  Forall (fun s => P (start s)) segments ->
  Forall (fun s => P (start s)) (dedupeSegments toLowerCase segments).
Proof.
  intros H. unfold dedupeSegments. apply Forall_rev.
  apply sortBy_Forall in H.
  assert (G : forall rest acc,
             Forall (fun s => P (start s)) rest ->
             Forall (fun s => P (start s)) acc ->
             Forall (fun s => P (start s)) (fold_left (dedupeStep toLowerCase) rest acc)).
  { induction rest as [|c rest IH]; intros acc Hr Hacc; [exact Hacc|].
    inversion Hr; subst. simpl. apply IH; [assumption|].
    apply dedupeStep_Forall; auto. }
  apply G; [exact H|constructor].
Qed.

(** X9: whatever the backend returns for the windows (missing, negative or
    non-finite timestamps, calls that throw), the job ends with a segments
    message and a result message that carry the same whitespace-normalized
    text, and the segments posted are ordered by start with
    [0 <= start <= end]; before them only partial texts, progress values
    between 0 and 100 and the transcribing status are posted. *)
Theorem transcript_is_well_formed
  (toLowerCase : jsstring -> jsstring)
  (transcriber : nat -> Float32Array -> Outcome) (requestId : Z)
  (device : option Device) (audio : Float32Array) :
  exists interim canonicalText segments,
    transcribe toLowerCase transcriber requestId device audio
    = MsgStatus Transcribing (Some requestId) None device :: interim
      ++ [MsgSegments requestId canonicalText segments;
          MsgResult canonicalText requestId;
          MsgStatus Ready (Some requestId) None None]
    /\ Forall (fun m => isInterim m = true) interim
    /\ Forall (fun m => match progressValue m with
                        | Some v => (0 <= v <= 100)%Q
                        | None => True
                        end) interim
    /\ isNormal canonicalText = true
    /\ StronglySorted (fun a b => (start a <= start b)%Q) segments
    /\ Forall (fun s => (0 <= start s <= end_ s)%Q) segments.
Proof.
  unfold transcribe.
  set (windows := buildWindows audio).
  set (st0 := mkLoopState [] [] _).
  set (st := processWindows transcriber requestId (length windows) 0 windows st0).
  destruct (processWindows_interim transcriber requestId (length windows) windows 0 st0)
    as (extra & E & Hk & Hv).
  fold st in E.
  set (raw := collapseConsecutiveRepeatedNgrams (join SPACE (accumulatedTexts st))).
  set (deduped := dedupeSegments toLowerCase (allSegments st)).
  set (segments := match deduped, raw with
                   | [], _ :: _ => [mkSegment raw 0 0]
                   | _, _ => deduped
                   end).
  set (canonical := match collapseConsecutiveRepeatedNgrams
                            (join SPACE (List.map text segments)) with
                    | [] => raw
                    | t => t
                    end).
  exists (MsgProgress (mkProgress TranscribingPhase 0%Q (Some requestId) (Some 0%Z)
                         (Some (Z.of_nat (length windows))) (Some 1%Z) (Some 1%Z)
                         None None None) :: extra), canonical, segments.
  split; [rewrite E; reflexivity|].
  split; [constructor; [reflexivity|exact Hk]|].
  split; [constructor; [simpl; lra|exact Hv]|].
  split.
  { unfold canonical.
    pose proof (collapse_isNormal (join SPACE (List.map text segments))) as Hn.
    destruct (collapseConsecutiveRepeatedNgrams (join SPACE (List.map text segments)));
      [apply collapse_isNormal|exact Hn]. }
  assert (Hwin : Forall (fun win => (0 <= offsetS win)%Q) windows).
  { unfold windows. destruct audio as [|x a]; [constructor|].
    rewrite buildWindows_spec by discriminate.
    apply Forall_map. unfold offsetsFrom. apply Forall_map.
    apply Forall_forall. intros k _. unfold windowAt. cbn [offsetS].
    unfold Qdiv. apply Qmult_le_0_compat.
    - change 0%Q with (inject_Z 0). rewrite <- Zle_Qle.
      destruct window_constants as (_ & HJ & _). lia.
    - apply Qinv_le_0_compat. discriminate. }
  assert (Hstart : Forall (fun s => (0 <= start s)%Q) deduped).
  { unfold deduped. apply dedupeSegments_starts.
    unfold st. apply processWindows_segments; [exact Hwin|constructor]. }
  destruct (dedupeSegments_shape toLowerCase (allSegments st)) as [Hlex Hwf].
  fold deduped in Hlex, Hwf.
  assert (Hsorted : StronglySorted (fun a b => (start a <= start b)%Q) deduped).
  { eapply StronglySorted_weaken; [|exact Hlex]. intros a b. apply lexLe_start. }
  assert (Hboth : Forall (fun s => (0 <= start s <= end_ s)%Q) deduped).
  { rewrite Forall_forall in *. intros s Hin. split; [now apply Hstart|].
    now destruct (Hwf s Hin). }
  unfold segments. destruct deduped as [|d ds].
  - destruct raw; [split; constructor|].
    split; [repeat constructor|]. constructor; [simpl; lra|constructor].
  - split; assumption.
Qed.

Section JobEdges.

Variable toLowerCase : jsstring -> jsstring.
Variable transcriber : nat -> Float32Array -> Outcome.
Variable requestId : Z.

Lemma processWindows_all_threw (totalWindows : nat) (windows : list Window) :
  (forall i samples, exists message, transcriber i samples = Threw message) ->
  forall i st,
    processWindows transcriber requestId totalWindows i windows st
    = mkLoopState (accumulatedTexts st) (allSegments st)
        (posted st
         ++ List.map (fun k => windowProgress requestId (Z.of_nat k + 1)
                                              (Z.of_nat totalWindows))
                     (seq i (length windows))).
Proof.
  intros Hall. induction windows as [|w windows IH]; intros i st; simpl.
  - rewrite app_nil_r. now destruct st.
  - destruct (Hall i (data w)) as [message Hm].
    rewrite (processWindow_threw transcriber requestId totalWindows i w st message Hm).
    rewrite IH. unfold postToMain. cbn [accumulatedTexts allSegments posted].
    now rewrite <- app_assoc.
Qed.

End JobEdges.

(** X10: when the backend call of every window throws, the job does not
    fail: it posts the transcribing status, the initial progress, one
    progress message per window, then an empty text with no segment, and the
    ready status; no error message is posted. *)
Theorem job_of_failed_windows_is_empty
  (toLowerCase : jsstring -> jsstring)
  (transcriber : nat -> Float32Array -> Outcome) (requestId : Z)
  (device : option Device) (audio : Float32Array) :
  (forall i samples, exists message, transcriber i samples = Threw message) ->
  let N := length (buildWindows audio) in
  transcribe toLowerCase transcriber requestId device audio
  = [MsgStatus Transcribing (Some requestId) None device;
     MsgProgress (mkProgress TranscribingPhase 0%Q (Some requestId) (Some 0%Z)
                    (Some (Z.of_nat N)) (Some 1%Z) (Some 1%Z) None None None)]
    ++ List.map (fun k => windowProgress requestId (Z.of_nat k + 1) (Z.of_nat N))
                (seq 0 N)
    ++ [MsgSegments requestId [] [];
        MsgResult [] requestId;
        MsgStatus Ready (Some requestId) None None].
Proof.
  intros Hall N. unfold transcribe. fold N.
  rewrite (processWindows_all_threw transcriber requestId N (buildWindows audio) Hall).
  cbn [accumulatedTexts allSegments posted]. fold N.
  change (dedupeSegments toLowerCase []) with (@nil TranscriptSegment).
  change (collapseConsecutiveRepeatedNgrams (join SPACE [])) with (@nil codeunit).
  cbn [List.map join].
  change (collapseConsecutiveRepeatedNgrams []) with (@nil codeunit).
  now rewrite <- app_assoc.
Qed.

Lemma job_of_failed_windows_is_empty_witness :
  let transcriber := fun (_ : nat) (_ : Float32Array) => Threw (lit "no tokens") in
  progressCounts (transcribe asciiLower transcriber 4 (Some Wasm) [0%Q; 0%Q])
  = [(0, 1); (1, 1)]%Z
  /\ In (MsgResult [] 4) (transcribe asciiLower transcriber 4 (Some Wasm) [0%Q; 0%Q]).
Proof.
  intros transcriber.
  rewrite (job_of_failed_windows_is_empty asciiLower transcriber 4 (Some Wasm) [0%Q; 0%Q]).
  - split; [reflexivity|]. simpl. tauto.
  - intros i samples. eexists. reflexivity.
Defined.

Section ProgressValues.

Local Open Scope Q_scope.

Lemma ratio_bounds (p t : Z) :
  (1 <= p <= t)%Z -> 0 < inject_Z p / inject_Z t /\ inject_Z p / inject_Z t <= 1.
Proof.
  intros [Hp Ht].
  assert (HT : 0 < inject_Z t)
    by (change 0 with (inject_Z 0); rewrite <- Zlt_Qlt; lia).
  assert (HP : 0 < inject_Z p)
    by (change 0 with (inject_Z 0); rewrite <- Zlt_Qlt; lia).
  split.
  - apply Qlt_shift_div_l; [exact HT|]. lra.
  - apply Qle_shift_div_r; [exact HT|]. rewrite Qmult_1_l, <- Zle_Qle. exact Ht.
Qed.

(** The share of the work that [processed / totalWindows * 100] stands for,
    as the machine computes it. *)
Lemma share_small (p t : Z) :
  (1 <= p)%Z -> (100 * p <= t)%Z ->
  Double.mul (Double.div (inject_Z p) (inject_Z t)) 100 <= 1.
Proof.
  intros Hp H.
  assert (HT : 0 < inject_Z t)
    by (change 0 with (inject_Z 0); rewrite <- Zlt_Qlt; lia).
  assert (Hx : inject_Z p / inject_Z t <= 1 # 100).
  { apply Qle_shift_div_r; [exact HT|].
    unfold Qle. cbn [Qnum Qden Qmult inject_Z]. lia. }
  assert (K : Double.round (Double.round (1 # 100) * 100) == 1)
    by (vm_compute; reflexivity).
  unfold Double.mul, Double.div. rewrite <- K.
  apply round_mono. apply Qmult_le_compat_r; [|lra]. now apply round_mono.
Qed.

Lemma share_large (p t : Z) :
  (1 <= p <= t)%Z -> (t < 2 ^ 35)%Z -> (t < 100 * p)%Z ->
  1 < Double.mul (Double.div (inject_Z p) (inject_Z t)) 100
  /\ Double.mul (Double.div (inject_Z p) (inject_Z t)) 100 <= 100.
Proof.
  intros [Hp Ht] Hbound H.
  assert (HT : 0 < inject_Z t)
    by (change 0 with (inject_Z 0); rewrite <- Zlt_Qlt; lia).
  destruct (ratio_bounds p t (conj Hp Ht)) as [_ Hx1].
  set (least := 34359738369 # 3435973836800).
  assert (Hx : least <= inject_Z p / inject_Z t).
  { apply Qle_shift_div_l; [exact HT|].
    change (2 ^ 35)%Z with 34359738368%Z in Hbound.
    unfold least, Qle. cbn [Qnum Qden Qmult inject_Z]. lia. }
  assert (K : 1 < Double.round (Double.round least * 100))
    by (vm_compute; reflexivity).
  assert (K1 : Double.round 1 == 1) by (vm_compute; reflexivity).
  assert (K100 : Double.round 100 == 100) by (vm_compute; reflexivity).
  unfold Double.mul, Double.div. split.
  - eapply Qlt_le_trans; [exact K|].
    apply round_mono. apply Qmult_le_compat_r; [|lra]. now apply round_mono.
  - assert (Hd : Double.round (inject_Z p / inject_Z t) <= 1)
      by (rewrite <- K1; now apply round_mono).
    apply Qle_trans with (Double.round 100); [|rewrite K100; lra].
    apply round_mono. lra.
Qed.

(** X11: the progress value posted after window [processed] of [total] is
    the double [(processed / total) * 100] only when that share exceeds
    1 %, that is when [100 * processed > total]: [normalizeProgress] takes a
    value of at most 1 for a fraction and multiplies it by 100 again, so in
    a job of 100 windows or more the first messages report that double
    times 100 once more (capped at 100).  The number of windows is below
    2^35, as no array is long enough for more. *)
Theorem window_progress_value (requestId processed total : Z) :
  (1 <= processed <= total)%Z ->
  (total < 2 ^ 35)%Z ->
  let share := Double.mul (Double.div (inject_Z processed) (inject_Z total)) 100 in
  exists v,
    progressValue (windowProgress requestId processed total) = Some v
    /\ ((total < 100 * processed)%Z -> 1 < share /\ share <= 100 /\ v == share)
    /\ ((100 * processed <= total)%Z ->
        share <= 1 /\ v == mathMin 100 (Double.mul share 100)).
Proof.
  intros Hpt Hbound share. eexists. split; [reflexivity|].
  cbn [windowProgress Protocol.progress normalizeProgress]. fold share.
  split.
  - intros H. destruct (share_large processed total Hpt Hbound H) as [H1 H100].
    fold share in H1, H100.
    assert (E : Qle_bool share 1 = false).
    { destruct (Qle_bool share 1) eqn:F; [|reflexivity].
      apply Qle_bool_iff in F. lra. }
    rewrite E. split; [exact H1|]. split; [exact H100|].
    apply clamp_inside. lra.
  - intros H. pose proof (share_small processed total (proj1 Hpt) H) as H1.
    fold share in H1.
    assert (E : Qle_bool share 1 = true) by (now apply Qle_bool_iff).
    rewrite E. split; [exact H1|].
    assert (H0 : 0 <= share).
    { unfold share, Double.mul. apply round_nonneg.
      destruct (ratio_bounds processed total Hpt) as [Hx _].
      pose proof (round_nonneg (inject_Z processed / inject_Z total)) as Hd.
      unfold Double.div. lra. }
    assert (Hm : 0 <= mathMin 100 (Double.mul share 100)).
    { apply mathMin_glb; [lra|]. unfold Double.mul. apply round_nonneg. lra. }
    unfold mathMax.
    destruct (Qle_bool (mathMin 100 (Double.mul share 100)) 0) eqn:F;
      [apply Qle_bool_iff in F; lra|reflexivity].
Qed.

Lemma window_progress_value_witness :
  exists v, progressValue (windowProgress 1 1 200) = Some v /\ v == 50.
Proof.
  destruct (window_progress_value 1 1 200 ltac:(lia) ltac:(reflexivity))
    as (v & E & _ & Hv).
  exists v. split; [exact E|].
  destruct (Hv ltac:(lia)) as [_ Hv']. rewrite Hv'. vm_compute. reflexivity.
Defined.

End ProgressValues.

(** ** The page: what the handlers keep *)

Section PageInvariants.

Import Page.

Ltac split_cases :=
  repeat match goal with
         | |- context [match ?x with _ => _ end] => destruct x eqn:?
         | |- context [if ?b then _ else _] => destruct b eqn:?
         end.

(** Only an event of the active request that is a partial text, the
    segments or the result writes the transcript. *)
Lemma handleWorkerMessage_transcript (now : Clock) (st : PageState)
  (message : WorkerResponse) :
  writesTranscript (activeRequestId st) message = false ->
  output (handleWorkerMessage now st message) = output st
  /\ segments (handleWorkerMessage now st message) = segments st.
Proof.
  intros H.
  destruct message as [s rid d dev|info|t rid|rid t segs|t rid|e rid];
    simpl in H; unfold handleWorkerMessage;
    try rewrite H; cbn [negb];
    unfold handleStatus, handleProgress, setDeviceIfAny;
    split_cases; split; reflexivity.
Qed.

Lemma handleWorkerMessage_progress (now : Clock) (st : PageState)
  (message : WorkerResponse) :
  (0 <= progress (gauges st) <= 100)%Q ->
  (0 <= progress (gauges (handleWorkerMessage now st message)) <= 100)%Q.
Proof.
  intros H. pose proof (clamp_range) as Hc. unfold clampProgress in *.
  destruct message as [s rid d dev|info|t rid|rid t segs|t rid|e rid];
    unfold handleWorkerMessage, handleStatus, handleProgress, setDeviceIfAny,
           clampProgress;
    split_cases; cbn; try exact H; try apply Hc; try lra.
Qed.

Lemma cancelTranscription_progress (st : PageState) :
  progress (gauges (cancelTranscription st)) = 0%Q.
Proof. unfold cancelTranscription. split_cases; reflexivity. Qed.

Lemma cancelTranscription_transcript (st : PageState) :
  output (cancelTranscription st) = output st
  /\ segments (cancelTranscription st) = segments st.
Proof. unfold cancelTranscription. split_cases; split; reflexivity. Qed.

Lemma startTranscription_progress (isMobile workerAvailable : bool)
  (file : File) (st : PageState) :
  (0 <= progress (gauges st) <= 100)%Q ->
  (0 <= progress (gauges (startTranscription isMobile workerAvailable file st))
   <= 100)%Q.
Proof.
  intros H. unfold startTranscription.
  destruct (fileSize file <=? MAX_FILE_SIZE)%Z;
    destruct (status st); destruct isMobile, workerAvailable; cbn [negb andb];
    cbn [progress gauges setError setStatus setAbortController onGauges setGauges
         setIsViaCloud clearProgressState setSegments setOutput setActiveFileName
         setActiveRequestId setProgress setLoadingDetail setProgressPhase
         setTranscribeStartedAt setTotalSlices setCurrentSlice setTotalBytes
         setDownloadedBytes setEtaSeconds setTotalChunks setProcessedChunks];
    rewrite ?cancelTranscription_progress; try exact H; lra.
Qed.

End PageInvariants.

(** X12: whatever the worker sends and whatever is cancelled or started, the
    progress that the page shows stays between 0 and 100. *)
Theorem page_progress_stays_in_range
  (events : list Page.PageEvent) (st : Page.PageState) :
  (0 <= Page.progress (Page.gauges st) <= 100)%Q ->
  (0 <= Page.progress (Page.gauges (Page.run events st)) <= 100)%Q.
Proof.
  revert st. induction events as [|e events IH]; intros st H; [exact H|].
  unfold Page.run in *. simpl fold_left. apply IH.
  destruct e as [now message| |isMobile workerAvailable file]; simpl.
  - now apply handleWorkerMessage_progress.
  - rewrite cancelTranscription_progress. lra.
  - now apply startTranscription_progress.
Qed.

Lemma page_progress_stays_in_range_witness :
  let st := Page.mkPage 0 Page.Idle [] [] None None None false false false false
              (Page.mkGauges 0 None None None None None None None None None None) in
  let wild := MsgProgress (mkProgress Download 250 None None None None None
                             None None None) in
  Qeq (Page.progress (Page.gauges (Page.run [Page.Deliver (Page.mkClock 0 0) wild] st))) 100.
Proof.
  intros st wild.
  pose proof (page_progress_stays_in_range [Page.Deliver (Page.mkClock 0 0) wild] st) as H.
  assert (H0 : (0 <= Page.progress (Page.gauges st) <= 100)%Q) by (simpl; lra).
  specialize (H H0). reflexivity.
Defined.

(** X13: on the desktop path (the page is not in cloud mode and holds a
    worker), a started transcription takes a request id above the previous
    one and shows an empty transcript, and the transcript stays empty
    whatever the worker sends, until a partial text, the segments or the
    result of the new request arrives: no other message writes the output
    or the segments.  Without a worker the call ends at once in the error
    status and leaves the transcript as it is. *)
Theorem new_job_starts_from_an_empty_transcript
  (file : Page.File) (st : Page.PageState)
  (messages : list (Page.Clock * WorkerResponse)) :
  let started := Page.startTranscription false true file st in
  let refused := Page.startTranscription false false file st in
  Forall (fun tm => writesTranscript (Page.activeRequestId started) (snd tm) = false)
         messages ->
  (Page.activeRequestId st < Page.activeRequestId started)%Z
  /\ Page.output (Page.run (deliveries messages) started) = []
  /\ Page.segments (Page.run (deliveries messages) started) = []
  /\ Page.status refused = Page.StatusError
  /\ Page.output refused = Page.output st
  /\ Page.segments refused = Page.segments st.
Proof.
  intros started refused Hm.
  assert (Hstart : (Page.activeRequestId st < Page.activeRequestId started)%Z
                   /\ Page.output started = [] /\ Page.segments started = []).
  { unfold started, Page.startTranscription.
    destruct (Page.status st); cbn;
      rewrite ?cancelTranscription_id; repeat split; lia. }
  destruct Hstart as (Hid & Ho & Hs).
  destruct (cancelTranscription_transcript st) as [Co Cs].
  split; [exact Hid|].
  assert (G : forall ms s,
             Forall (fun tm => writesTranscript (Page.activeRequestId s) (snd tm) = false) ms ->
             Page.output (Page.run (deliveries ms) s) = Page.output s
             /\ Page.segments (Page.run (deliveries ms) s) = Page.segments s).
  { induction ms as [|[now m] ms IH]; intros s H; [split; reflexivity|].
    inversion H as [|? ? Hm1 Hms]; subst. simpl in Hm1.
    unfold Page.run, deliveries in *. simpl.
    destruct (handleWorkerMessage_transcript now s m Hm1) as [E1 E2].
    rewrite <- E1, <- E2. apply IH.
    now rewrite handleWorkerMessage_keeps_id. }
  destruct (G messages started Hm) as [G1 G2].
  split; [now rewrite G1|]. split; [now rewrite G2|].
  unfold refused, Page.startTranscription.
  destruct (Page.status st); cbn; rewrite ?Co, ?Cs; repeat split.
Qed.

Lemma new_job_starts_from_an_empty_transcript_witness :
  let st := Page.mkPage 4 Page.StatusReady (lit "the previous transcript")
              [mkSegment (lit "the previous transcript") 0 2] None
              (Some (lit "old.wav")) (Some Wasm) true true false false
              (Page.mkGauges 0 None None None None None None None None None None) in
  let late := [(Page.mkClock 10 10, MsgPartial (lit "late words") 4);
               (Page.mkClock 11 11, MsgStatus Loading None (Some (lit "compiling")) None);
               (Page.mkClock 12 12, MsgResult (lit "late result") 4)] in
  let file := Page.mkFile (lit "new.wav") 1000000 in
  Page.output (Page.run (deliveries late)
                        (Page.startTranscription false true file st)) = []
  /\ Page.output (Page.startTranscription false false file st)
     = lit "the previous transcript".
Proof.
  intros st late file.
  destruct (new_job_starts_from_an_empty_transcript file st late)
    as (_ & H & _ & _ & H' & _); [|split; [exact H|exact H']].
  repeat constructor.
Defined.

Section EtaFacts.

Import Page.

Local Open Scope Z_scope.

Lemma estimateRemaining_nonneg (now startedAt processed total : Z) :
  startedAt <= now -> 0 < processed ->
  0 <= estimateRemaining now startedAt processed total.
Proof.
  intros Hn Hp. unfold estimateRemaining, Double.mul, Double.div.
  change 0 with (Qceiling 0) at 1. apply Qceiling_resp_le.
  apply round_nonneg. apply Qmult_le_0_compat.
  - apply round_nonneg. unfold Qdiv. apply Qmult_le_0_compat.
    + apply round_nonneg. apply Qmult_le_0_compat.
      * change 0%Q with (inject_Z 0). rewrite <- Zle_Qle. lia.
      * apply Qinv_le_0_compat. discriminate.
    + apply Qinv_le_0_compat. change 0%Q with (inject_Z 0). rewrite <- Zle_Qle. lia.
  - change 0%Q with (inject_Z 0). rewrite <- Zle_Qle. lia.
Qed.

Lemma estimateRemaining_done (now startedAt processed : Z) :
  estimateRemaining now startedAt processed processed = 0.
Proof.
  unfold estimateRemaining, Double.mul. rewrite Z.sub_diag.
  change (Z.max 0 0) with 0.
  rewrite (Qceiling_comp _ 0); [reflexivity|].
  apply round_zero. change (inject_Z 0) with 0%Q. apply Qmult_0_r.
Qed.

Lemma estimateRemaining_at_start (now processed total : Z) :
  estimateRemaining now now processed total = 0.
Proof.
  unfold estimateRemaining, Double.mul, Double.div. rewrite Z.sub_diag.
  assert (E1 : (Double.round (inject_Z 0 / 1000) == 0)%Q).
  { apply round_zero. unfold Qdiv. change (inject_Z 0) with 0%Q. apply Qmult_0_l. }
  assert (E2 : (Double.round (Double.round (inject_Z 0 / 1000) / inject_Z processed)
                == 0)%Q).
  { apply round_zero. unfold Qdiv at 1. rewrite E1. apply Qmult_0_l. }
  rewrite (Qceiling_comp _ 0); [reflexivity|].
  apply round_zero. rewrite E2. apply Qmult_0_l.
Qed.

(** X14: a transcribing progress of the active request that counts
    [processed] chunks out of [total], [0 < processed <= total], always sets
    an estimate of the remaining seconds, [Math.ceil] of the product that the
    machine computes from the time elapsed since the first progress of the
    job: it is not negative as long as the clock has not gone back since
    then, it is 0 when all chunks are processed, and it is 0 when this is
    the first progress message seen (the job is then timed from the first
    reading of the clock) and the second reading of the clock gives the same
    time. *)
Theorem progress_sets_the_estimate
  (now : Clock) (st : PageState) (info : ProgressInfo) (processed total' : Z) :
  phase info = TranscribingPhase ->
  isStale (progressRequestId info) st = false ->
  Protocol.processedChunks info = Some processed ->
  Protocol.totalChunks info = Some total' ->
  0 < processed <= total' ->
  let startedAt := match transcribeStartedAt (gauges st) with
                   | Some t => t
                   | None => firstNow now
                   end in
  let st' := handleWorkerMessage now st (MsgProgress info) in
  etaSeconds (gauges st')
  = Some (estimateRemaining (secondNow now) startedAt processed total')
  /\ transcribeStartedAt (gauges st') = Some startedAt
  /\ (startedAt <= secondNow now ->
      0 <= estimateRemaining (secondNow now) startedAt processed total')
  /\ (processed = total' -> etaSeconds (gauges st') = Some 0)
  /\ (transcribeStartedAt (gauges st) = None -> secondNow now = firstNow now ->
      etaSeconds (gauges st') = Some 0).
Proof.
  intros Hph Hstale Hp Ht [Hpos Hle] startedAt st'.
  assert (E : etaSeconds (gauges st')
              = Some (estimateRemaining (secondNow now) startedAt processed total')
              /\ transcribeStartedAt (gauges st') = Some startedAt).
  { unfold st', handleWorkerMessage. rewrite Hph, Hstale.
    unfold handleProgress. rewrite Hph, Hp, Ht.
    assert (Hc : ((processed >? 0) && (total' >=? processed)) = true).
    { apply andb_true_intro. split; [apply Z.gtb_lt; lia|].
      rewrite Z.geb_leb. apply Z.leb_le. lia. }
    rewrite Hc. unfold startedAt.
    destruct (Protocol.currentSlice info), (Protocol.totalSlices info);
      cbn; split; reflexivity. }
  destruct E as [E1 E2]. split; [exact E1|]. split; [exact E2|].
  split; [intros Hclock; now apply estimateRemaining_nonneg|]. split.
  - intros ->. rewrite E1. f_equal. apply estimateRemaining_done.
  - intros Hnone Hsame. rewrite E1. f_equal. unfold startedAt.
    rewrite Hnone, Hsame. apply estimateRemaining_at_start.
Qed.

Lemma progress_sets_the_estimate_witness :
  let st := mkPage 2 StatusTranscribing [] [] None (Some (lit "talk.wav")) (Some Webgpu)
              true true false false
              (mkGauges 0 (Some TranscribingPhase) (Some 2) (Some 13)
                        None None None None (Some 1) (Some 1) (Some 1000)) in
  let info := mkProgress TranscribingPhase 25 (Some 2) (Some 3) (Some 13)
                         (Some 1) (Some 1) None None None in
  etaSeconds (gauges (handleWorkerMessage (mkClock 3100 3100) st (MsgProgress info)))
  = Some 8.
Proof.
  intros st info.
  destruct (progress_sets_the_estimate (mkClock 3100 3100) st info 3 13
              eq_refl eq_refl eq_refl eq_refl)
    as (E & _); [lia|].
  rewrite E. vm_compute. reflexivity.
Defined.

End EtaFacts.

(** ** Loading the pipeline: what the loader keeps *)

Section LoaderFacts.

Import Loader.

Lemma filter_copies (n : nat) (l : list WorkerResponse) :
  length (filter isAnswer (copies n l)) = n * length (filter isAnswer l).
Proof.
  induction n as [|n IH]; [reflexivity|]. simpl.
  rewrite filter_app, length_app, IH. reflexivity.
Qed.

Ltac loader_case :=
  repeat split; intros; try discriminate; try lia; try tauto;
  try (exfalso;
       match goal with
       | H3 : _ <-> ?d <> None, H : ?d <> None |- _ =>
           apply H3 in H; discriminate
       end).

Lemma step_consistent (st : LoaderState) (e : LoaderEvent) :
  consistent st -> consistent (step st e).
Proof.
  destruct st as [promise device waiters messages calls settled].
  unfold consistent, inFlight. simpl. intros (H1 & H2 & H3 & H4).
  destruct e as [|failure]; simpl; unfold request, settle; simpl.
  - destruct promise as [[d|]|]; simpl; rewrite ?length_app; simpl.
    + loader_case.
    + loader_case.
    + rewrite (H4 eq_refl). loader_case.
  - destruct promise as [[d|]|]; simpl.
    + destruct failure as [msg|]; [destruct d|]; simpl;
        rewrite ?length_app; simpl; loader_case.
    + loader_case.
    + loader_case.
Qed.

Lemma run_consistent (events : list LoaderEvent) :
  forall st, consistent st -> consistent (run events st).
Proof.
  induction events as [|e events IH]; intros st H; [exact H|].
  unfold run in *. simpl. apply IH. now apply step_consistent.
Qed.

Lemma initial_consistent : consistent initial.
Proof.
  unfold consistent, initial. simpl.
  repeat split; try discriminate; try contradiction; reflexivity.
Qed.

Lemma step_answers (st : LoaderState) (e : LoaderEvent) :
  answers (step st e) + waiting (step st e)
  = answers st + waiting st
    + match e with Requested => 1 | Settled _ => 0 end.
Proof.
  unfold answers. destruct e as [|failure]; simpl; unfold request, settle.
  - destruct (transcriberPromise st) as [[d|]|]; cbn.
    + lia.
    + rewrite filter_app, length_app. simpl. lia.
    + rewrite !filter_app, !length_app. simpl. lia.
  - destruct (transcriberPromise st) as [[d|]|]; cbn; try lia.
    destruct failure as [msg|]; [destruct d|]; cbn.
    + rewrite !filter_app, !length_app. simpl. lia.
    + rewrite filter_app, length_app, filter_copies. simpl. lia.
    + rewrite filter_app, length_app, filter_copies. simpl. lia.
Qed.

End LoaderFacts.

(** X15: whatever the order of the calls of [getTranscriber] and of the
    settling of the builds, at most one [pipeline(...)] build is in flight;
    no call waits unless a build is in flight; and every call that no longer
    waits has been answered exactly once, by a ready status or by an error
    message. *)
Theorem one_build_in_flight (events : list Loader.LoaderEvent) :
  let st := Loader.run events Loader.initial in
  length (Loader.pipelineCalls st) = Loader.pipelineSettled st + Loader.inFlight st
  /\ Loader.inFlight st <= 1
  /\ (Loader.inFlight st = 0 -> Loader.waiting st = 0)
  /\ Loader.answers st + Loader.waiting st = Loader.requests events.
Proof.
  intros st.
  destruct (run_consistent events Loader.initial initial_consistent)
    as (H1 & H2 & _).
  fold st in H1, H2. split; [exact H1|]. split; [|split; [exact H2|]].
  - unfold Loader.inFlight. destruct (Loader.transcriberPromise st) as [[d|]|]; lia.
  - unfold st. clear.
    assert (G : forall evs s,
               Loader.answers (Loader.run evs s) + Loader.waiting (Loader.run evs s)
               = Loader.answers s + Loader.waiting s + Loader.requests evs).
    { induction evs as [|e evs IH]; intros s; [unfold Loader.requests; simpl; lia|].
      unfold Loader.run in *. simpl fold_left. rewrite IH, step_answers.
      unfold Loader.requests. destruct e; simpl; lia. }
    rewrite G. reflexivity.
Qed.


Section LoaderRuns.

Import Loader.

Lemma copies_app {A : Type} (n m : nat) (l : list A) :
  copies (n + m) l = copies n l ++ copies m l.
Proof.
  induction n as [|n IH]; [reflexivity|]. simpl. rewrite IH, app_assoc. reflexivity.
Qed.

Lemma run_app (xs ys : list LoaderEvent) (st : LoaderState) :
  run (xs ++ ys) st = run ys (run xs st).
Proof. unfold run. apply fold_left_app. Qed.

Lemma requests_while_pending (n : nat) :
  forall d device waiters messages calls settled,
    run (repeat Requested n)
        (mkLoader (Some (Pending d)) device waiters messages calls settled)
    = mkLoader (Some (Pending d)) device (n + waiters) messages calls settled.
Proof.
  induction n as [|n IH]; intros; [reflexivity|].
  unfold run in *. simpl fold_left. unfold request at 1. simpl.
  rewrite IH. f_equal. lia.
Qed.

End LoaderRuns.

(** X16: once the pipeline is loaded, it stays loaded on the same device:
    whatever happens afterwards, no further build is started, and each
    further call of [getTranscriber] is answered at once by one ready status
    bearing that device, and by nothing else. *)
Theorem loaded_pipeline_is_reused
  (st : Loader.LoaderState) (events : list Loader.LoaderEvent)
  (Hloaded : Loader.transcriberPromise st = Some Loader.Fulfilled) :
  Loader.run events st
  = Loader.mkLoader (Some Loader.Fulfilled) (Loader.activeDevice st)
      (Loader.waiting st)
      (Loader.posted st
       ++ Loader.copies (Loader.requests events)
            [Loader.readyMessage (Loader.activeDevice st)])
      (Loader.pipelineCalls st) (Loader.pipelineSettled st).
Proof.
  revert st Hloaded.
  induction events as [|e events IH]; intros st Hloaded.
  - destruct st as [promise device waiters messages calls settled].
    simpl in *. subst promise. unfold Loader.requests. simpl.
    rewrite app_nil_r. reflexivity.
  - unfold Loader.run in *. simpl fold_left.
    destruct st as [promise device waiters messages calls settled].
    simpl in Hloaded. subst promise.
    destruct e as [|failure].
    + simpl Loader.step. unfold Loader.request, Loader.post. simpl.
      rewrite IH by reflexivity. simpl. unfold Loader.requests. simpl.
      rewrite <- app_assoc. reflexivity.
    + simpl Loader.step. unfold Loader.settle. simpl.
      rewrite IH by reflexivity. reflexivity.
Qed.

Lemma loaded_pipeline_is_reused_witness :
  let st := Loader.run [Loader.Requested; Loader.Settled None] Loader.initial in
  let events := [Loader.Requested; Loader.Settled (Some (lit "late")); Loader.Requested] in
  Loader.transcriberPromise st = Some Loader.Fulfilled
  /\ Loader.run events st
     = Loader.mkLoader (Some Loader.Fulfilled) (Loader.activeDevice st)
         (Loader.waiting st)
         (Loader.posted st
          ++ Loader.copies (Loader.requests events)
               [Loader.readyMessage (Loader.activeDevice st)])
         (Loader.pipelineCalls st) (Loader.pipelineSettled st).
Proof.
  intros st events. split; [reflexivity|].
  apply (loaded_pipeline_is_reused st events). reflexivity.
Defined.

(** X17: when the worker is idle (no promise, nobody waiting) and one or more
    calls of [getTranscriber] arrive, a single WebGPU build is started; if it
    fails, a single WASM build follows.  If that one succeeds, every caller
    receives a ready status bearing the device wasm.  If it fails too, every
    caller receives an error status and an error message carrying the message
    of the WASM failure (not that of the WebGPU failure), and the worker is
    idle again, so that the next call starts over with WebGPU. *)
Theorem webgpu_failure_falls_back_to_wasm
  (st : Loader.LoaderState) (n : nat) (webGpuError wasmError : jsstring)
  (Hidle : Loader.transcriberPromise st = None)
  (Hnone : Loader.waiting st = 0) :
  let calls := repeat Loader.Requested (S n) in
  let preamble :=
    [MsgStatus Loading None (Some (lit "Initialising model" ++ [Loader.ELLIPSIS])) None;
     MsgStatus Loading None
       (Some (lit "Initialising model on WEBGPU" ++ [Loader.ELLIPSIS])) None;
     MsgStatus Loading None
       (Some (lit "WebGPU not available " ++ [Loader.EM_DASH]
              ++ lit " falling back to WASM" ++ [Loader.ELLIPSIS])) None;
     MsgStatus Loading None
       (Some (lit "Initialising model on WASM" ++ [Loader.ELLIPSIS])) None] in
  Loader.run (calls ++ [Loader.Settled (Some webGpuError); Loader.Settled None]) st
  = Loader.mkLoader (Some Loader.Fulfilled) (Some Wasm) 0
      (Loader.posted st ++ preamble
       ++ Loader.copies (S n) [Loader.readyMessage (Some Wasm)])
      (Loader.pipelineCalls st ++ [Webgpu; Wasm]) (S (S (Loader.pipelineSettled st)))
  /\ Loader.run (calls ++ [Loader.Settled (Some webGpuError);
                           Loader.Settled (Some wasmError)]) st
     = Loader.mkLoader None None 0
         (Loader.posted st ++ preamble
          ++ Loader.copies (S n) (Loader.failureMessages wasmError))
         (Loader.pipelineCalls st ++ [Webgpu; Wasm]) (S (S (Loader.pipelineSettled st))).
Proof.
  intros calls preamble.
  destruct st as [promise device waiters messages builds settled].
  simpl in Hidle, Hnone. subst promise waiters.
  unfold calls. rewrite !run_app.
  change (repeat Loader.Requested (S n))
    with (Loader.Requested :: repeat Loader.Requested n).
  unfold Loader.run at 2 4. simpl fold_left at 1 2.
  unfold Loader.request at 1 2. simpl.
  fold (Loader.run (repeat Loader.Requested n)).
  rewrite !requests_while_pending.
  unfold Loader.run. simpl. unfold Loader.settle. simpl.
  replace (n + 1) with (S n) by lia.
  rewrite <- !app_assoc. simpl.
  split; reflexivity.
Qed.

Lemma webgpu_failure_falls_back_to_wasm_witness :
  let calls := repeat Loader.Requested 2 in
  let preamble :=
    [MsgStatus Loading None (Some (lit "Initialising model" ++ [Loader.ELLIPSIS])) None;
     MsgStatus Loading None
       (Some (lit "Initialising model on WEBGPU" ++ [Loader.ELLIPSIS])) None;
     MsgStatus Loading None
       (Some (lit "WebGPU not available " ++ [Loader.EM_DASH]
              ++ lit " falling back to WASM" ++ [Loader.ELLIPSIS])) None;
     MsgStatus Loading None
       (Some (lit "Initialising model on WASM" ++ [Loader.ELLIPSIS])) None] in
  Loader.run (calls ++ [Loader.Settled (Some (lit "no adapter")); Loader.Settled None])
             Loader.initial
  = Loader.mkLoader (Some Loader.Fulfilled) (Some Wasm) 0
      (Loader.posted Loader.initial ++ preamble
       ++ Loader.copies 2 [Loader.readyMessage (Some Wasm)])
      (Loader.pipelineCalls Loader.initial ++ [Webgpu; Wasm])
      (S (S (Loader.pipelineSettled Loader.initial)))
  /\ Loader.run (calls ++ [Loader.Settled (Some (lit "no adapter"));
                           Loader.Settled (Some (lit "out of memory"))])
                Loader.initial
     = Loader.mkLoader None None 0
         (Loader.posted Loader.initial ++ preamble
          ++ Loader.copies 2 (Loader.failureMessages (lit "out of memory")))
         (Loader.pipelineCalls Loader.initial ++ [Webgpu; Wasm])
         (S (S (Loader.pipelineSettled Loader.initial))).
Proof.
  exact (webgpu_failure_falls_back_to_wasm Loader.initial 1
           (lit "no adapter") (lit "out of memory") eq_refl eq_refl).
Defined.

(** ** The cloud path: chunks and combined text *)

Section CloudFacts.

Import Cloud.
Local Open Scope Z_scope.

Lemma ceilDiv_step (a b : Z) :
  0 < b -> 0 < a -> ceilDiv a b = 1 + ceilDiv (Z.max 0 (a - b)) b.
Proof.
  intros Hb Ha. unfold ceilDiv. destruct (Z_le_gt_dec a b) as [H|H].
  - rewrite Z.max_l by lia.
    assert (E : (- a) / b = -1)
      by (symmetry; apply (Z.div_unique _ _ _ (b - a)); lia).
    rewrite E. change (- 0) with 0. rewrite Z.div_0_l by lia. reflexivity.
  - rewrite Z.max_r by lia.
    replace (- a) with (- (a - b) + (-1) * b) by lia.
    rewrite Z.div_add by lia. lia.
Qed.

Lemma ceilDiv_nonneg (a b : Z) : 0 < b -> 0 <= a -> 0 <= ceilDiv a b.
Proof.
  intros Hb Ha. unfold ceilDiv.
  assert ((- a) / b <= 0) by (apply Z.div_le_upper_bound; lia). lia.
Qed.

Lemma ceilDiv_covers (a b : Z) :
  0 < b -> a <= ceilDiv a b * b /\ (ceilDiv a b - 1) * b < a.
Proof.
  intros Hb. unfold ceilDiv.
  pose proof (Z.mul_div_le (- a) b Hb).
  pose proof (Z.mul_succ_div_gt (- a) b Hb). lia.
Qed.

Lemma chunkLoop_spec (audio : Float32Array) (fuel : nat) :
  forall i chunks,
    0 <= i ->
    arrayLength audio - i < Z.of_nat fuel ->
    chunkLoop fuel audio i chunks
    = chunks
      ++ List.map (fun k => chunkAt audio (i + Z.of_nat k * SAMPLES_PER_CHUNK))
           (seq 0 (Z.to_nat (ceilDiv (Z.max 0 (arrayLength audio - i))
                                     SAMPLES_PER_CHUNK))).
Proof.
  induction fuel as [|f IH]; intros i chunks Hi Hf.
  - simpl. rewrite Z.max_l by lia. simpl. now rewrite app_nil_r.
  - cbn [chunkLoop]. destruct (i <? arrayLength audio) eqn:E.
    + apply Z.ltb_lt in E.
      rewrite IH by (unfold SAMPLES_PER_CHUNK, CHUNK_DURATION_S; lia).
      rewrite (Z.max_r 0 (arrayLength audio - i)) by lia.
      rewrite (ceilDiv_step (arrayLength audio - i) SAMPLES_PER_CHUNK)
        by (try reflexivity; lia).
      replace (arrayLength audio - i - SAMPLES_PER_CHUNK)
        with (arrayLength audio - (i + SAMPLES_PER_CHUNK)) by lia.
      set (c := ceilDiv (Z.max 0 (arrayLength audio - (i + SAMPLES_PER_CHUNK)))
                        SAMPLES_PER_CHUNK).
      assert (Hc : 0 <= c) by (apply ceilDiv_nonneg; [reflexivity|lia]).
      replace (Z.to_nat (1 + c)) with (S (Z.to_nat c)) by lia.
      cbn [seq List.map]. rewrite <- seq_shift, map_map, <- app_assoc.
      cbn [app]. rewrite Z.mul_0_l, Z.add_0_r. do 2 f_equal.
      apply map_ext. intros k. f_equal. lia.
    + apply Z.ltb_ge in E. rewrite Z.max_l by lia. simpl.
      now rewrite app_nil_r.
Qed.

Lemma firstn_plus {A : Type} (a b : nat) (l : list A) :
  firstn (a + b) l = firstn a l ++ firstn b (skipn a l).
Proof.
  revert l. induction a as [|a IH]; intros l; [reflexivity|].
  destruct l as [|x l]; simpl; [now destruct b|]. now rewrite IH.
Qed.

Lemma slices_concat (audio : Float32Array) (size : Z) (n : nat) :
  0 <= size ->
  concat (List.map (fun k => slice audio (Z.of_nat k * size) (Z.of_nat k * size + size))
                   (seq 0 n))
  = firstn (n * Z.to_nat size) audio.
Proof.
  intros Hs. induction n as [|n IH]; [reflexivity|].
  rewrite seq_S, map_app, concat_app, IH. simpl. rewrite app_nil_r.
  unfold slice.
  replace (Z.to_nat (Z.of_nat n * size + size - Z.of_nat n * size))
    with (Z.to_nat size) by lia.
  replace (Z.to_nat (Z.of_nat n * size)) with (n * Z.to_nat size)%nat by nia.
  rewrite <- firstn_plus. f_equal. lia.
Qed.

Lemma join_cons (w : jsstring) (ws : list jsstring) :
  join SPACE (w :: ws) = w ++ concat (List.map (cons SPACE) ws).
Proof.
  revert w. induction ws as [|v ws IH]; intros w.
  - simpl. now rewrite app_nil_r.
  - change (join SPACE (w :: v :: ws)) with (w ++ SPACE :: join SPACE (v :: ws)).
    rewrite IH. reflexivity.
Qed.

Lemma accumulate_nonempty (answers : list (CloudResult * Q)) :
  forall t segs,
    t <> [] ->
    fst (fold_left accumulate answers (t, segs))
    = t ++ concat (List.map (fun a => SPACE :: textOf (fst a)) answers).
Proof.
  induction answers as [|[result offsetS] answers IH]; intros t segs Ht.
  - simpl. now rewrite app_nil_r.
  - cbn [fold_left]. destruct t as [|c t]; [contradiction|].
    cbn [accumulate]. rewrite IH by (simpl; discriminate).
    cbn [List.map concat fst]. rewrite <- !app_assoc. reflexivity.
Qed.

End CloudFacts.

(** X18: the chunks that the page cuts from a decoded file too large for one
    upload are consecutive pieces of 10 minutes (9600000 samples), the last
    one shorter when the length is no multiple: there are
    ceil(len / 9600000) of them, the k-th one starts at second 600 k, none
    is empty, and put end to end they give back the samples of the file,
    each one once (unlike the windows of the worker, they do not overlap). *)
Theorem cloud_chunks_partition (audioData : Float32Array) :
  let n := Z.to_nat (ceilDiv (arrayLength audioData) Cloud.SAMPLES_PER_CHUNK) in
  Cloud.localChunks audioData
  = List.map (fun k => Cloud.chunkAt audioData (Z.of_nat k * Cloud.SAMPLES_PER_CHUNK))
             (seq 0 n)
  /\ concat (List.map Cloud.chunkData (Cloud.localChunks audioData)) = audioData
  /\ Forall (fun chunk =>
               (0 < arrayLength (Cloud.chunkData chunk) <= Cloud.SAMPLES_PER_CHUNK)%Z)
            (Cloud.localChunks audioData)
  /\ (forall k : nat,
        (Cloud.chunkOffsetS
           (Cloud.chunkAt audioData (Z.of_nat k * Cloud.SAMPLES_PER_CHUNK))
         == inject_Z (600 * Z.of_nat k))%Q).
Proof.
  intros n.
  assert (Hspc : Cloud.SAMPLES_PER_CHUNK = 9600000%Z) by reflexivity.
  assert (Hlen : (0 <= arrayLength audioData)%Z) by (unfold arrayLength; lia).
  assert (E : Cloud.localChunks audioData
              = List.map (fun k => Cloud.chunkAt audioData
                                     (Z.of_nat k * Cloud.SAMPLES_PER_CHUNK))
                         (seq 0 n)).
  { unfold Cloud.localChunks. rewrite chunkLoop_spec by (unfold arrayLength; lia).
    simpl app. rewrite Z.sub_0_r, Z.max_r by lia. reflexivity. }
  destruct (ceilDiv_covers (arrayLength audioData) Cloud.SAMPLES_PER_CHUNK)
    as [Hup Hlow]; [reflexivity|].
  assert (Hn : (0 <= ceilDiv (arrayLength audioData) Cloud.SAMPLES_PER_CHUNK)%Z)
    by (apply ceilDiv_nonneg; [reflexivity|lia]).
  split; [exact E|]. split; [|split].
  - rewrite E, map_map. unfold Cloud.chunkAt. simpl Cloud.chunkData.
    rewrite slices_concat by (rewrite Hspc; lia).
    apply firstn_all2. unfold arrayLength in *. subst n.
    rewrite Hspc in *. lia.
  - rewrite E. apply Forall_forall. intros chunk Hin.
    apply in_map_iff in Hin. destruct Hin as (k & <- & Hk).
    apply in_seq in Hk. unfold Cloud.chunkAt. simpl Cloud.chunkData.
    unfold slice, arrayLength in *. rewrite length_firstn, length_skipn.
    subst n. rewrite Hspc in *. lia.
  - intros k. unfold Cloud.chunkAt. cbn [Cloud.chunkOffsetS]. rewrite Hspc.
    replace (Z.of_nat k * 9600000)%Z with (600 * Z.of_nat k * 16000)%Z by lia.
    rewrite (inject_Z_mult (600 * Z.of_nat k) 16000).
    field.
Qed.

(** X19: the text that the cloud path shows is the trimmed texts of the
    answers joined by single spaces, after leaving out the empty ones that
    come before the first non-empty one; an empty text after that one still
    adds its separating space. *)
Theorem cloud_text_is_joined (answers : list (Cloud.CloudResult * Q)) :
  fst (Cloud.combine answers)
  = join SPACE (Cloud.dropEmpty (List.map (fun a => Cloud.textOf (fst a)) answers)).
Proof.
  unfold Cloud.combine. generalize (@nil TranscriptSegment) as segs.
  induction answers as [|[result offsetS] answers IH]; intros segs; [reflexivity|].
  cbn [fold_left Cloud.accumulate app List.map fst].
  destruct (Cloud.textOf result) as [|c t] eqn:E.
  - cbn [Cloud.dropEmpty]. apply IH.
  - cbn [Cloud.dropEmpty]. rewrite accumulate_nonempty by discriminate.
    rewrite join_cons, map_map. reflexivity.
Qed.

(** ** WAV encoding: layout and samples *)

Section WavFacts.

Import Wav.
Local Open Scope Z_scope.

Lemma writeAt_fill (pre bytes : list Z) (k : nat) (offset : Z) :
  offset = Z.of_nat (length pre) ->
  (length bytes <= k)%nat ->
  writeAt offset bytes (pre ++ repeat 0 k)
  = Some ((pre ++ bytes) ++ repeat 0 (k - length bytes)).
Proof.
  intros -> Hk. unfold writeAt.
  rewrite length_app, repeat_length.
  assert (C : (0 <=? Z.of_nat (length pre))
              && (Z.of_nat (length pre) + Z.of_nat (length bytes)
                  <=? Z.of_nat (length pre + k)) = true).
  { apply andb_true_iff. split; apply Z.leb_le; lia. }
  rewrite C, Nat2Z.id. f_equal.
  rewrite firstn_app, firstn_all, Nat.sub_diag, firstn_O, app_nil_r.
  rewrite <- app_assoc. do 2 f_equal.
  rewrite skipn_app, skipn_all2 by lia. simpl.
  replace (length pre + length bytes - length pre)%nat with (length bytes) by lia.
  replace k with (length bytes + (k - length bytes))%nat at 1 by lia.
  rewrite repeat_app, skipn_app, skipn_all2 by (rewrite repeat_length; lia).
  rewrite repeat_length, Nat.sub_diag. reflexivity.
Qed.

Lemma writeString_fill (s : jsstring) :
  forall (pre : list Z) (k : nat) (offset : Z),
    offset = Z.of_nat (length pre) ->
    (length s <= k)%nat ->
    writeString offset s (pre ++ repeat 0 k)
    = Some ((pre ++ List.map (fun c => Z.of_N c mod 256) s)
            ++ repeat 0 (k - length s)).
Proof.
  induction s as [|c s IH]; intros pre k offset Ho Hk.
  - simpl. now rewrite app_nil_r, Nat.sub_0_r.
  - cbn [writeString]. unfold setUint8.
    rewrite (writeAt_fill pre _ k offset Ho) by (simpl in *; lia).
    cbn [bind]. rewrite IH.
    + cbn [List.map length]. rewrite <- (app_assoc pre). simpl app.
      replace (k - 1 - length s)%nat with (k - S (length s))%nat by lia.
      reflexivity.
    + rewrite length_app. simpl. lia.
    + simpl in *. lia.
Qed.

Lemma sampleLoop_fill (samples : Float32Array) :
  forall (pre : list Z) (k : nat) (offset : Z),
    offset = Z.of_nat (length pre) ->
    k = (2 * length samples)%nat ->
    sampleLoop samples offset (pre ++ repeat 0 k)
    = Some (pre ++ flat_map (fun sample => bytes16 (pcm16 sample)) samples).
Proof.
  induction samples as [|x samples IH]; intros pre k offset Ho Hk.
  - simpl in *. subst k. reflexivity.
  - cbn [sampleLoop]. unfold setInt16.
    rewrite (writeAt_fill pre _ k offset Ho) by (simpl in *; lia).
    cbn [bind]. rewrite IH.
    + cbn [flat_map]. rewrite <- (app_assoc pre). reflexivity.
    + rewrite length_app. simpl. lia.
    + simpl in *. lia.
Qed.

Lemma encodeWAV_layout (samples : Float32Array) (sampleRate : Z) :
  encodeWAV samples sampleRate = Some (layout samples sampleRate).
Proof.
  unfold encodeWAV, newArrayBuffer, setUint32, setUint16.
  replace (Z.to_nat (44 + arrayLength samples * 2))
    with (4 + (4 + (4 + (4 + (4 + (2 + (2 + (4 + (4 + (2 + (2 + (4 + (4 +
          2 * length samples)))))))))))))%nat
    by (unfold arrayLength; lia).
  change (repeat 0 ?k) with ([] ++ repeat 0 k) at 1.
  repeat (first
    [ rewrite writeString_fill by (try reflexivity; simpl; lia)
    | rewrite writeAt_fill by (try reflexivity; simpl; lia) ];
    cbn [bind];
    match goal with
    | |- context [repeat 0 (?a - ?b)] =>
        let r := eval cbn in (a - b)%nat in change (a - b)%nat with r
    end).
  rewrite sampleLoop_fill by (try reflexivity; simpl; lia).
  unfold layout, header. rewrite <- !app_assoc. reflexivity.
Qed.

Lemma header_length (sampleCount sampleRate : Z) :
  length (header sampleCount sampleRate) = 44%nat.
Proof. reflexivity. Qed.

Lemma byteAt_app (pre rest : list Z) (j : nat) :
  byteAt (pre ++ rest) (Z.of_nat (length pre) + Z.of_nat j) = nth_error rest j.
Proof.
  unfold byteAt.
  assert (C : (0 <=? Z.of_nat (length pre) + Z.of_nat j) = true)
    by (apply Z.leb_le; lia).
  rewrite C, nth_error_app2 by lia. f_equal. lia.
Qed.

Lemma getUint32_bytes32 (pre rest : list Z) (value offset : Z) :
  offset = Z.of_nat (length pre) ->
  0 <= value < 4294967296 ->
  getUint32 offset (pre ++ bytes32 value ++ rest) = Some value.
Proof.
  intros -> Hv. unfold getUint32.
  rewrite <- (Z.add_0_r (Z.of_nat (length pre))) at 1.
  change 0 with (Z.of_nat 0) at 1.
  change 1 with (Z.of_nat 1) at 1.
  change 2 with (Z.of_nat 2) at 1.
  change 3 with (Z.of_nat 3) at 1.
  rewrite !byteAt_app. unfold bytes32. cbn [app nth_error bind].
  f_equal. Z.div_mod_to_equations. lia.
Qed.

Lemma getInt16_bytes16 (pre rest : list Z) (value offset : Z) :
  offset = Z.of_nat (length pre) ->
  -32768 <= value <= 32767 ->
  getInt16 offset (pre ++ bytes16 value ++ rest) = Some value.
Proof.
  intros -> Hv. unfold getInt16.
  rewrite <- (Z.add_0_r (Z.of_nat (length pre))) at 1.
  change 0 with (Z.of_nat 0) at 1.
  change 1 with (Z.of_nat 1) at 1.
  rewrite !byteAt_app. unfold bytes16. cbn [app nth_error bind].
  f_equal.
  destruct (value mod 256 + 256 * ((value / 256) mod 256) <? 32768) eqn:E;
    [apply Z.ltb_lt in E|apply Z.ltb_ge in E];
    Z.div_mod_to_equations; lia.
Qed.

Lemma clamped_range (x : Q) :
  (-1 <= mathMax (-1) (mathMin 1 x) <= 1)%Q.
Proof.
  unfold mathMax, mathMin.
  destruct (Qle_bool 1 x) eqn:E1.
  - destruct (Qle_bool 1 (-1)) eqn:E2; [discriminate|]. split; lra.
  - destruct (Qle_bool x (-1)) eqn:E2.
    + split; lra.
    + assert (~ (1 <= x)%Q) by (rewrite <- Qle_bool_iff, E1; discriminate).
      assert (~ (x <= -1)%Q) by (rewrite <- Qle_bool_iff, E2; discriminate).
      split; lra.
Qed.

Lemma scaled_range (x : Q) : (-32768 <= scaled x <= 32767)%Q.
Proof.
  unfold scaled. pose proof (clamped_range x) as [H1 H2].
  destruct (Qle_bool 0 (mathMax (-1) (mathMin 1 x))) eqn:E.
  - apply Qle_bool_iff in E. split; lra.
  - assert (~ (0 <= mathMax (-1) (mathMin 1 x))%Q)
      by (rewrite <- Qle_bool_iff, E; discriminate).
    split; lra.
Qed.

Lemma truncate_near (x : Q) :
  (inject_Z (truncate x) - 1 < x /\ x < inject_Z (truncate x) + 1)%Q.
Proof.
  unfold truncate. destruct (Qle_bool 0 x).
  - pose proof (Qfloor_le x) as H1. pose proof (Qlt_floor x) as H2.
    rewrite inject_Z_plus in H2. change (inject_Z 1) with 1%Q in H2.
    split; lra.
  - pose proof (Qle_ceiling x) as H1. pose proof (Qceiling_lt x) as H2.
    unfold Z.sub in H2. rewrite inject_Z_plus in H2.
    change (inject_Z (- (1))) with (-1)%Q in H2.
    split; lra.
Qed.

Lemma truncate_range (x : Q) (lo hi : Z) :
  (inject_Z lo <= x <= inject_Z hi)%Q -> lo <= truncate x <= hi.
Proof.
  intros [H1 H2]. unfold truncate. destruct (Qle_bool 0 x).
  - split.
    + rewrite <- (Qfloor_Z lo). now apply Qfloor_resp_le.
    + rewrite <- (Qfloor_Z hi). now apply Qfloor_resp_le.
  - split.
    + rewrite <- (Qceiling_Z lo). now apply Qceiling_resp_le.
    + rewrite <- (Qceiling_Z hi). now apply Qceiling_resp_le.
Qed.

Lemma pcm16_range (x : Q) : -32768 <= pcm16 x <= 32767.
Proof. apply truncate_range. apply scaled_range. Qed.

End WavFacts.

(** X20: [encodeWAV] never leaves the buffer it has allocated, and the file
    it builds is the 44-byte header of a mono 16-bit PCM file followed by two
    bytes per sample, 44 + 2 n bytes in all.  When the file is shorter than
    4 GiB, its RIFF size field reads back as the file length less 8 and its
    data size field as 2 n; for a sample rate below 2^31 the rate and the
    byte rate (twice the rate) read back as written. *)
Theorem wav_file_layout (samples : Float32Array) (sampleRate : Z) :
  let wav := Wav.layout samples sampleRate in
  let n := arrayLength samples in
  Wav.encodeWAV samples sampleRate = Some wav
  /\ Z.of_nat (length wav) = (44 + 2 * n)%Z
  /\ firstn 4 wav = Wav.ascii4 "RIFF"
  /\ ((44 + 2 * n < 4294967296)%Z ->
      Wav.getUint32 4 wav = Some (Z.of_nat (length wav) - 8)%Z
      /\ Wav.getUint32 40 wav = Some (2 * n)%Z)
  /\ ((0 <= sampleRate < 2147483648)%Z ->
      Wav.getUint32 24 wav = Some sampleRate
      /\ Wav.getUint32 28 wav = Some (2 * sampleRate)%Z).
Proof.
  intros wav n.
  assert (Hn : (0 <= n)%Z) by (unfold n, arrayLength; lia).
  assert (Hlen : Z.of_nat (length wav) = (44 + 2 * n)%Z).
  { unfold wav, Wav.layout. rewrite length_app, header_length.
    rewrite (flat_map_constant_length (c := 2%nat)) by reflexivity.
    unfold n, arrayLength. lia. }
  split; [apply encodeWAV_layout|]. split; [exact Hlen|]. split; [reflexivity|].
  split.
  - intros Hsmall. split.
    + rewrite Hlen. unfold wav, Wav.layout, Wav.header. fold n.
      rewrite <- !app_assoc.
      replace (44 + 2 * n - 8)%Z with (36 + n * 2)%Z by lia.
      apply (getUint32_bytes32 (Wav.ascii4 "RIFF")); [reflexivity|lia].
    + unfold wav, Wav.layout, Wav.header. fold n.
      replace (2 * n)%Z with (n * 2)%Z by lia.
      rewrite !app_assoc. rewrite <- app_assoc.
      apply getUint32_bytes32; [reflexivity|lia].
  - intros Hrate. split.
    + unfold wav, Wav.layout, Wav.header. fold n.
      rewrite <- !app_assoc.
      rewrite (app_assoc (Wav.ascii4 "RIFF")), (app_assoc (_ ++ _) (Wav.ascii4 "WAVE")),
        (app_assoc (_ ++ _) (Wav.ascii4 "fmt ")), (app_assoc (_ ++ _) (Wav.bytes32 16)),
        (app_assoc (_ ++ _) (Wav.bytes16 1)), (app_assoc (_ ++ _) (Wav.bytes16 1)).
      apply getUint32_bytes32; [reflexivity|lia].
    + unfold wav, Wav.layout, Wav.header. fold n.
      replace (2 * sampleRate)%Z with (sampleRate * 2)%Z by lia.
      rewrite <- !app_assoc.
      rewrite (app_assoc (Wav.ascii4 "RIFF")), (app_assoc (_ ++ _) (Wav.ascii4 "WAVE")),
        (app_assoc (_ ++ _) (Wav.ascii4 "fmt ")), (app_assoc (_ ++ _) (Wav.bytes32 16)),
        (app_assoc (_ ++ _) (Wav.bytes16 1)), (app_assoc (_ ++ _) (Wav.bytes16 1)),
        (app_assoc (_ ++ _) (Wav.bytes32 sampleRate)).
      apply getUint32_bytes32; [reflexivity|lia].
Qed.

(** X21: the i-th sample of the waveform is stored at bytes 44 + 2 i and
    45 + 2 i of the file as a 16-bit integer that reads back as the sample
    clamped to [-1, 1], scaled by 32767 (by 32768 when negative) and cut to
    an integer towards zero: it lies between -32768 and 32767, differs from
    the scaled sample by less than one step, and is 32767 for every sample
    of 1 or more and -32768 for every sample of -1 or less. *)
Theorem wav_sample_round_trip
  (samples : Float32Array) (sampleRate : Z) (i : nat) (sample : Q)
  (Hi : nth_error samples i = Some sample) :
  Wav.getInt16 (44 + 2 * Z.of_nat i) (Wav.layout samples sampleRate)
  = Some (Wav.pcm16 sample)
  /\ (-32768 <= Wav.pcm16 sample <= 32767)%Z
  /\ (inject_Z (Wav.pcm16 sample) - 1 < Wav.scaled sample
      /\ Wav.scaled sample < inject_Z (Wav.pcm16 sample) + 1)%Q
  /\ ((1 <= sample)%Q -> Wav.pcm16 sample = 32767%Z)
  /\ ((sample <= -1)%Q -> Wav.pcm16 sample = (-32768)%Z).
Proof.
  split; [|split; [apply pcm16_range|split; [apply truncate_near|split]]].
  - apply nth_error_split in Hi. destruct Hi as (l1 & l2 & -> & Hl).
    unfold Wav.layout. rewrite flat_map_app. cbn [flat_map].
    rewrite app_assoc.
    apply getInt16_bytes16; [|apply pcm16_range].
    rewrite length_app, header_length.
    rewrite (flat_map_constant_length (c := 2%nat)) by reflexivity. lia.
  - intros H. unfold Wav.pcm16, Wav.scaled, mathMax, mathMin.
    assert (E1 : Qle_bool 1 sample = true) by now apply Qle_bool_iff.
    rewrite E1. reflexivity.
  - intros H. unfold Wav.pcm16, Wav.scaled, mathMax, mathMin.
    destruct (Qle_bool 1 sample) eqn:E1.
    + apply Qle_bool_iff in E1. lra.
    + assert (E2 : Qle_bool sample (-1) = true) by now apply Qle_bool_iff.
      rewrite E2. reflexivity.
Qed.

Lemma wav_sample_round_trip_witness :
  let samples := [(1 # 2)%Q; (-3 # 2)%Q] in
  nth_error samples 1 = Some (-3 # 2)%Q
  /\ Wav.getInt16 (44 + 2 * Z.of_nat 1) (Wav.layout samples 16000)
     = Some (Wav.pcm16 (-3 # 2)%Q)
  /\ Wav.pcm16 (-3 # 2)%Q = (-32768)%Z.
Proof.
  intros samples. split; [reflexivity|].
  pose proof (wav_sample_round_trip samples 16000 1 (-3 # 2)%Q eq_refl)
    as (H1 & _ & _ & _ & H5).
  split; [exact H1|]. apply H5. vm_compute. discriminate.
Defined.

(** ** The progress label and the accepted files *)

Section LabelFacts.

Local Open Scope Z_scope.

Lemma buildWindows_count (audio : Float32Array) :
  audio <> [] ->
  Z.of_nat (length (buildWindows audio)) = countFrom (arrayLength audio) 0
  /\ 1 <= countFrom (arrayLength audio) 0.
Proof.
  intros Hne. destruct (buildWindows_planned audio Hne) as (n & Hn & E).
  rewrite countFrom_estimate in *.
  pose proof (estimateChunkCount_positive (arrayLength audio)).
  rewrite E. unfold offsetsFrom. rewrite !length_map, length_seq. lia.
Qed.

End LabelFacts.

(** X22: the total audio time that the progress label derives from the
    number of windows of a job, (N - 1) * 20 + 30 seconds, is never shorter
    than the waveform; for a waveform of 30 s or more it exceeds the length
    by less than 20 s.  The processed time of the label, 20 s per window,
    stays below that total even when all N windows are done. *)
Theorem label_total_covers_the_audio (audio : Float32Array) :
  let N := Z.of_nat (length (buildWindows audio)) in
  (arrayLength audio <= SAMPLE_RATE * Label.totalAudioSec N)%Z
  /\ ((WINDOW_SAMPLES <= arrayLength audio)%Z ->
      (SAMPLE_RATE * Label.totalAudioSec N < arrayLength audio + JUMP_SAMPLES)%Z)
  /\ (forall processed : Z,
        (processed <= N)%Z ->
        (Label.processedAudioSec processed < Label.totalAudioSec N)%Z).
Proof.
  intros N. unfold Label.totalAudioSec, Label.processedAudioSec.
  destruct window_constants as (HW & HJ & _ & HR). rewrite HW, HJ, HR.
  split; [|split; [|intros; lia]].
  - assert (Hcases : audio = [] \/ audio <> [])
      by (destruct audio; [left|right]; congruence).
    destruct Hcases as [Hnil|Hne];
      [subst N; rewrite Hnil; vm_compute; discriminate|].
    destruct (buildWindows_count audio Hne) as [Hc Hpos]. fold N in Hc.
    unfold countFrom in Hc, Hpos. rewrite HW, HJ in *.
    destruct (arrayLength audio <=? 0 + 480000)%Z eqn:E.
    + apply Z.leb_le in E. lia.
    + destruct (ceilDiv_covers (arrayLength audio - 0 - 480000) 320000) as [Hup _];
        [lia|]. lia.
  - intros Hlong.
    assert (Hne : audio <> [])
      by (intros ->; unfold arrayLength in Hlong; simpl in Hlong; lia).
    destruct (buildWindows_count audio Hne) as [Hc Hpos]. fold N in Hc.
    unfold countFrom in Hc, Hpos. rewrite HW, HJ in *.
    destruct (arrayLength audio <=? 0 + 480000)%Z eqn:E.
    + apply Z.leb_le in E. lia.
    + destruct (ceilDiv_covers (arrayLength audio - 0 - 480000) 320000) as [_ Hlow];
        [lia|]. lia.
Qed.

Section DropzoneFacts.

Import Dropzone.

Lemma split_app (sep : codeunit) (a b : jsstring) :
  split sep (a ++ sep :: b) = split sep a ++ split sep b.
Proof.
  induction a as [|c a IH]; simpl.
  - now rewrite N.eqb_refl.
  - destruct (c =? sep)%N; [now rewrite IH|].
    rewrite IH. pose proof (split_nonempty sep a) as Hne.
    destruct (split sep a) as [|w ws]; [contradiction|]. reflexivity.
Qed.

Lemma split_whole (sep : codeunit) (s : jsstring) :
  Forall (fun c => c <> sep) s -> split sep s = [s].
Proof.
  induction 1 as [|c r Hc _ IH]; [reflexivity|].
  simpl. apply N.eqb_neq in Hc. now rewrite Hc, IH.
Qed.

Lemma pop_app (xs ys : list jsstring) : ys <> [] -> pop (xs ++ ys) = pop ys.
Proof.
  intros Hne. induction xs as [|x xs IH]; [reflexivity|].
  simpl. destruct (xs ++ ys) eqn:E; [|exact IH].
  apply app_eq_nil in E. destruct E as [_ E]. contradiction.
Qed.

End DropzoneFacts.

(** X23: whether a file is accepted depends only on what follows the last
    dot of its name: a name [stem.rest] is judged as [rest] is, whatever the
    stem; and a name without any dot is taken as a whole for the extension,
    so that it is accepted exactly when its lower-case form is one of the
    nine extensions. *)
Theorem only_the_last_extension_counts
  (toLowerCase : jsstring -> jsstring) (stem rest : jsstring) :
  Dropzone.isAcceptedAudioFile toLowerCase (stem ++ Dropzone.DOT :: rest)
  = Dropzone.isAcceptedAudioFile toLowerCase rest
  /\ (Forall (fun c => c <> Dropzone.DOT) rest ->
      Dropzone.isAcceptedAudioFile toLowerCase rest
      = Dropzone.arrayIncludes Dropzone.ACCEPTED_AUDIO_EXTENSIONS (toLowerCase rest)).
Proof.
  unfold Dropzone.isAcceptedAudioFile. split.
  - rewrite split_app, pop_app by apply split_nonempty. reflexivity.
  - intros Hno. rewrite split_whole by exact Hno. reflexivity.
Qed.

(** ** Timestamps and exports *)

Section ExportFacts.

Import Exports.
Local Open Scope Z_scope.

Lemma digitsOf_digits (fuel : nat) :
  forall n, 0 <= n -> Forall isDigit (digitsOf fuel n).
Proof.
  induction fuel as [|f IH]; intros n Hn; [constructor|].
  cbn [digitsOf]. destruct (n <? 10) eqn:E.
  - apply Z.ltb_lt in E. constructor; [|constructor]. unfold isDigit. lia.
  - apply Forall_app. split.
    + apply IH. apply Z.div_pos; lia.
    + constructor; [|constructor]. unfold isDigit.
      pose proof (Z.mod_pos_bound n 10). lia.
Qed.

Lemma decimalValue_app (a : jsstring) (c : codeunit) :
  decimalValue (a ++ [c]) = 10 * decimalValue a + (Z.of_N c - 48).
Proof. unfold decimalValue. now rewrite fold_left_app. Qed.

Lemma digitsOf_value (fuel : nat) :
  forall n, 0 <= n < 2 ^ Z.of_nat fuel -> decimalValue (digitsOf fuel n) = n.
Proof.
  induction fuel as [|f IH]; intros n Hn.
  - simpl in Hn. assert (n = 0) by lia. subst n. reflexivity.
  - cbn [digitsOf]. destruct (n <? 10) eqn:E.
    + apply Z.ltb_lt in E. unfold decimalValue. cbn [fold_left].
      rewrite Z2N.id by lia. lia.
    + apply Z.ltb_ge in E. rewrite decimalValue_app, IH.
      * pose proof (Z.mod_pos_bound n 10). pose proof (Z.div_mod n 10).
        rewrite Z2N.id by lia. lia.
      * rewrite Nat2Z.inj_succ, Z.pow_succ_r in Hn by lia.
        split; [apply Z.div_pos; lia|].
        apply Z.div_lt_upper_bound; lia.
Qed.

Lemma numberToString_value (n : Z) :
  0 <= n -> decimalValue (numberToString n) = n.
Proof.
  intros Hn. unfold numberToString. apply digitsOf_value.
  split; [exact Hn|].
  destruct (Z.eq_dec n 0) as [->|Hz]; [reflexivity|].
  rewrite Nat2Z.inj_succ, Z2Nat.id by apply Z.log2_nonneg.
  apply Z.log2_spec. lia.
Qed.

Lemma decimalValue_zeros (k : nat) (s : jsstring) :
  decimalValue (repeat ZERO k ++ s) = decimalValue s.
Proof.
  unfold decimalValue. rewrite fold_left_app. f_equal.
  induction k as [|k IH]; [reflexivity|]. simpl. exact IH.
Qed.

Lemma padded_value (n : Z) :
  0 <= n -> decimalValue (padStart 2 ZERO (numberToString n)) = n.
Proof.
  intros Hn. unfold padStart. rewrite decimalValue_zeros.
  now apply numberToString_value.
Qed.

Lemma padded_digits (n : Z) :
  0 <= n -> Forall isDigit (padStart 2 ZERO (numberToString n)).
Proof.
  intros Hn. unfold padStart. apply Forall_app. split.
  - apply Forall_forall. intros c Hc. apply repeat_spec in Hc. subst c.
    unfold isDigit, ZERO. lia.
  - now apply digitsOf_digits.
Qed.

Lemma digits_without (sep : codeunit) (s : jsstring) :
  (sep < 48 \/ 57 < sep)%N -> Forall isDigit s -> Forall (fun c => c <> sep) s.
Proof.
  intros Hsep H. eapply Forall_impl; [|exact H].
  intros c Hc. unfold isDigit in Hc. lia.
Qed.

Lemma split_join (sep : codeunit) (lines : list jsstring) :
  lines <> [] ->
  Forall (Forall (fun c => c <> sep)) lines ->
  split sep (join sep lines) = lines.
Proof.
  induction lines as [|w rest IH]; intros Hne H; [contradiction|].
  inversion H as [|? ? Hw Hrest]; subst.
  destruct rest as [|v rest'].
  - simpl. now apply split_whole.
  - change (join sep (w :: v :: rest')) with (w ++ sep :: join sep (v :: rest')).
    rewrite split_app, IH by (assumption || discriminate).
    now rewrite split_whole.
Qed.

Lemma spaced_no_newline (s : jsstring) :
  forall b, spaced b s = true -> Forall (fun c => c <> NEWLINE) s.
Proof.
  induction s as [|c r IH]; intros b H; [constructor|].
  simpl in H. destruct (isWhitespace c) eqn:Hc.
  - apply andb_prop in H. destruct H as [H Hr].
    apply andb_prop in H. destruct H as [Hsp _]. apply N.eqb_eq in Hsp.
    constructor; [subst c; discriminate|]. now apply (IH true).
  - constructor; [|now apply (IH false)].
    intros ->. discriminate.
Qed.

Ltac digits_of H := eapply Forall_impl; [|exact H]; intros ? ?; now left.
Ltac colon_unit := constructor; [now right|constructor].

Lemma timestamp_fields (seconds : Q) :
  exists fields,
    split COLON (formatSegmentTimestamp seconds) = fields
    /\ fold_left (fun acc field => 60 * acc + decimalValue field) fields 0
       = Z.max 0 (Qfloor seconds)
    /\ Forall (fun c => isDigit c \/ c = COLON) (formatSegmentTimestamp seconds).
Proof.
  unfold formatSegmentTimestamp.
  set (safeSeconds := Z.max 0 (Qfloor seconds)).
  assert (Hs : 0 <= safeSeconds) by (unfold safeSeconds; lia).
  assert (Hh : 0 <= safeSeconds / 3600) by (apply Z.div_pos; lia).
  assert (Hm : 0 <= (safeSeconds mod 3600) / 60)
    by (apply Z.div_pos; [apply Z.mod_pos_bound|]; lia).
  assert (Hsec : 0 <= safeSeconds mod 60) by (apply Z.mod_pos_bound; lia).
  assert (Hcolon : (COLON < 48 \/ 57 < COLON)%N) by (right; reflexivity).
  pose proof (padded_digits _ Hh) as Dh.
  pose proof (padded_digits _ Hm) as Dm.
  pose proof (padded_digits _ Hsec) as Ds.
  eexists. split; [reflexivity|].
  destruct (safeSeconds / 3600 >? 0) eqn:E.
  - split.
    + cbn [app]. rewrite split_app, split_app.
      rewrite !split_whole by (apply digits_without; assumption).
      cbn [app fold_left]. rewrite !padded_value by assumption.
      Z.div_mod_to_equations. lia.
    + apply Forall_app; split; [digits_of Dh|].
      apply Forall_app; split; [colon_unit|].
      apply Forall_app; split; [digits_of Dm|].
      apply Forall_app; split; [colon_unit|digits_of Ds].
  - split.
    + cbn [app]. rewrite split_app.
      rewrite !split_whole by (apply digits_without; assumption).
      cbn [app fold_left]. rewrite !padded_value by assumption.
      rewrite Z.gtb_ltb in E. apply Z.ltb_ge in E.
      Z.div_mod_to_equations. lia.
    + apply Forall_app; split; [digits_of Dm|].
      apply Forall_app; split; [colon_unit|digits_of Ds].
Qed.

Lemma exportLine_no_newline (segment : TranscriptSegment) :
  isNormal (text segment) = true ->
  Forall (fun c => c <> NEWLINE) (exportLine segment).
Proof.
  intros Hn. unfold exportLine.
  destruct (timestamp_fields (start segment)) as (fields & _ & _ & Hd).
  apply Forall_app. split; [constructor; [discriminate|constructor]|].
  apply Forall_app. split.
  - eapply Forall_impl; [|exact Hd]. intros c [Hc| ->]; [|discriminate].
    unfold isDigit in Hc. unfold NEWLINE. lia.
  - apply Forall_app. split; [repeat constructor; discriminate|].
    unfold isNormal in Hn. apply andb_prop in Hn. destruct Hn as [Hn _].
    now apply (spaced_no_newline _ true).
Qed.

End ExportFacts.


(** X25: for the segments that the merger returns, the plain export is the
    texts of all segments joined by single spaces (trimming changes no text
    and no segment is filtered out), and the timestamped export has exactly
    one line per segment, the line [[label] text] of that segment; without
    segments both exports are the trimmed output. *)
Theorem exports_keep_every_segment
  (toLowerCase : jsstring -> jsstring) (raw : list TranscriptSegment)
  (output : jsstring) :
  let segments := dedupeSegments toLowerCase raw in
  Exports.plainTextExport output segments
  = match segments with
    | [] => trim output
    | _ :: _ => join SPACE (List.map text segments)
    end
  /\ (segments <> [] ->
      split Exports.NEWLINE (Exports.timestampedExport output segments)
      = List.map Exports.exportLine segments)
  /\ (segments = [] -> Exports.timestampedExport output segments = trim output).
Proof.
  intros segments.
  destruct (dedupeSegments_shape toLowerCase raw) as [_ Hwf].
  fold segments in Hwf. clearbody segments.
  split; [|split].
  - destruct segments as [|s rest]; [reflexivity|].
    unfold Exports.plainTextExport. f_equal.
    induction Hwf as [|x l (_ & Hne & Hn) _ IH]; [reflexivity|].
    cbn [List.map filter]. rewrite (isNormal_trim _ Hn).
    destruct (text x) as [|c t] eqn:E; [contradiction|].
    cbn [Exports.nonEmpty]. now rewrite IH.
  - intros Hne. destruct segments as [|s rest]; [contradiction|].
    unfold Exports.timestampedExport. apply split_join; [discriminate|].
    apply Forall_map. eapply Forall_impl; [|exact Hwf].
    intros x (_ & _ & Hn). now apply exportLine_no_newline.
  - intros ->. reflexivity.
Qed.

(** ** From the worker to the page *)

Section EndToEnd.

Lemma deliveries_keep_id (timed : list (Page.Clock * WorkerResponse)) :
  forall st,
    Page.activeRequestId (Page.run (deliveries timed) st) = Page.activeRequestId st.
Proof.
  induction timed as [|[now message] timed IH]; intros st; [reflexivity|].
  unfold Page.run, deliveries in *. simpl. rewrite IH.
  apply handleWorkerMessage_keeps_id.
Qed.

Lemma deliveries_app (xs ys : list (Page.Clock * WorkerResponse))
  (st : Page.PageState) :
  Page.run (deliveries (xs ++ ys)) st
  = Page.run (deliveries ys) (Page.run (deliveries xs) st).
Proof. unfold Page.run, deliveries. now rewrite map_app, fold_left_app. Qed.

Lemma final_messages_shown (st : Page.PageState) (t1 t2 t3 : Page.Clock)
  (canonicalText : jsstring) (segs : list TranscriptSegment) :
  let r := Page.activeRequestId st in
  let st' := Page.run (deliveries [(t1, MsgSegments r canonicalText segs);
                                   (t2, MsgResult canonicalText r);
                                   (t3, MsgStatus Ready (Some r) None None)]) st in
  Page.output st' = canonicalText /\ Page.segments st' = segs
  /\ Page.status st' = Page.StatusReady
  /\ Page.etaSeconds (Page.gauges st') = None
  /\ Page.progressPhase (Page.gauges st') = None
  /\ Page.wasModelEverLoaded st' = true.
Proof.
  intros r st'. subst st' r.
  destruct st as [id s o sg e fn dev w m v a g].
  unfold Page.run, deliveries, Page.react, Page.handleWorkerMessage, Page.isStale.
  cbn [List.map fold_left fst snd].
  repeat (cbn [Page.activeRequestId Page.onGauges Page.setGauges Page.setStatus
               Page.setOutput Page.setSegments negb];
          rewrite Z.eqb_refl).
  cbn [negb]. repeat split; reflexivity.
Qed.

End EndToEnd.

(** X26: when the messages of a job are delivered in order to a page whose
    active request is that job, the page ends up showing what the segments
    message of the job carries, its text as the output and its segments,
    whatever partial texts were shown before; the status is ready, the
    estimate and the progress phase are cleared, and the model is recorded
    as loaded. *)
Theorem finished_job_is_shown
  (toLowerCase : jsstring -> jsstring)
  (transcriber : nat -> Float32Array -> Outcome) (requestId : Z)
  (device : option Device) (audio : Float32Array)
  (timed : list (Page.Clock * WorkerResponse)) (st : Page.PageState) :
  List.map snd timed = transcribe toLowerCase transcriber requestId device audio ->
  Page.activeRequestId st = requestId ->
  let st' := Page.run (deliveries timed) st in
  exists canonicalText segs,
    In (MsgSegments requestId canonicalText segs)
       (transcribe toLowerCase transcriber requestId device audio)
    /\ Page.output st' = canonicalText
    /\ Page.segments st' = segs
    /\ Page.status st' = Page.StatusReady
    /\ Page.etaSeconds (Page.gauges st') = None
    /\ Page.progressPhase (Page.gauges st') = None
    /\ Page.wasModelEverLoaded st' = true.
Proof.
  intros Hjob Hid st'.
  unfold transcribe in *. cbv zeta in *.
  match type of Hjob with
  | _ = _ ++ [MsgSegments _ ?t ?g; _; _] =>
      set (canonicalText := t) in *; set (segs := g) in *
  end.
  exists canonicalText, segs.
  split; [apply in_or_app; right; left; reflexivity|].
  clearbody canonicalText segs.
  apply map_eq_app in Hjob. destruct Hjob as (before & last3 & -> & _ & H3).
  destruct last3 as [|[t1 m1] [|[t2 m2] [|[t3 m3] [|? ?]]]]; try discriminate.
  simpl in H3. injection H3 as -> -> ->.
  unfold st'. rewrite deliveries_app.
  set (mid := Page.run (deliveries before) st).
  assert (Hmid : Page.activeRequestId mid = requestId)
    by (unfold mid; now rewrite deliveries_keep_id).
  rewrite <- Hmid.
  exact (final_messages_shown mid t1 t2 t3 canonicalText segs).
Qed.

Lemma finished_job_is_shown_witness :
  let transcriber :=
    fun (_ : nat) (_ : Float32Array) =>
      Returned (Some (mkResult (Some (lit " hello  world "))
                        (Some [mkChunk (Some (lit "hello world"))
                                       (Some [TsNumber 0; TsNumber 1])]))) in
  let job := transcribe asciiLower transcriber 7 (Some Wasm) [0%Q] in
  let st := Page.startTranscription false true (Page.mkFile (lit "clip.wav") 1000000)
              (Page.mkPage 6 Page.StatusReady [] [] None None (Some Wasm)
                 true true false false
                 (Page.mkGauges 0 None None None None None None None None None None)) in
  let st' := Page.run (deliveries (List.map (fun m => (Page.mkClock 0 0, m)) job)) st in
  Page.activeRequestId st = 7%Z
  /\ exists canonicalText segs,
       In (MsgSegments 7 canonicalText segs) job
       /\ Page.output st' = canonicalText
       /\ Page.segments st' = segs
       /\ Page.status st' = Page.StatusReady
       /\ Page.etaSeconds (Page.gauges st') = None
       /\ Page.progressPhase (Page.gauges st') = None
       /\ Page.wasModelEverLoaded st' = true.
Proof.
  intros transcriber job st st'. split; [reflexivity|].
  apply (finished_job_is_shown asciiLower transcriber 7 (Some Wasm) [0%Q]
           (List.map (fun m => (Page.mkClock 0 0, m)) job) st).
  - rewrite map_map. apply map_id.
  - reflexivity.
Defined.

(** ** How many segments the merger returns *)

Section MergerCounts.

Variable toLowerCase : jsstring -> jsstring.

Lemma insertBy_length (x : TranscriptSegment) (l : list TranscriptSegment) :
  length (insertBy compareSegments x l) = S (length l).
Proof.
  induction l as [|y r IH]; simpl; [reflexivity|].
  destruct (Qle_bool (compareSegments x y) 0); simpl; [reflexivity|now rewrite IH].
Qed.

Lemma sortBy_length (l : list TranscriptSegment) :
  length (sortBy compareSegments l) = length l.
Proof.
  induction l as [|x l IH]; [reflexivity|]. simpl.
  now rewrite insertBy_length, IH.
Qed.

Lemma dedupeStep_length (acc : list TranscriptSegment) (c : TranscriptSegment) :
  length (dedupeStep toLowerCase acc c) <= S (length acc)
  /\ (acc <> [] -> dedupeStep toLowerCase acc c <> []).
Proof.
  destruct (isBlank c) eqn:Bl.
  - rewrite dedupeStep_blank by assumption. split; [lia|trivial].
  - destruct acc as [|prev older].
    + rewrite dedupeStep_first by assumption. split; [simpl; lia|discriminate].
    + rewrite dedupeStep_next by assumption.
      destruct (mergeable toLowerCase prev (cleaned c));
        (split; [simpl; lia|discriminate]).
Qed.

Lemma fold_dedupeStep_length (l : list TranscriptSegment) :
  forall acc,
    length (fold_left (dedupeStep toLowerCase) l acc) <= length acc + length l
    /\ (acc <> [] -> fold_left (dedupeStep toLowerCase) l acc <> []).
Proof.
  induction l as [|c l IH]; intros acc; simpl; [split; [lia|trivial]|].
  destruct (IH (dedupeStep toLowerCase acc c)) as [H1 H2].
  destruct (dedupeStep_length acc c) as [H3 H4].
  split; [lia|]. intros Hne. apply H2, H4, Hne.
Qed.

End MergerCounts.

(** X27: the merger never returns more segments than it is given, and it
    returns none exactly when every segment it is given is blank (its
    cleaned text is empty). *)
Theorem merger_never_adds_segments
  (toLowerCase : jsstring -> jsstring) (segments : list TranscriptSegment) :
  length (dedupeSegments toLowerCase segments) <= length segments
  /\ (dedupeSegments toLowerCase segments = [] <-> forallb isBlank segments = true).
Proof.
  split.
  - unfold dedupeSegments. rewrite length_rev.
    destruct (fold_dedupeStep_length toLowerCase
                (sortBy compareSegments segments) []) as [H _].
    rewrite sortBy_length in H. exact H.
  - rewrite dedupeSegments_filter. split.
    + intros E.
      assert (Hnb : Forall (fun s => isBlank s = false)
                      (filter (fun s => negb (isBlank s)) segments)).
      { apply Forall_forall. intros s Hs. apply filter_In in Hs.
        destruct Hs as [_ Hs]. now apply negb_true_iff in Hs. }
      assert (Hempty : filter (fun s => negb (isBlank s)) segments = []).
      { pose proof (sortBy_Forall _ _ Hnb) as Hsorted.
        pose proof (sortBy_length (filter (fun s => negb (isBlank s)) segments)) as Hl.
        unfold dedupeSegments in E.
        destruct (sortBy compareSegments (filter (fun s => negb (isBlank s)) segments))
          as [|c rest].
        - destruct (filter (fun s => negb (isBlank s)) segments);
            [reflexivity|discriminate].
        - exfalso. inversion Hsorted as [|? ? Hc _]; subst.
          simpl in E. rewrite dedupeStep_first in E by assumption.
          destruct (fold_dedupeStep_length toLowerCase rest [cleaned c]) as [_ Hne].
          apply (Hne ltac:(discriminate)).
          apply (f_equal (@rev _)) in E. rewrite rev_involutive in E. exact E. }
      clear E Hnb. induction segments as [|s l IH]; [reflexivity|].
      simpl in *. destruct (isBlank s); simpl in *; [now apply IH|discriminate].
    + intros Hall.
      assert (Hempty : filter (fun s => negb (isBlank s)) segments = []).
      { induction segments as [|s l IH]; [reflexivity|].
        simpl in *. apply andb_prop in Hall. destruct Hall as [Hs Hl].
        rewrite Hs. simpl. now apply IH. }
      rewrite Hempty. reflexivity.
Qed.
